(** * Frequency-decoupled guidance (ComfyUI-FDG): model of [nodes.py]

    The development embeds the functions of [nodes.py] and proves the
    properties its specification states about them.

    Modelling conventions.
    - Tensor elements and Python floats are real numbers ([R]).  On the
      predictions the arithmetic is exact, so IEEE rounding is outside the
      model there.  The guidance schedule, whose values are read back by
      the caller, is computed with its roundings: to binary32 on the tensor
      [torch.linspace] builds, to binary64 on Python floats.  The special
      values (infinities, NaN) are outside the model.  A dtype tag is kept
      on every tensor so that [.double()] and [.to(dtype)] can be followed.
    - A tensor is its dtype, its shape and its elements in row-major order,
      as a strided contiguous torch tensor stores them.
    - Python exceptions are the [Err] results of an error monad.
    - The functions of kornia ([build_laplacian_pyramid], [pyrup]), the
      cosine of torch on float32 and the builtin [float] are parameters of
      the functions that call them. *)

From Stdlib Require Import Reals Lra Lia ZArith Bool String Ascii PeanoNat List.
Import ListNotations.

(** ** Python exceptions as results *)

Inductive py_error : Type :=
| ShapeMismatch      (* RuntimeError: sizes of tensors must match *)
| IndexError         (* index or dimension out of range *)
| ValueError (msg : string)
| LibraryError.      (* an error raised inside kornia or torch *)

Inductive result (A : Type) : Type :=
| Ok  (a : A)
| Err (e : py_error).

Arguments Ok {A} a.
Arguments Err {A} e.

Definition bind {A B : Type} (r : result A) (k : A -> result B) : result B :=
  match r with
  | Ok a  => k a
  | Err e => Err e
  end.

Declare Scope py_scope.
Delimit Scope py_scope with py.
Notation "x <- r ;; k" := (bind r (fun x => k))
  (at level 61, r at next level, right associativity) : py_scope.
Notation "' p <- r ;; k" := (bind r (fun x => let p := x in k))
  (at level 61, p pattern, r at next level, right associativity) : py_scope.

Open Scope R_scope.
Open Scope py_scope.

(** ** Tensors *)

Inductive dtype_t : Type := Float16 | BFloat16 | Float32 | Float64.

(** torch's type promotion between two floating tensors. *)
Definition promote (a b : dtype_t) : dtype_t :=
  match a, b with
  | Float64, _ | _, Float64 => Float64
  | Float32, _ | _, Float32 => Float32
  | Float16, Float16 => Float16
  | BFloat16, BFloat16 => BFloat16
  | _, _ => Float32
  end.

Record tensor : Type := mkTensor {
  dtype : dtype_t;
  shape : list nat;
  data  : list R
}.

Definition numel (s : list nat) : nat := fold_right Nat.mul 1%nat s.

(** A tensor is well formed when it holds one element per index. *)
Definition wf (t : tensor) : Prop := length (data t) = numel (shape t).

Definition to_dtype (d : dtype_t) (t : tensor) : tensor :=
  mkTensor d (shape t) (data t).

Definition double (t : tensor) : tensor := to_dtype Float64 t.

(** [k] consecutive blocks of [n] elements. *)
Fixpoint chunks (k n : nat) (l : list R) : list (list R) :=
  match k with
  | O => []
  | S k' => firstn n l :: chunks k' n (skipn n l)
  end.

Fixpoint map2 {A B C : Type} (f : A -> B -> C) (l1 : list A) (l2 : list B)
  : list C :=
  match l1, l2 with
  | a :: l1', b :: l2' => f a b :: map2 f l1' l2'
  | _, _ => []
  end.

(** *** Broadcasting *)

(** Two axes are compatible when they are equal or one of them is 1. *)
Definition broadcast_dim (a b : nat) : option nat :=
  if (a =? b)%nat then Some a
  else if (a =? 1)%nat then Some b
  else if (b =? 1)%nat then Some a
  else None.

(** Shapes are compared from the last axis; the lists here are reversed. *)
Fixpoint broadcast_rev (r1 r2 : list nat) : option (list nat) :=
  match r1, r2 with
  | [], _ => Some r2
  | _, [] => Some r1
  | a :: r1', b :: r2' =>
      match broadcast_dim a b, broadcast_rev r1' r2' with
      | Some d, Some r => Some (d :: r)
      | _, _ => None
      end
  end.

Definition broadcast_shapes (s1 s2 : list nat) : option (list nat) :=
  option_map (@rev nat) (broadcast_rev (rev s1) (rev s2)).

(** A shape extended on the left with axes of size 1 up to rank [n]. *)
Definition pad_shape (n : nat) (s : list nat) : list nat :=
  repeat 1%nat (n - length s) ++ s.

(** Elements of a tensor of shape [sf] expanded to shape [st] (same rank,
    every axis of [sf] equal to that of [st] or of size 1). *)
Fixpoint expand_aligned (sf st : list nat) (d : list R) : list R :=
  match sf, st with
  | a :: sf', b :: st' =>
      let parts := map (expand_aligned sf' st') (chunks a (numel sf') d) in
      if (a =? b)%nat then concat parts
      else concat (repeat (concat parts) b)
  | _, _ => d
  end.

Definition expand_to (s : list nat) (t : tensor) : list R :=
  expand_aligned (pad_shape (length s) (shape t)) s (data t).

(** An elementwise binary operator of torch, with broadcasting. *)
Definition binop (f : R -> R -> R) (a b : tensor) : result tensor :=
  match broadcast_shapes (shape a) (shape b) with
  | None => Err ShapeMismatch
  | Some s =>
      Ok (mkTensor (promote (dtype a) (dtype b)) s
                   (map2 f (expand_to s a) (expand_to s b)))
  end.

Definition tadd : tensor -> tensor -> result tensor := binop Rplus.
Definition tsub : tensor -> tensor -> result tensor := binop Rminus.
Definition tmul : tensor -> tensor -> result tensor := binop Rmult.

(** A Python float times a tensor, and a tensor times a Python float: the
    tensor keeps its dtype. *)
Definition smul (c : R) (t : tensor) : tensor :=
  mkTensor (dtype t) (shape t) (map (Rmult c) (data t)).
Definition muls (t : tensor) (c : R) : tensor :=
  mkTensor (dtype t) (shape t) (map (fun x => x * c) (data t)).

(** *** Reductions over the last three axes *)

Definition Rsum (l : list R) : R := fold_right Rplus 0 l.

(** The shape split into its leading axes and its last [n] axes. *)
Definition lead_axes (n : nat) (s : list nat) : list nat :=
  firstn (length s - n) s.
Definition last_axes (n : nat) (s : list nat) : list nat :=
  skipn (length s - n) s.

(** The elements of each batch entry: one block per index of the leading
    axes, holding the channel, height and width axes. *)
Definition entries (t : tensor) : list (list R) :=
  chunks (numel (lead_axes 3 (shape t))) (numel (last_axes 3 (shape t)))
         (data t).

Definition dot (u v : list R) : R := Rsum (map2 Rmult u v).
Definition norm2 (u : list R) : R := sqrt (dot u u).

(** [t.sum(dim=[-1,-2,-3], keepdim=True)]: fails on a tensor of rank below
    three. *)
Definition sum_chw (t : tensor) : result tensor :=
  if (length (shape t) <? 3)%nat then Err IndexError
  else Ok (mkTensor (dtype t) (lead_axes 3 (shape t) ++ [1; 1; 1]%nat)
                    (map Rsum (entries t))).

(** The default [eps] of [torch.nn.functional.normalize]. *)
Definition normalize_eps : R := / 1000000000000.

(** One batch entry divided by [max(norm, eps)], its 2-norm clamped from
    below. *)
Definition normalized (e : list R) : list R :=
  map (fun x => x / Rmax (norm2 e) normalize_eps) e.

(** [torch.nn.functional.normalize(t, dim=[-1,-2,-3])]: fails on a tensor
    of rank below three. *)
Definition normalize_chw (t : tensor) : result tensor :=
  if (length (shape t) <? 3)%nat then Err IndexError
  else Ok (mkTensor (dtype t) (shape t)
                    (concat (map normalized (entries t)))).

(** ** [project] *)

Definition project (v0 v1 : tensor) : result (tensor * tensor) :=
  let dt := dtype v0 in
  let v0 := double v0 in
  let v1 := double v1 in
  v1 <- normalize_chw v1 ;;
  p <- tmul v0 v1 ;;
  s <- sum_chw p ;;
  v0_parallel <- tmul s v1 ;;
  v0_orthogonal <- tsub v0 v0_parallel ;;
  Ok (to_dtype dt v0_parallel, to_dtype dt v0_orthogonal).

(** ** Pyramid reconstruction and the guidance mixer

    [pyrup] and [build_laplacian_pyramid] belong to kornia; the functions
    of this section take them as parameters. *)

(** [t[..., :h, :w]]: the last two axes cut to their first [h] rows and
    [w] columns. *)
Definition crop_hw (h w : nat) (t : tensor) : result tensor :=
  match rev (shape t) with
  | W :: H :: rlead =>
      let lead := rev rlead in
      Ok (mkTensor (dtype t) (lead ++ [Nat.min h H; Nat.min w W])
            (concat (map (fun m =>
                            concat (map (firstn w) (firstn h (chunks H W m))))
                         (chunks (numel lead) (H * W) (data t)))))
  | _ => Err IndexError
  end.

(** [(original_size[0] // 2 ** idx, original_size[1] // 2 ** idx)] where
    [original_size] is [shape[-2:]]. *)
Definition level_size (original_size : list nat) (idx : nat)
  : result (nat * nat) :=
  match original_size with
  | [H; W] => Ok ((H / 2 ^ idx)%nat, (W / 2 ^ idx)%nat)
  | _ => Err IndexError
  end.

Section Kornia.

Variable pyrup : tensor -> result tensor.
Variable build_laplacian_pyramid : tensor -> nat -> result (list tensor).

(** One round of the reconstruction loop:
    [img = pyrup(img) + pyramid[i]]. *)
Definition pyramid_step (img : result tensor) (level : tensor)
  : result tensor :=
  img <- img ;;
  up <- pyrup img ;;
  tadd up level.

Definition build_image_from_pyramid (pyramid : list tensor)
  : result tensor :=
  match rev pyramid with
  | [] => Err IndexError
  | coarsest :: finer => fold_left pyramid_step finer (Ok coarsest)
  end.

(** The body of the loop of [laplacian_guidance] at level [idx]. *)
Definition guided_level (original_size : list nat) (idx : nat)
           (p_cond p_uncond : tensor) (scale par_weight : R)
  : result tensor :=
  ' (h, w) <- level_size original_size idx ;;
  p_cond <- crop_hw h w p_cond ;;
  p_uncond <- crop_hw h w p_uncond ;;
  diff <- tsub p_cond p_uncond ;;
  ' (diff_parallel, diff_orthogonal) <- project diff p_cond ;;
  diff <- tadd (smul par_weight diff_parallel) diff_orthogonal ;;
  tadd p_cond (smul (scale - 1) diff).

(** The loop over [enumerate(zip(...))]: it ends with the shortest of the
    four sequences. *)
Fixpoint guided_pyramid (original_size : list nat) (idx : nat)
         (cond_pyramid uncond_pyramid : list tensor)
         (guidance_scale parallel_weights : list R)
  : result (list tensor) :=
  match cond_pyramid, uncond_pyramid, guidance_scale, parallel_weights with
  | p_cond :: cs, p_uncond :: us, scale :: gs, par_weight :: ws =>
      p_guided <- guided_level original_size idx p_cond p_uncond
                               scale par_weight ;;
      rest <- guided_pyramid original_size (S idx) cs us gs ws ;;
      Ok (p_guided :: rest)
  | _, _, _, _ => Ok []
  end.

Definition laplacian_guidance (pred_cond pred_uncond : tensor)
           (guidance_scale : list R) (parallel_weights : option (list R))
  : result tensor :=
  let levels := length guidance_scale in
  let parallel_weights :=
    match parallel_weights with
    | None => repeat 1 levels
    | Some ws => ws
    end in
  let original_size := last_axes 2 (shape pred_cond) in
  pred_cond_pyramid <- build_laplacian_pyramid pred_cond levels ;;
  pred_uncond_pyramid <- build_laplacian_pyramid pred_uncond levels ;;
  pred_guided_pyramid <-
    guided_pyramid original_size 0 pred_cond_pyramid pred_uncond_pyramid
                   guidance_scale parallel_weights ;;
  pred_guided <- build_image_from_pyramid pred_guided_pyramid ;;
  Ok (to_dtype (dtype pred_cond) pred_guided).

End Kornia.

(** ** Floating-point numbers

    A Python float is a binary64 number and the elements of the schedule
    tensor are binary32 numbers ([torch.linspace] builds a tensor of the
    default dtype, [torch.float32]).  Both are modelled by the reals they
    denote; an operation rounds its exact result to the nearest number of
    its format, ties to the even significand.  Overflow to infinity is not
    modelled: beyond the largest binade a result is rounded with the
    quantum of that binade. *)

Definition pow2 (e : Z) : R := powerRZ 2 e.

(** The nearest integer, ties to the even one. *)
Definition round_half_even (x : R) : Z :=
  let n := Int_part x in
  let d := x - IZR n in
  if Rlt_dec d (1 / 2) then n
  else if Rlt_dec (1 / 2) d then (n + 1)%Z
  else if Z.even n then n else (n + 1)%Z.

(** The largest exponent [e' <= e] with [2 ^ e' <= a], looked for over
    [fuel] binades below [e]; the lowest of them when there is none. *)
Fixpoint binade (fuel : nat) (e : Z) (a : R) : Z :=
  match fuel with
  | O => e
  | S fuel' => if Rle_dec (pow2 e) a then e else binade fuel' (e - 1) a
  end.

(** The exponent of [x] in a format whose normal numbers have the
    exponents [emin .. emax] (subnormal numbers take [emin]), and the
    spacing of the numbers of the format with [prec] significant bits
    around [x]. *)
Definition exponent (emin emax : Z) (x : R) : Z :=
  binade (Z.to_nat (emax - emin)) emax (Rabs x).

Definition quantum (prec emin emax : Z) (x : R) : R :=
  pow2 (exponent emin emax x - prec + 1).

Definition round_float (prec emin emax : Z) (x : R) : R :=
  IZR (round_half_even (x / quantum prec emin emax x))
  * quantum prec emin emax x.

(** Rounding to binary32 and to binary64. *)
Definition f32 : R -> R := round_float 24 (-126) 127.
Definition f64 : R -> R := round_float 53 (-1022) 1023.

(** ** [create_guidance_scales] *)

(** The element of index [idx] of [torch.linspace(a, b, steps)] for
    [steps >= 2], as the kernel of torch computes it in float32 (the
    default dtype): [start] and [end] are the two scalars converted to
    float32, [step = (end - start) / (steps - 1)], and the element is
    [start + step * idx] for [idx < steps / 2] and
    [end - step * (steps - idx - 1)] from there on, every operation
    rounding to float32 (an integer operand is converted first). *)
Definition linspace_point (a b : R) (steps : Z) (idx : nat) : R :=
  let start := f32 a in
  let stop := f32 b in
  let step := f32 (f32 (stop - start) / f32 (IZR (steps - 1))) in
  let halfway := (steps / 2)%Z in
  if (Z.of_nat idx <? halfway)%Z then
    f32 (start + f32 (step * f32 (INR idx)))
  else
    f32 (stop - f32 (step * f32 (IZR (steps - Z.of_nat idx - 1)))).

(** [torch.linspace(a, b, steps).tolist()]. *)
Definition linspace (a b : R) (steps : Z) : result (list R) :=
  if (steps <? 0)%Z then Err LibraryError
  else if (steps =? 1)%Z then Ok [f32 a]
  else Ok (map (linspace_point a b steps) (seq 0 (Z.to_nat steps))).

(** [math.pi]. *)
Definition math_pi : R := f64 PI.

(** [low_scale + (high_scale - low_scale) * 0.5 * (1 + torch.cos(t *
    math.pi))] on one element [t] of the float32 tensor: the scalar factor
    is computed on Python floats, every operation with the tensor rounds
    the scalar and the result to float32.  [torch_cos] is the cosine of
    torch on float32. *)
Definition cosine_point (torch_cos : R -> R) (high_scale low_scale t : R)
  : R :=
  let half_range := f64 (f64 (high_scale - low_scale) * (5 / 10)) in
  let angle := f32 (t * f32 math_pi) in
  let ease := f32 (1 + torch_cos angle) in
  f32 (f32 low_scale + f32 (f32 half_range * ease)).

Definition create_guidance_scales (torch_cos : R -> R)
           (high_scale low_scale : R) (levels : Z) (method : string)
  : result (list R) :=
  if (levels =? 1)%Z then Ok [high_scale]
  else if String.eqb method "linear" then
    linspace high_scale low_scale levels
  else if String.eqb method "cosine" then
    t <- linspace 0 1 levels ;;
    Ok (map (cosine_point torch_cos high_scale low_scale) t)
  else Err (ValueError ("Unknown interpolation method: " ++ method)).

(** ** [FDGNode.patch] and its sampler callback *)

(** [math.isclose(a, b)] with its default tolerances
    ([rel_tol = 1e-09], [abs_tol = 0.0]). *)
Definition isclose (a b : R) : bool :=
  if Rle_dec (Rabs (a - b))
             (Rmax (/ 1000000000 * Rmax (Rabs a) (Rabs b)) 0)
  then true else false.

(** [l[i]] with Python's negative indices. *)
Definition py_index {A : Type} (l : list A) (i : Z) : result A :=
  let n := Z.of_nat (length l) in
  let j := if (i <? 0)%Z then (n + i)%Z else i in
  if ((0 <=? j) && (j <? n))%Z then
    match nth_error l (Z.to_nat j) with
    | Some x => Ok x
    | None => Err IndexError
    end
  else Err IndexError.

(** [l[:n]] with Python's negative bounds. *)
Definition py_slice_to {A : Type} (l : list A) (n : Z) : list A :=
  if (n <? 0)%Z then firstn (Z.to_nat (Z.of_nat (length l) + n)) l
  else firstn (Z.to_nat n) l.

(** [[x] * n]: empty when [n] is not positive. *)
Definition py_repeat {A : Type} (x : A) (n : Z) : list A :=
  repeat x (Z.to_nat n).

(** [s.split(sep)] for a one-character separator. *)
Fixpoint split_on (sep : ascii) (s : string) : list string :=
  match s with
  | EmptyString => [EmptyString]
  | String c s' =>
      if Ascii.eqb c sep then EmptyString :: split_on sep s'
      else match split_on sep s' with
           | w :: ws => String c w :: ws
           | [] => [String c EmptyString]
           end
  end.

(** The ASCII characters [str.strip] removes. *)
Definition is_space (c : ascii) : bool :=
  let n := nat_of_ascii c in
  ((9 <=? n) && (n <=? 13) || (28 <=? n) && (n <=? 32))%nat.

Fixpoint lstrip (s : string) : string :=
  match s with
  | String c s' => if is_space c then lstrip s' else s
  | EmptyString => EmptyString
  end.

Fixpoint rstrip (s : string) : string :=
  match s with
  | String c s' =>
      match rstrip s' with
      | EmptyString => if is_space c then EmptyString
                       else String c EmptyString
      | r => String c r
      end
  | EmptyString => EmptyString
  end.

Definition strip (s : string) : string := rstrip (lstrip s).

(** Every element converted, or [None] when one conversion raises. *)
Fixpoint traverse {A B : Type} (f : A -> option B) (l : list A)
  : option (list B) :=
  match l with
  | [] => Some []
  | a :: l' =>
      match f a with
      | None => None
      | Some b => option_map (cons b) (traverse f l')
      end
  end.

Record fdg_args : Type := mkArgs {
  cond : tensor;
  uncond : option tensor;
  cond_scale : R;
  sample_sigmas : list R;
  sigma : R
}.

Section Patch.

Variable torch_cos : R -> R.
Variable pyrup : tensor -> result tensor.
Variable build_laplacian_pyramid : tensor -> nat -> result (list tensor).
(** Python's [float] on a string: [None] when it raises [ValueError]. *)
Variable py_float : string -> option R.

(** The [try] block: [[float(w.strip()) for w in text.split(',')]]. *)
Definition parse_floats (text : string) : option (list R) :=
  traverse (fun w => py_float (strip w)) (split_on "," text).

(** The parsing and length adjustment of [parallel_weights] in [patch]. *)
Definition parse_parallel_weights (text : string) (levels : Z) : list R :=
  let parallel_weights_list :=
    match parse_floats text with
    | Some ws => ws
    | None => py_repeat 1 levels
    end in
  let n := Z.of_nat (length parallel_weights_list) in
  if (n <? levels)%Z then
    parallel_weights_list ++ py_repeat 1 (levels - n)
  else if (n >? levels)%Z then py_slice_to parallel_weights_list levels
  else parallel_weights_list.

(** The closure [fdg_function], with the variables it captures from
    [patch] as its first arguments. *)
Definition fdg_function (guidance_scale_high : R) (fdg_steps : Z)
           (guidance_scale parallel_weights_list : list R)
           (args : fdg_args) : result tensor :=
  let cond_scale :=
    if isclose (cond_scale args) 1 then guidance_scale_high
    else cond_scale args in
  match uncond args with
  | Some uncond =>
      let len := Z.of_nat (length (sample_sigmas args)) in
      let step_limits :=
        if (fdg_steps >=? len - 1)%Z then (len - 1)%Z else fdg_steps in
      limit <- py_index (sample_sigmas args) step_limits ;;
      if Rgt_dec (sigma args) limit then
        laplacian_guidance pyrup build_laplacian_pyramid
          (cond args) uncond guidance_scale (Some parallel_weights_list)
      else
        d <- tsub (cond args) uncond ;;
        tadd uncond (muls d cond_scale)
  | None => Ok (cond args)
  end.

(** [patch]: the callback it installs on the cloned model. *)
Definition patch (guidance_scale_high guidance_scale_low : R)
           (levels fdg_steps : Z) (interpolation_method : string)
           (parallel_weights : string)
  : result (fdg_args -> result tensor) :=
  guidance_scale <- create_guidance_scales torch_cos guidance_scale_high
                      guidance_scale_low levels interpolation_method ;;
  let parallel_weights_list :=
    parse_parallel_weights parallel_weights levels in
  Ok (fdg_function guidance_scale_high fdg_steps guidance_scale
                   parallel_weights_list).

End Patch.

(** ** Vocabulary of the specification *)

(** A batch entry scaled to unit norm, the normalized [v1] of the
    specification. *)
Definition unit_vector (e : list R) : list R :=
  map (fun x => x / norm2 e) e.

(** The projection of one batch entry on another: the inner product with
    the unit vector, times the unit vector. *)
Definition projection (e0 e1 : list R) : list R :=
  map (Rmult (dot e0 (unit_vector e1))) (unit_vector e1).

(** What [project] computes on one batch entry. *)
Definition entry_parallel (e0 e1 : list R) : list R :=
  map (Rmult (dot e0 (normalized e1))) (normalized e1).
Definition entry_orthogonal (e0 e1 : list R) : list R :=
  map2 Rminus e0 (entry_parallel e0 e1).

(** A batch entry that is not the zero vector. *)
Definition nonzero_entry (e : list R) : Prop := Exists (fun x => x <> 0) e.

(** [project v0 v1] succeeds with a parallel and an orthogonal part that add
    up to [v0], the parallel part being, in every batch entry, the
    projection on the unit vector of [v1], and the orthogonal part having a
    zero inner product with [v1]. *)
Definition decomposes (v0 v1 : tensor) : Prop :=
  exists par orth,
    project v0 v1 = Ok (par, orth)
    /\ tadd par orth = Ok v0
    /\ entries par = map2 projection (entries v0) (entries v1)
    /\ Forall2 (fun eo e1 => dot eo e1 = 0) (entries orth) (entries v1).

(** A one-element reference tensor below the clamp of [normalize]. *)
Definition tiny_v0 : tensor := mkTensor Float32 [1; 1; 1]%nat [1].
Definition tiny_v1 : tensor :=
  mkTensor Float32 [1; 1; 1]%nat [/ 10000000000000].

(** The first [n] levels of a pyramid, each cropped to the size of its
    level as the loop of [laplacian_guidance] crops it. *)
Fixpoint cropped_pyramid (original_size : list nat) (idx : nat)
         (pyramid : list tensor) (n : nat) : result (list tensor) :=
  match pyramid, n with
  | p :: ps, S n' =>
      ' (h, w) <- level_size original_size idx ;;
      p <- crop_hw h w p ;;
      rest <- cropped_pyramid original_size (S idx) ps n' ;;
      Ok (p :: rest)
  | _, _ => Ok []
  end.

(** ** A reference pyramid

    A Laplacian pyramid with the simplest kernels, nearest-neighbour
    upsampling and decimation, on which the functions above can be run. *)

Fixpoint evens {A : Type} (l : list A) : list A :=
  match l with
  | x :: _ :: l' => x :: evens l'
  | _ => l
  end.

Definition twice {A : Type} (l : list A) : list A :=
  flat_map (fun x => [x; x]) l.

(** The same function on every [h * w] image of a tensor of shape
    [[b; c; h; w]], giving images of [size h * size w]. *)
Definition on_images (f : list (list R) -> list (list R))
           (size : nat -> nat) (t : tensor) : result tensor :=
  match shape t with
  | [b; c; h; w] =>
      if ((0 <? h) && (0 <? w))%nat then
        Ok (mkTensor (dtype t) [b; c; size h; size w]
              (concat (map (fun m => concat (f (chunks h w m)))
                           (chunks (b * c) (h * w) (data t)))))
      else Err LibraryError
  | _ => Err LibraryError
  end.

Definition ref_pyrup : tensor -> result tensor :=
  on_images (fun rows => twice (map (@twice R) rows))
            (fun n => (2 * n)%nat).

Definition ref_pyrdown : tensor -> result tensor :=
  on_images (fun rows => evens (map (@evens R) rows))
            (fun n => ((n + 1) / 2)%nat).

(** The residual levels followed by the coarsest image. *)
Fixpoint ref_laplacian_levels (g : tensor) (n : nat) : result (list tensor) :=
  match n with
  | O => Ok []
  | S O => Ok [g]
  | S n' =>
      g' <- ref_pyrdown g ;;
      up <- ref_pyrup g' ;;
      l <- tsub g up ;;
      rest <- ref_laplacian_levels g' n' ;;
      Ok (l :: rest)
  end.

Definition ref_build_laplacian_pyramid (t : tensor) (levels : nat)
  : result (list tensor) :=
  match shape t with
  | [_; _; _; _] => ref_laplacian_levels t levels
  | _ => Err LibraryError
  end.

(** What kornia's [pyrup] guarantees about shapes: it accepts images of a
    positive size in a tensor of shape [[b; c; h; w]] and doubles their
    height and width. *)
Definition pyrup_contract (pyrup : tensor -> result tensor) : Prop :=
  forall x y,
    pyrup x = Ok y ->
    exists b c h w,
      shape x = [b; c; h; w] /\ (0 < h)%nat /\ (0 < w)%nat
      /\ shape y = [b; c; 2 * h; 2 * w]%nat.

(** A pyramid level at least as large as the size the loop crops it to,
    and a level of exactly that size. *)
Definition covers_level (b c H W idx : nat) (t : tensor) : Prop :=
  exists h w,
    shape t = [b; c; h; w]
    /\ (H / 2 ^ idx <= h)%nat /\ (W / 2 ^ idx <= w)%nat.

Definition exact_level (b c H W idx : nat) (t : tensor) : Prop :=
  shape t = [b; c; H / 2 ^ idx; W / 2 ^ idx]%nat.

Fixpoint levels_from (P : nat -> tensor -> Prop) (idx : nat)
         (pyramid : list tensor) : Prop :=
  match pyramid with
  | [] => True
  | t :: ts => P idx t /\ levels_from P (S idx) ts
  end.

(** [pyrup] accepts every tensor of shape [[b; c; h; w]] whose images have
    a positive size. *)
Definition pyrup_total (pyrup : tensor -> result tensor) : Prop :=
  forall x b c h w,
    shape x = [b; c; h; w] -> (0 < h)%nat -> (0 < w)%nat ->
    exists y, pyrup x = Ok y.

(** ** The step gate, as the specification words it *)

Inductive gate_state : Type := FullGuidance | FallbackBlend | Passthrough.

(** The state is decided by the current sigma, the sigma schedule and the
    availability of the unconditional prediction: with the step limit
    clamped to at most [S - 1], full guidance exactly when the current
    sigma is strictly greater than the sigma at that index. *)
Definition step_gate (sigmas : list R) (step_limit : Z) (current : R)
           (uncond_available : bool) : option gate_state :=
  if uncond_available then
    let clamped := Z.min step_limit (Z.of_nat (length sigmas) - 1) in
    match nth_error sigmas (Z.to_nat clamped) with
    | Some threshold =>
        Some (if Rgt_dec current threshold then FullGuidance
              else FallbackBlend)
    | None => None
    end
  else Some Passthrough.

(** The scale of the fallback blend: the configured high scale when the
    nominal scale is close to 1. *)
Definition blend_scale (guidance_scale_high nominal : R) : R :=
  if isclose nominal 1 then guidance_scale_high else nominal.

(** A level of the two pyramids on which the loop body cannot fail. *)
Definition paired_level (c u : tensor) : Prop :=
  shape c = shape u /\ dtype u = dtype c /\ wf c /\ wf u
  /\ (3 <= length (shape c))%nat.

(** Two images of 2 x 2 on which the reference pyramid is run. *)
Definition demo_cond : tensor :=
  mkTensor Float32 [1; 1; 2; 2]%nat [1; 2; 3; 4].
Definition demo_uncond : tensor :=
  mkTensor Float32 [1; 1; 2; 2]%nat [0; 1; 0; 1].


(** A stand-in for Python's [float] on plain decimal literals: an optional
    sign, digits, and an optional fraction. *)
Definition digit_of (c : ascii) : option Z :=
  let n := nat_of_ascii c in
  if ((48 <=? n) && (n <=? 57))%nat then Some (Z.of_nat (n - 48)) else None.

Fixpoint decimal_digits (s : string) (mantissa scale : Z)
         (seen_dot seen_digit : bool) : option (Z * Z) :=
  match s with
  | EmptyString => if seen_digit then Some (mantissa, scale) else None
  | String c s' =>
      if Ascii.eqb c "." then
        if seen_dot then None
        else decimal_digits s' mantissa scale true seen_digit
      else
        match digit_of c with
        | Some d =>
            decimal_digits s' (10 * mantissa + d)
                           (if seen_dot then 10 * scale else scale)%Z
                           seen_dot true
        | None => None
        end
  end.

Definition decimal_float (s : string) : option R :=
  let unsigned t :=
    option_map (fun mk => IZR (fst mk) / IZR (snd mk))
               (decimal_digits t 0 1 false false) in
  match strip s with
  | String "-" t => option_map Ropp (unsigned t)
  | String "+" t => unsigned t
  | t => unsigned t
  end.

(** Two tensors of different shapes that [project] accepts. *)
Definition pair_v0 : tensor := mkTensor Float32 [2; 1; 1; 1]%nat [1; 2].
Definition pair_v1 : tensor := mkTensor Float32 [1; 1; 1; 1]%nat [3].

(** ** Vocabulary of the schedule *)

(** [z] is the integer nearest to [x], the even one of the two on a tie. *)
Definition nearest_even (x : R) (z : Z) : Prop :=
  Rabs (x - IZR z) < 1 / 2
  \/ (Rabs (x - IZR z) = 1 / 2 /\ Z.even z = true).

(** [math.pi] as the float32 operand of [t * math.pi], and the scalar
    factor [(high_scale - low_scale) * 0.5] as the float32 operand of its
    product with the tensor. *)
Definition pi32 : R := f32 math_pi.
Definition half_range32 (high_scale low_scale : R) : R :=
  f32 (f64 (f64 (high_scale - low_scale) * (5 / 10))).

(** A function that never increases over [[a, b]]. *)
Definition non_increasing_on (f : R -> R) (a b : R) : Prop :=
  forall x y, a <= x -> x <= y -> y <= b -> f y <= f x.

(** A float32 cosine: the cosine of the reals, correctly rounded. *)
Definition rounded_cos (x : R) : R := f32 (cos x).

(** The Python float that the literal [7.6] denotes, and the float next
    above [1.0] by [2 ** -30]. *)
Definition double_7_6 : R := 8556839292003942 / 1125899906842624.


(** ** Vocabulary of the further properties *)

(** The methods [create_guidance_scales] knows. *)
Definition known_method (method : string) : Prop :=
  method = "linear"%string \/ method = "cosine"%string.

(** The norm as [normalize] uses it, clamped from below by [eps], and what
    [project] computes with it on one batch entry: [e1] scaled by the inner
    product over the squared clamped norm. *)
Definition clamped_norm (e : list R) : R := Rmax (norm2 e) normalize_eps.
Definition clamped_projection (e0 e1 : list R) : list R :=
  map (Rmult (dot e0 e1 / (clamped_norm e1 * clamped_norm e1))) e1.

(** [torch.zeros_like(t)]. *)
Definition zeros_like (t : tensor) : tensor :=
  mkTensor (dtype t) (shape t) (repeat 0 (numel (shape t))).

(** Two batch entries and a reference whose entries have norms 5 and 1. *)
Definition vec_v0 : tensor := mkTensor Float32 [2; 1; 1; 2]%nat [1; 2; 3; 4].
Definition vec_v1 : tensor := mkTensor Float32 [2; 1; 1; 2]%nat [3; 4; 1; 0].

(** Classifier-free guidance of one level at one scale:
    [uncond + scale * (cond - uncond)], element by element. *)
Definition cfg_level (scale : R) (c u : tensor) : tensor :=
  mkTensor (dtype c) (shape c)
           (map2 (fun x y => y + scale * (x - y)) (data c) (data u)).

(** The pyramid of the levels cropped and guided by [cfg_level], as far as
    the two pyramids and the scales reach. *)
Fixpoint cfg_pyramid (original_size : list nat) (idx : nat)
         (cond_pyramid uncond_pyramid : list tensor) (guidance_scale : list R)
  : result (list tensor) :=
  match cond_pyramid, uncond_pyramid, guidance_scale with
  | p_cond :: cs, p_uncond :: us, scale :: gs =>
      ' (h, w) <- level_size original_size idx ;;
      c <- crop_hw h w p_cond ;;
      u <- crop_hw h w p_uncond ;;
      rest <- cfg_pyramid original_size (S idx) cs us gs ;;
      Ok (cfg_level scale c u :: rest)
  | _, _, _ => Ok []
  end.

(** A Laplacian pyramid of the Gaussian levels [gaussian] for the upsampling
    [pyrup]: every level but the last is a level minus the upsampled next
    one, of its shape and dtype, and the last is the coarsest level. *)
Fixpoint laplacian_of (pyrup : tensor -> result tensor)
         (gaussian pyramid : list tensor) : Prop :=
  match gaussian, pyramid with
  | [g], [l] => l = g
  | g :: (g' :: _) as coarser, l :: ls =>
      (exists up,
          pyrup g' = Ok up
          /\ shape up = shape g /\ dtype up = dtype g
          /\ wf up /\ wf g
          /\ tsub g up = Ok l)
      /\ laplacian_of pyrup coarser ls
  | _, _ => False
  end.

(** A sigma schedule that never increases, and one that always
    decreases. *)
Definition non_increasing (l : list R) : Prop :=
  forall i j x y,
    (i <= j)%nat -> nth_error l i = Some x -> nth_error l j = Some y ->
    y <= x.
Definition strictly_decreasing (l : list R) : Prop :=
  forall i j x y,
    (i < j)%nat -> nth_error l i = Some x -> nth_error l j = Some y ->
    y < x.

(** The fallback branch of [fdg_function]:
    [uncond + (cond - uncond) * cond_scale]. *)
Definition fallback_blend (c u : tensor) (scale : R) : result tensor :=
  d <- tsub c u ;; tadd u (muls d scale).

(** * Properties *)

(** ** Floating-point rounding *)

(** *** Powers of two *)

Lemma pow2_pos (e : Z) : 0 < pow2 e.
Proof. apply powerRZ_lt. lra. Qed.

Lemma pow2_add (a b : Z) : pow2 (a + b) = pow2 a * pow2 b.
Proof. apply powerRZ_add. lra. Qed.

Lemma pow2_0 : pow2 0 = 1.
Proof. reflexivity. Qed.

Lemma pow2_1 : pow2 1 = 2.
Proof. unfold pow2. simpl. lra. Qed.

Lemma pow2_succ (e : Z) : pow2 (e + 1) = 2 * pow2 e.
Proof. rewrite pow2_add, pow2_1. ring. Qed.

Lemma pow2_IZR (k : Z) : (0 <= k)%Z -> pow2 k = IZR (2 ^ k).
Proof.
  intros Hk. pattern k. apply natlike_ind; [reflexivity| |exact Hk].
  intros x Hx IH. unfold Z.succ. rewrite pow2_succ, IH.
  rewrite Z.pow_add_r by lia. rewrite <- mult_IZR. f_equal. lia.
Qed.

Lemma pow2_ge_1 (k : Z) : (0 <= k)%Z -> 1 <= pow2 k.
Proof.
  intros Hk. rewrite pow2_IZR by assumption.
  apply IZR_le. pose proof (Z.pow_pos_nonneg 2 k). lia.
Qed.

Lemma pow2_le (a b : Z) : (a <= b)%Z -> pow2 a <= pow2 b.
Proof.
  intros H. replace b with (a + (b - a))%Z by lia. rewrite pow2_add.
  pose proof (pow2_pos a). pose proof (pow2_ge_1 (b - a) ltac:(lia)). nra.
Qed.

Lemma pow2_lt (a b : Z) : (a < b)%Z -> pow2 a < pow2 b.
Proof.
  intros H. apply Rlt_le_trans with (pow2 (a + 1)).
  - rewrite pow2_succ. pose proof (pow2_pos a). lra.
  - apply pow2_le. lia.
Qed.

Lemma pow2_inv (a : Z) : pow2 a * pow2 (- a) = 1.
Proof.
  rewrite <- pow2_add. replace (a + - a)%Z with 0%Z by lia. reflexivity.
Qed.

(** *** Rounding to an integer *)

Lemma round_half_even_nearest (x : R) : nearest_even x (round_half_even x).
Proof.
  unfold round_half_even, nearest_even.
  destruct (base_Int_part x) as [H1 H2].
  set (n := Int_part x) in *.
  destruct (Rlt_dec (x - IZR n) (1 / 2)) as [Hlt|Hge].
  - left. rewrite Rabs_pos_eq; lra.
  - destruct (Rlt_dec (1 / 2) (x - IZR n)) as [Hgt|Hle].
    + left. rewrite plus_IZR. rewrite Rabs_left; lra.
    + assert (E : x - IZR n = 1 / 2) by lra.
      destruct (Z.even n) eqn:Ev.
      * right. split; [rewrite Rabs_pos_eq; lra|exact Ev].
      * right. split.
        -- rewrite plus_IZR. rewrite Rabs_left; lra.
        -- rewrite Z.even_add, Ev. reflexivity.
Qed.

Lemma Rabs_le_inv (a b : R) : Rabs a <= b -> - b <= a <= b.
Proof. unfold Rabs. destruct (Rcase_abs a); lra. Qed.

Lemma nearest_even_bound (x : R) (z : Z) :
  nearest_even x z -> Rabs (x - IZR z) <= 1 / 2.
Proof. intros [H|[H _]]; lra. Qed.

Lemma nearest_even_cases (x : R) (z : Z) :
  nearest_even x z ->
  - (1 / 2) < x - IZR z < 1 / 2
  \/ ((x - IZR z = 1 / 2 \/ x - IZR z = - (1 / 2)) /\ Z.even z = true).
Proof.
  intros [H|[H E]].
  - left. apply Rabs_def2 in H. lra.
  - right. split; [|exact E].
    unfold Rabs in H. destruct (Rcase_abs (x - IZR z)); lra.
Qed.

Lemma nearest_even_unique (x : R) (z1 z2 : Z) :
  nearest_even x z1 -> nearest_even x z2 -> z1 = z2.
Proof.
  intros H1 H2.
  apply nearest_even_cases in H1. apply nearest_even_cases in H2.
  assert (Hd : (z1 = z2 \/ z1 = z2 + 1 \/ z2 = z1 + 1 \/ z1 + 2 <= z2
                \/ z2 + 2 <= z1)%Z) by lia.
  destruct Hd as [E|[E|[E|[E|E]]]]; [exact E| | | |]; exfalso.
  - subst z1. rewrite plus_IZR in H1.
    destruct H1 as [H1|[H1 E1]], H2 as [H2|[H2 E2]]; try lra.
    rewrite Z.even_add, E2 in E1. discriminate.
  - subst z2. rewrite plus_IZR in H2.
    destruct H1 as [H1|[H1 E1]], H2 as [H2|[H2 E2]]; try lra.
    rewrite Z.even_add, E1 in E2. discriminate.
  - apply IZR_le in E. rewrite plus_IZR in E.
    destruct H1 as [H1|[H1 E1]], H2 as [H2|[H2 E2]]; lra.
  - apply IZR_le in E. rewrite plus_IZR in E.
    destruct H1 as [H1|[H1 E1]], H2 as [H2|[H2 E2]]; lra.
Qed.

Lemma round_half_even_spec (x : R) (z : Z) :
  nearest_even x z -> round_half_even x = z.
Proof.
  intros H.
  apply (nearest_even_unique x); [apply round_half_even_nearest|exact H].
Qed.

Lemma round_half_even_IZR (z : Z) : round_half_even (IZR z) = z.
Proof.
  apply round_half_even_spec. left.
  replace (IZR z - IZR z) with 0 by ring. rewrite Rabs_R0. lra.
Qed.

Lemma round_half_even_opp (x : R) :
  round_half_even (- x) = (- round_half_even x)%Z.
Proof.
  apply round_half_even_spec.
  destruct (round_half_even_nearest x) as [H|[H E]].
  - left. rewrite opp_IZR.
    replace (- x - - IZR (round_half_even x))
      with (- (x - IZR (round_half_even x))) by ring.
    now rewrite Rabs_Ropp.
  - right. rewrite opp_IZR.
    replace (- x - - IZR (round_half_even x))
      with (- (x - IZR (round_half_even x))) by ring.
    rewrite Rabs_Ropp. split; [exact H|]. now rewrite Z.even_opp.
Qed.

Lemma round_half_even_le (x y : R) :
  x <= y -> (round_half_even x <= round_half_even y)%Z.
Proof.
  intros Hxy.
  pose proof (round_half_even_nearest x) as Nx.
  pose proof (round_half_even_nearest y) as Ny.
  pose proof (nearest_even_bound _ _ Nx) as Bx.
  pose proof (nearest_even_bound _ _ Ny) as By.
  apply Rabs_le_inv in Bx. apply Rabs_le_inv in By.
  destruct (Z_le_gt_dec (round_half_even x) (round_half_even y)) as [H|H];
    [exact H|exfalso].
  assert (H1 : IZR (round_half_even y) + 1 <= IZR (round_half_even x)).
  { replace 1 with (IZR 1) by reflexivity. rewrite <- plus_IZR.
    apply IZR_le. lia. }
  assert (E : x = y) by lra.
  subst y. lia.
Qed.

(** *** Binades *)

Lemma binade_range (n : nat) (e : Z) (a : R) :
  (e - Z.of_nat n <= binade n e a <= e)%Z.
Proof.
  revert e; induction n as [|n IH]; intros e; simpl binade; [lia|].
  destruct (Rle_dec (pow2 e) a); [lia|].
  specialize (IH (e - 1)%Z). lia.
Qed.

Lemma binade_le (n : nat) (e : Z) (a : R) :
  (e - Z.of_nat n < binade n e a)%Z -> pow2 (binade n e a) <= a.
Proof.
  revert e; induction n as [|n IH]; intros e; simpl binade; [lia|].
  destruct (Rle_dec (pow2 e) a) as [H|H]; [auto|].
  intros Hb. apply IH. lia.
Qed.

Lemma binade_floor (n : nat) (e : Z) (a : R) :
  pow2 (e - Z.of_nat n) <= a -> pow2 (binade n e a) <= a.
Proof.
  intros H.
  destruct (Z.eq_dec (binade n e a) (e - Z.of_nat n)) as [E|N].
  - now rewrite E.
  - apply binade_le. pose proof (binade_range n e a). lia.
Qed.

Lemma binade_lt (n : nat) (e : Z) (a : R) :
  (binade n e a < e)%Z -> a < pow2 (binade n e a + 1).
Proof.
  revert e; induction n as [|n IH]; intros e; simpl binade; [lia|].
  destruct (Rle_dec (pow2 e) a) as [H|H]; [lia|].
  intros _.
  destruct (Z.eq_dec (binade n (e - 1) a) (e - 1)) as [E|N].
  - rewrite E. replace (e - 1 + 1)%Z with e by lia. lra.
  - apply IH. pose proof (binade_range n (e - 1) a). lia.
Qed.

Lemma binade_top (n : nat) (e : Z) (a : R) :
  pow2 e <= a -> binade n e a = e.
Proof.
  intros H. destruct n as [|n]; simpl; [reflexivity|].
  destruct (Rle_dec (pow2 e) a); [reflexivity|contradiction].
Qed.

Lemma binade_mono (n : nat) (e : Z) (a b : R) :
  a <= b -> (binade n e a <= binade n e b)%Z.
Proof.
  intros Hab.
  revert e; induction n as [|n IH]; intros e; simpl binade; [lia|].
  destruct (Rle_dec (pow2 e) a) as [Ha|Ha];
    destruct (Rle_dec (pow2 e) b) as [Hb|Hb]; try lia.
  - lra.
  - pose proof (binade_range n (e - 1) a). lia.
  - apply IH.
Qed.

Lemma binade_eq (n : nat) (e k : Z) (a : R) :
  (e - Z.of_nat n <= k <= e)%Z -> pow2 k <= a < pow2 (k + 1) ->
  binade n e a = k.
Proof.
  intros Hk [H1 H2].
  pose proof (binade_range n e a) as Hr.
  destruct (Z_lt_le_dec (binade n e a) k) as [Hlt|Hge].
  - exfalso. pose proof (binade_lt n e a ltac:(lia)) as H.
    assert (pow2 (binade n e a + 1) <= pow2 k) by (apply pow2_le; lia).
    lra.
  - destruct (Z.eq_dec (binade n e a) k) as [E|N]; [exact E|exfalso].
    pose proof (binade_le n e a ltac:(lia)) as H.
    assert (pow2 (k + 1) <= pow2 (binade n e a)) by (apply pow2_le; lia).
    lra.
Qed.

Lemma binade_bottom (n : nat) (e : Z) (a : R) :
  a < pow2 (e - Z.of_nat n + 1) -> binade n e a = (e - Z.of_nat n)%Z.
Proof.
  intros H. pose proof (binade_range n e a) as Hr.
  destruct (Z.eq_dec (binade n e a) (e - Z.of_nat n)) as [E|N];
    [exact E|exfalso].
  pose proof (binade_le n e a ltac:(lia)) as Hle.
  assert (pow2 (e - Z.of_nat n + 1) <= pow2 (binade n e a))
    by (apply pow2_le; lia).
  lra.
Qed.

(** *** Rounding to a format *)

Section Rounding.

Variables prec emin emax : Z.
Hypothesis prec_pos : (0 < prec)%Z.
Hypothesis range_ok : (emin <= emax)%Z.

Lemma round_float_unfold (x : R) :
  round_float prec emin emax x
  = IZR (round_half_even (x / quantum prec emin emax x))
    * quantum prec emin emax x.
Proof. reflexivity. Qed.

Lemma exponent_range (x : R) : (emin <= exponent emin emax x <= emax)%Z.
Proof.
  unfold exponent.
  pose proof (binade_range (Z.to_nat (emax - emin)) emax (Rabs x)). lia.
Qed.

Lemma exponent_le (x : R) :
  (emin < exponent emin emax x)%Z -> pow2 (exponent emin emax x) <= Rabs x.
Proof.
  intros H. apply binade_le. fold (exponent emin emax x). lia.
Qed.

Lemma exponent_floor (x : R) :
  pow2 emin <= Rabs x -> pow2 (exponent emin emax x) <= Rabs x.
Proof.
  intros H. apply binade_floor.
  replace (emax - Z.of_nat (Z.to_nat (emax - emin)))%Z with emin by lia.
  exact H.
Qed.

Lemma exponent_lt (x : R) :
  (exponent emin emax x < emax)%Z -> Rabs x < pow2 (exponent emin emax x + 1).
Proof. apply binade_lt. Qed.

Lemma exponent_mono (x y : R) :
  Rabs x <= Rabs y -> (exponent emin emax x <= exponent emin emax y)%Z.
Proof. apply binade_mono. Qed.

Lemma exponent_opp (x : R) : exponent emin emax (- x) = exponent emin emax x.
Proof. unfold exponent. now rewrite Rabs_Ropp. Qed.

Lemma exponent_eq (x : R) (k : Z) :
  (emin <= k <= emax)%Z -> pow2 k <= Rabs x < pow2 (k + 1) ->
  exponent emin emax x = k.
Proof. intros Hk H. apply binade_eq; [lia|exact H]. Qed.

Lemma exponent_small (x : R) :
  Rabs x < pow2 (emin + 1) -> exponent emin emax x = emin.
Proof.
  intros H. unfold exponent. rewrite binade_bottom; [lia|].
  replace (emax - Z.of_nat (Z.to_nat (emax - emin)) + 1)%Z
    with (emin + 1)%Z by lia.
  exact H.
Qed.

Lemma exponent_top (x : R) : pow2 emax <= Rabs x -> exponent emin emax x = emax.
Proof. apply binade_top. Qed.

Lemma quantum_pos (x : R) : 0 < quantum prec emin emax x.
Proof. apply pow2_pos. Qed.

Lemma quantum_opp (x : R) :
  quantum prec emin emax (- x) = quantum prec emin emax x.
Proof. unfold quantum. now rewrite exponent_opp. Qed.

Lemma round_float_0 : round_float prec emin emax 0 = 0.
Proof.
  rewrite round_float_unfold. unfold Rdiv. rewrite Rmult_0_l.
  rewrite (round_half_even_IZR 0). ring.
Qed.

Lemma round_float_opp (x : R) :
  round_float prec emin emax (- x) = - round_float prec emin emax x.
Proof.
  rewrite !round_float_unfold, quantum_opp.
  replace (- x / quantum prec emin emax x)
    with (- (x / quantum prec emin emax x)) by (unfold Rdiv; ring).
  rewrite round_half_even_opp, opp_IZR. ring.
Qed.

Lemma round_float_nonneg (x : R) :
  0 <= x -> 0 <= round_float prec emin emax x.
Proof.
  intros Hx. rewrite round_float_unfold.
  pose proof (quantum_pos x) as Hq.
  apply Rmult_le_pos; [|lra].
  apply IZR_le. rewrite <- (round_half_even_IZR 0).
  apply round_half_even_le. apply Rmult_le_pos; [exact Hx|].
  apply Rlt_le, Rinv_0_lt_compat, Hq.
Qed.

(** A value that is an integer multiple of its quantum is kept. *)
Lemma round_float_multiple (x : R) (z : Z) :
  x = IZR z * quantum prec emin emax x -> round_float prec emin emax x = x.
Proof.
  intros E. rewrite round_float_unfold.
  pose proof (quantum_pos x) as Hq.
  replace (x / quantum prec emin emax x) with (IZR z).
  - rewrite round_half_even_IZR. now rewrite <- E.
  - rewrite E at 1. field. lra.
Qed.

Lemma Rabs_IZR_pow2 (m k : Z) : Rabs (IZR m * pow2 k) = IZR (Z.abs m) * pow2 k.
Proof.
  rewrite Rabs_mult, <- abs_IZR. f_equal.
  apply Rabs_pos_eq, Rlt_le, pow2_pos.
Qed.

Lemma round_float_fixed (m k : Z) :
  (Z.abs m < 2 ^ prec)%Z -> (emin - prec + 1 <= k)%Z ->
  round_float prec emin emax (IZR m * pow2 k) = IZR m * pow2 k.
Proof.
  intros Hm Hk. set (x := IZR m * pow2 k).
  assert (He : (exponent emin emax x - prec + 1 <= k)%Z).
  { pose proof (exponent_range x) as Hr.
    destruct (Z.eq_dec (exponent emin emax x) emin) as [E|N]; [lia|].
    pose proof (exponent_le x ltac:(lia)) as Hle.
    unfold x in Hle at 2. rewrite Rabs_IZR_pow2 in Hle.
    assert (Hlt : IZR (Z.abs m) * pow2 k < pow2 (prec + k)).
    { rewrite pow2_add, (pow2_IZR prec) by lia.
      apply Rmult_lt_compat_r; [apply pow2_pos|]. now apply IZR_lt. }
    destruct (Z_lt_le_dec (exponent emin emax x) (prec + k)) as [?|Hge]; [lia|].
    pose proof (pow2_le _ _ Hge). lra. }
  apply (round_float_multiple
           x (m * 2 ^ (k - (exponent emin emax x - prec + 1)))).
  unfold quantum. rewrite mult_IZR, <- pow2_IZR by lia.
  rewrite Rmult_assoc, <- pow2_add.
  unfold x. do 2 f_equal. lia.
Qed.

Lemma round_float_IZR (z : Z) :
  (Z.abs z < 2 ^ prec)%Z -> (emin - prec + 1 <= 0)%Z ->
  round_float prec emin emax (IZR z) = IZR z.
Proof.
  intros Hz He. pose proof (round_float_fixed z 0 Hz He) as H.
  rewrite pow2_0, Rmult_1_r in H. exact H.
Qed.

Lemma round_float_upper (x : R) :
  0 <= x -> (exponent emin emax x < emax)%Z ->
  round_float prec emin emax x <= pow2 (exponent emin emax x + 1).
Proof.
  intros Hx He. rewrite round_float_unfold.
  pose proof (quantum_pos x) as Hq.
  pose proof (exponent_lt x He) as Hlt. rewrite Rabs_pos_eq in Hlt by exact Hx.
  replace (pow2 (exponent emin emax x + 1))
    with (IZR (2 ^ prec) * quantum prec emin emax x).
  - apply Rmult_le_compat_r; [lra|]. apply IZR_le.
    rewrite <- (round_half_even_IZR (2 ^ prec)).
    apply round_half_even_le.
    apply Rmult_le_reg_r with (quantum prec emin emax x); [exact Hq|].
    replace (x / quantum prec emin emax x * quantum prec emin emax x)
      with x by (field; lra).
    rewrite <- pow2_IZR by lia. unfold quantum. rewrite <- pow2_add.
    replace (prec + (exponent emin emax x - prec + 1))%Z
      with (exponent emin emax x + 1)%Z by lia.
    lra.
  - rewrite <- pow2_IZR by lia. unfold quantum. rewrite <- pow2_add.
    f_equal. lia.
Qed.

Lemma round_float_lower (x : R) :
  0 <= x -> pow2 (exponent emin emax x) <= x ->
  pow2 (exponent emin emax x) <= round_float prec emin emax x.
Proof.
  intros Hx Hle. rewrite round_float_unfold.
  pose proof (quantum_pos x) as Hq.
  replace (pow2 (exponent emin emax x))
    with (IZR (2 ^ (prec - 1)) * quantum prec emin emax x) at 1.
  - apply Rmult_le_compat_r; [lra|]. apply IZR_le.
    rewrite <- (round_half_even_IZR (2 ^ (prec - 1))).
    apply round_half_even_le.
    apply Rmult_le_reg_r with (quantum prec emin emax x); [exact Hq|].
    replace (x / quantum prec emin emax x * quantum prec emin emax x)
      with x by (field; lra).
    rewrite <- pow2_IZR by lia. unfold quantum. rewrite <- pow2_add.
    replace (prec - 1 + (exponent emin emax x - prec + 1))%Z
      with (exponent emin emax x) by lia.
    exact Hle.
  - rewrite <- pow2_IZR by lia. unfold quantum. rewrite <- pow2_add.
    f_equal. lia.
Qed.

Lemma round_float_le_nonneg (x y : R) :
  0 <= x -> x <= y ->
  round_float prec emin emax x <= round_float prec emin emax y.
Proof.
  intros Hx Hxy.
  assert (Hy : 0 <= y) by lra.
  assert (He : (exponent emin emax x <= exponent emin emax y)%Z)
    by (apply exponent_mono; rewrite !Rabs_pos_eq; lra).
  destruct (Z.eq_dec (exponent emin emax x) (exponent emin emax y)) as [E|N].
  - rewrite !round_float_unfold. unfold quantum. rewrite E.
    pose proof (pow2_pos (exponent emin emax y - prec + 1)) as Hq.
    apply Rmult_le_compat_r; [lra|]. apply IZR_le, round_half_even_le.
    apply Rmult_le_compat_r; [|exact Hxy].
    apply Rlt_le, Rinv_0_lt_compat, Hq.
  - pose proof (exponent_range x). pose proof (exponent_range y).
    apply Rle_trans with (pow2 (exponent emin emax x + 1)).
    + apply round_float_upper; [exact Hx|lia].
    + apply Rle_trans with (pow2 (exponent emin emax y)); [apply pow2_le; lia|].
      apply round_float_lower; [exact Hy|].
      rewrite <- (Rabs_pos_eq y) at 2 by exact Hy.
      apply exponent_le. lia.
Qed.

Lemma round_float_le (x y : R) :
  x <= y -> round_float prec emin emax x <= round_float prec emin emax y.
Proof.
  intros Hxy.
  destruct (Rle_dec 0 x) as [Hx|Hx].
  - now apply round_float_le_nonneg.
  - destruct (Rle_dec 0 y) as [Hy|Hy].
    + apply Rle_trans with 0; [|now apply round_float_nonneg].
      rewrite <- (Ropp_involutive x), round_float_opp.
      pose proof (round_float_nonneg (- x) ltac:(lra)). lra.
    + rewrite <- (Ropp_involutive x), <- (Ropp_involutive y).
      rewrite (round_float_opp (- x)), (round_float_opp (- y)).
      apply Ropp_le_contravar. apply round_float_le_nonneg; lra.
Qed.

Lemma round_float_idem (x : R) :
  round_float prec emin emax (round_float prec emin emax x)
  = round_float prec emin emax x.
Proof.
  rewrite (round_float_unfold x).
  set (m := round_half_even (x / quantum prec emin emax x)).
  pose proof (exponent_range x) as Hr.
  destruct (Z_lt_le_dec (Z.abs m) (2 ^ prec)) as [Hm|Hm].
  - apply round_float_fixed; [exact Hm|lia].
  - destruct (Z.eq_dec (exponent emin emax x) emax) as [E|N].
    + assert (Ee : exponent emin emax (IZR m * quantum prec emin emax x)
                   = exponent emin emax x).
      { rewrite E. apply exponent_top. unfold quantum.
        rewrite Rabs_IZR_pow2, E.
        apply Rle_trans with (IZR (2 ^ prec) * pow2 (emax - prec + 1)).
        - rewrite <- pow2_IZR, <- pow2_add by lia. apply pow2_le. lia.
        - apply Rmult_le_compat_r; [apply Rlt_le, pow2_pos|now apply IZR_le]. }
      apply (round_float_multiple _ m). f_equal.
      change (quantum prec emin emax (IZR m * quantum prec emin emax x))
        with (pow2 (exponent emin emax (IZR m * quantum prec emin emax x)
                   - prec + 1)).
      now rewrite Ee.
    + assert (Habs : (Z.abs m <= 2 ^ prec)%Z).
      { pose proof (quantum_pos x) as Hq.
        pose proof (exponent_lt x ltac:(lia)) as Hlt.
        assert (Hb : - IZR (2 ^ prec) <= x / quantum prec emin emax x
                     <= IZR (2 ^ prec)).
        { assert (Hq2 : pow2 (exponent emin emax x + 1)
                        = IZR (2 ^ prec) * quantum prec emin emax x).
          { rewrite <- pow2_IZR by lia. unfold quantum. rewrite <- pow2_add.
            f_equal. lia. }
          rewrite Hq2 in Hlt. apply Rabs_def2 in Hlt.
          split.
          - apply Rmult_le_reg_r with (quantum prec emin emax x); [exact Hq|].
            replace (x / quantum prec emin emax x * quantum prec emin emax x)
              with x by (field; lra).
            lra.
          - apply Rmult_le_reg_r with (quantum prec emin emax x); [exact Hq|].
            replace (x / quantum prec emin emax x * quantum prec emin emax x)
              with x by (field; lra).
            lra. }
        destruct Hb as [Hb1 Hb2].
        apply round_half_even_le in Hb1. apply round_half_even_le in Hb2.
        rewrite <- opp_IZR in Hb1.
        rewrite round_half_even_IZR in Hb1, Hb2. fold m in Hb1, Hb2. lia. }
      assert (Hcase : (m = 2 ^ prec \/ m = - 2 ^ prec)%Z) by lia.
      assert (H1 : (Z.abs 1 < 2 ^ prec)%Z).
      { pose proof (Z.pow_gt_1 2 prec). simpl. lia. }
      assert (H1' : (Z.abs (-1) < 2 ^ prec)%Z) by (simpl in *; lia).
      destruct Hcase as [-> | ->].
      * replace (IZR (2 ^ prec) * quantum prec emin emax x)
          with (IZR 1 * pow2 (exponent emin emax x + 1)).
        -- apply round_float_fixed; [exact H1|lia].
        -- rewrite <- pow2_IZR by lia. unfold quantum. rewrite <- pow2_add.
           rewrite Rmult_1_l. f_equal. lia.
      * replace (IZR (- 2 ^ prec) * quantum prec emin emax x)
          with (IZR (-1) * pow2 (exponent emin emax x + 1)).
        -- apply round_float_fixed; [exact H1'|lia].
        -- rewrite opp_IZR, <- pow2_IZR by lia. unfold quantum.
           replace (- pow2 prec * pow2 (exponent emin emax x - prec + 1))
             with (- (pow2 prec * pow2 (exponent emin emax x - prec + 1)))
             by ring.
           rewrite <- pow2_add.
           replace (prec + (exponent emin emax x - prec + 1))%Z
             with (exponent emin emax x + 1)%Z by lia.
           ring.
Qed.

Lemma round_float_half_quantum (x : R) :
  Rabs (round_float prec emin emax x - x)
  <= 1 / 2 * quantum prec emin emax x.
Proof.
  rewrite round_float_unfold.
  pose proof (quantum_pos x) as Hq.
  pose proof (nearest_even_bound _ _
                (round_half_even_nearest (x / quantum prec emin emax x)))
    as Hb.
  set (m := round_half_even (x / quantum prec emin emax x)) in *.
  replace (IZR m * quantum prec emin emax x - x)
    with (- (x / quantum prec emin emax x - IZR m)
          * quantum prec emin emax x)
    by (field; lra).
  rewrite Rabs_mult, Rabs_Ropp, (Rabs_pos_eq (quantum prec emin emax x))
    by lra.
  apply Rmult_le_compat_r; lra.
Qed.

Lemma round_float_error (x : R) :
  pow2 emin <= Rabs x ->
  Rabs (round_float prec emin emax x - x) <= pow2 (- prec) * Rabs x.
Proof.
  intros Hx.
  apply Rle_trans with (1 / 2 * quantum prec emin emax x);
    [apply round_float_half_quantum|].
  pose proof (exponent_floor x Hx) as Hle.
  unfold quantum.
  replace (exponent emin emax x - prec + 1)%Z
    with (1 + (- prec + exponent emin emax x))%Z by lia.
  rewrite !pow2_add, pow2_1.
  pose proof (pow2_pos (- prec)) as Hp.
  replace (1 / 2 * (2 * (pow2 (- prec) * pow2 (exponent emin emax x))))
    with (pow2 (- prec) * pow2 (exponent emin emax x)) by field.
  apply Rmult_le_compat_l; lra.
Qed.

Lemma round_float_error_abs (x : R) :
  Rabs (round_float prec emin emax x - x)
  <= pow2 (- prec) * Rabs x + pow2 (emin - prec).
Proof.
  pose proof (pow2_pos (- prec)) as Hp.
  pose proof (pow2_pos (emin - prec)) as Hq.
  pose proof (Rabs_pos x) as Hx.
  destruct (Rle_dec (pow2 emin) (Rabs x)) as [H|H].
  - pose proof (round_float_error x H). nra.
  - apply Rle_trans with (1 / 2 * quantum prec emin emax x);
      [apply round_float_half_quantum|].
    unfold quantum. rewrite exponent_small.
    + replace (emin - prec + 1)%Z with (1 + (emin - prec))%Z by lia.
      rewrite pow2_add, pow2_1. nra.
    + apply Rlt_trans with (pow2 emin); [lra|apply pow2_lt; lia].
Qed.

(** Evaluation on a value whose binade is known. *)
Lemma round_float_eval (x : R) (e m : Z) :
  (emin <= e <= emax)%Z -> pow2 e <= Rabs x < pow2 (e + 1) ->
  nearest_even (x / pow2 (e - prec + 1)) m ->
  round_float prec emin emax x = IZR m * pow2 (e - prec + 1).
Proof.
  intros He Hx Hm. rewrite round_float_unfold. unfold quantum.
  rewrite (exponent_eq x e He Hx).
  now rewrite (round_half_even_spec _ _ Hm).
Qed.

End Rounding.

(** *** Binary32 and binary64 *)

Lemma f32_0 : f32 0 = 0.
Proof. apply round_float_0. Qed.

Lemma f32_opp (x : R) : f32 (- x) = - f32 x.
Proof. apply round_float_opp. Qed.


Lemma f32_le (x y : R) : x <= y -> f32 x <= f32 y.
Proof. apply round_float_le; lia. Qed.

Lemma f32_idem (x : R) : f32 (f32 x) = f32 x.
Proof. apply round_float_idem; lia. Qed.

Lemma f32_fixed (m k : Z) :
  (Z.abs m < 2 ^ 24)%Z -> (-149 <= k)%Z ->
  f32 (IZR m * pow2 k) = IZR m * pow2 k.
Proof. intros Hm Hk. apply round_float_fixed; lia. Qed.

Lemma f32_IZR (z : Z) : (Z.abs z < 2 ^ 24)%Z -> f32 (IZR z) = IZR z.
Proof. intros Hz. apply round_float_IZR; lia. Qed.


Lemma f32_eval (x : R) (e m : Z) :
  (-126 <= e <= 127)%Z -> pow2 e <= Rabs x < pow2 (e + 1) ->
  nearest_even (x / pow2 (e - 23)) m ->
  f32 x = IZR m * pow2 (e - 23).
Proof.
  intros He Hx Hm.
  replace (e - 23)%Z with (e - 24 + 1)%Z in * by lia.
  apply round_float_eval; try lia; assumption.
Qed.

Lemma f64_0 : f64 0 = 0.
Proof. apply round_float_0. Qed.


Lemma f64_le (x y : R) : x <= y -> f64 x <= f64 y.
Proof. apply round_float_le; lia. Qed.

Lemma f64_fixed (m k : Z) :
  (Z.abs m < 2 ^ 53)%Z -> (-1074 <= k)%Z ->
  f64 (IZR m * pow2 k) = IZR m * pow2 k.
Proof. intros Hm Hk. apply round_float_fixed; lia. Qed.

Lemma f64_IZR (z : Z) : (Z.abs z < 2 ^ 53)%Z -> f64 (IZR z) = IZR z.
Proof. intros Hz. apply round_float_IZR; lia. Qed.

Lemma f64_error (x : R) :
  pow2 (-1022) <= Rabs x -> Rabs (f64 x - x) <= pow2 (-53) * Rabs x.
Proof. intros H. apply (round_float_error 53 (-1022) 1023); [lia|exact H]. Qed.

Lemma pow2_neg (k : Z) : (0 <= k)%Z -> pow2 (- k) = / IZR (2 ^ k).
Proof.
  intros Hk. pose proof (pow2_inv k) as H. rewrite pow2_IZR in H by exact Hk.
  assert (Hp : 0 < IZR (2 ^ k)).
  { apply IZR_lt. now apply Z.pow_pos_nonneg. }
  apply Rmult_eq_reg_l with (IZR (2 ^ k)); [|lra].
  rewrite H. field. lra.
Qed.

Lemma f32_1 : f32 1 = 1.
Proof. apply (f32_IZR 1). reflexivity. Qed.

Lemma f32_2 : f32 2 = 2.
Proof. apply (f32_IZR 2). reflexivity. Qed.

Lemma f32_error_abs (x : R) :
  Rabs (f32 x - x) <= pow2 (-24) * Rabs x + pow2 (-150).
Proof. apply (round_float_error_abs 24 (-126) 127). lia. Qed.

Lemma f64_error_abs (x : R) :
  Rabs (f64 x - x) <= pow2 (-53) * Rabs x + pow2 (-1075).
Proof. apply (round_float_error_abs 53 (-1022) 1023). lia. Qed.

(** ** The model on small inputs *)

Example broadcast_shapes_examples :
  broadcast_shapes [2; 1; 1; 1]%nat [1; 1; 1; 1]%nat = Some [2; 1; 1; 1]%nat
  /\ broadcast_shapes [2; 3; 4; 4]%nat [3; 1; 4]%nat = Some [2; 3; 4; 4]%nat
  /\ broadcast_shapes [2; 3]%nat [3; 2]%nat = None.
Proof. repeat split. Qed.

Example expand_to_examples :
  expand_to [2; 2]%nat (mkTensor Float32 [2; 1]%nat [1; 2]) = [1; 1; 2; 2]
  /\ expand_to [2; 2]%nat (mkTensor Float32 [2]%nat [1; 2]) = [1; 2; 1; 2].
Proof. split; reflexivity. Qed.

Example entries_example :
  entries (mkTensor Float32 [2; 1; 1; 2]%nat [1; 2; 3; 4]) = [[1; 2]; [3; 4]].
Proof. reflexivity. Qed.

Example crop_hw_example :
  crop_hw 1 2 (mkTensor Float32 [1; 1; 2; 3]%nat [1; 2; 3; 4; 5; 6])
  = Ok (mkTensor Float32 [1; 1; 1; 2]%nat [1; 2]).
Proof. reflexivity. Qed.

Example level_size_example : level_size [5; 8]%nat 1 = Ok (2%nat, 4%nat).
Proof. reflexivity. Qed.

Example ref_pyramid_example :
  ref_pyrdown demo_cond = Ok (mkTensor Float32 [1; 1; 1; 1]%nat [1])
  /\ ref_pyrup (mkTensor Float32 [1; 1; 1; 1]%nat [1])
     = Ok (mkTensor Float32 [1; 1; 2; 2]%nat [1; 1; 1; 1])
  /\ ref_build_laplacian_pyramid demo_cond 2
     = Ok [mkTensor Float32 [1; 1; 2; 2]%nat [1 - 1; 2 - 1; 3 - 1; 4 - 1];
           mkTensor Float32 [1; 1; 1; 1]%nat [1]].
Proof. repeat split. Qed.

Example split_strip_examples :
  split_on "," "1.0,2.0" = ["1.0"; "2.0"]%string
  /\ split_on "," EmptyString = [EmptyString]
  /\ split_on "," "a," = ["a"%string; EmptyString]
  /\ strip "  7 " = "7"%string.
Proof. repeat split. Qed.

Example py_index_examples :
  py_index [10; 8; 6] 2 = Ok 6
  /\ py_index [10; 8; 6] (-1) = Ok 6
  /\ py_index [10; 8; 6] 3 = Err IndexError
  /\ py_index (@nil R) (-1) = Err IndexError.
Proof. repeat split. Qed.

(** ** Lists, blocks and broadcasting *)

Lemma chunks_length (k n : nat) (l : list R) : length (chunks k n l) = k.
Proof.
  revert l; induction k as [|k IH]; intros l; simpl; [reflexivity|].
  now rewrite IH.
Qed.

Lemma chunks_Forall_length (k n : nat) (l : list R) :
  length l = (k * n)%nat -> Forall (fun c => length c = n) (chunks k n l).
Proof.
  revert l; induction k as [|k IH]; intros l Hl; simpl; constructor.
  - rewrite length_firstn. simpl in Hl. lia.
  - apply IH. rewrite length_skipn. simpl in Hl. lia.
Qed.

Lemma concat_chunks (k n : nat) (l : list R) :
  length l = (k * n)%nat -> concat (chunks k n l) = l.
Proof.
  revert l; induction k as [|k IH]; intros l Hl; simpl in *.
  - destruct l; [reflexivity|discriminate].
  - rewrite IH; [apply firstn_skipn|].
    rewrite length_skipn. lia.
Qed.

Lemma chunks_concat (k n : nat) (cs : list (list R)) :
  length cs = k -> Forall (fun c => length c = n) cs ->
  chunks k n (concat cs) = cs.
Proof.
  revert cs; induction k as [|k IH]; intros cs Hk Hn;
    destruct cs as [|c cs]; try discriminate; [reflexivity|].
  inversion Hn as [|? ? Hc Hcs]; subst. simpl.
  rewrite firstn_app, Nat.sub_diag, firstn_O, app_nil_r, firstn_all.
  rewrite skipn_app, Nat.sub_diag, skipn_all. simpl.
  f_equal. apply IH; [simpl in Hk; lia|assumption].
Qed.

Lemma chunks_app (k1 k2 n : nat) (l1 l2 : list R) :
  length l1 = (k1 * n)%nat ->
  chunks (k1 + k2) n (l1 ++ l2) = chunks k1 n l1 ++ chunks k2 n l2.
Proof.
  revert l1; induction k1 as [|k1 IH]; intros l1 Hl; simpl in *.
  - destruct l1; [reflexivity|discriminate].
  - rewrite firstn_app, skipn_app.
    replace (n - length l1)%nat with 0%nat by lia.
    rewrite firstn_O, skipn_O, app_nil_r. f_equal.
    apply IH. rewrite length_skipn. lia.
Qed.

Lemma chunks_mul (a k n : nat) (l : list R) :
  length l = (a * (k * n))%nat ->
  chunks (a * k) n l = concat (map (chunks k n) (chunks a (k * n) l)).
Proof.
  revert l; induction a as [|a IH]; intros l Hl; simpl in *.
  - reflexivity.
  - rewrite <- (firstn_skipn (k * n) l) at 1.
    rewrite chunks_app.
    + f_equal. apply IH. rewrite length_skipn. lia.
    + rewrite length_firstn. lia.
Qed.

Lemma map_id_Forall {A : Type} (P : A -> Prop) (f : A -> A) (l : list A) :
  (forall x, P x -> f x = x) -> Forall P l -> map f l = l.
Proof.
  intros Hf Hl; induction Hl as [|x l Hx _ IH]; simpl; [reflexivity|].
  now rewrite Hf, IH.
Qed.

Lemma numel_app (s1 s2 : list nat) :
  numel (s1 ++ s2) = (numel s1 * numel s2)%nat.
Proof.
  induction s1 as [|a s1 IH]; simpl; [lia|]. rewrite IH. lia.
Qed.

Lemma expand_aligned_same (s : list nat) (d : list R) :
  length d = numel s -> expand_aligned s s d = d.
Proof.
  revert d; induction s as [|a s IH]; intros d Hd; simpl; [reflexivity|].
  rewrite Nat.eqb_refl.
  rewrite map_id_Forall with (P := fun c => length c = numel s).
  - apply concat_chunks. exact Hd.
  - exact IH.
  - apply chunks_Forall_length. exact Hd.
Qed.

Lemma broadcast_rev_same (r : list nat) : broadcast_rev r r = Some r.
Proof.
  induction r as [|a r IH]; simpl; [reflexivity|].
  unfold broadcast_dim. now rewrite IH, Nat.eqb_refl.
Qed.

Lemma broadcast_shapes_same (s : list nat) : broadcast_shapes s s = Some s.
Proof.
  unfold broadcast_shapes. rewrite broadcast_rev_same. simpl.
  now rewrite rev_involutive.
Qed.

Lemma pad_shape_same (s : list nat) : pad_shape (length s) s = s.
Proof. unfold pad_shape. now rewrite Nat.sub_diag. Qed.

Lemma expand_to_same (s : list nat) (t : tensor) :
  shape t = s -> wf t -> expand_to s t = data t.
Proof.
  intros Hs Hwf. unfold expand_to. subst s.
  rewrite pad_shape_same. now apply expand_aligned_same.
Qed.

(** On tensors of one shape an elementwise operator is a plain [map2]. *)
Lemma binop_same_shape (f : R -> R -> R) (a b : tensor) :
  shape a = shape b -> wf a -> wf b ->
  binop f a b = Ok (mkTensor (promote (dtype a) (dtype b)) (shape a)
                             (map2 f (data a) (data b))).
Proof.
  intros Hs Ha Hb. unfold binop.
  rewrite <- Hs, broadcast_shapes_same.
  rewrite expand_to_same by auto.
  rewrite expand_to_same by auto.
  reflexivity.
Qed.

Lemma map2_length {A B C : Type} (f : A -> B -> C) (l1 : list A)
      (l2 : list B) :
  length (map2 f l1 l2) = Nat.min (length l1) (length l2).
Proof.
  revert l2; induction l1 as [|a l1 IH]; intros [|b l2]; simpl; auto.
Qed.

Lemma map2_app {A B C : Type} (f : A -> B -> C) (a a' : list A)
      (b b' : list B) :
  length a = length b ->
  map2 f (a ++ a') (b ++ b') = map2 f a b ++ map2 f a' b'.
Proof.
  revert b; induction a as [|x a IH]; intros [|y b] H; simpl in *;
    try discriminate; [reflexivity|].
  f_equal. apply IH. lia.
Qed.

Lemma map2_map_r {A B B' C : Type} (f : A -> B' -> C) (g : B -> B')
      (l1 : list A) (l2 : list B) :
  map2 f l1 (map g l2) = map2 (fun a b => f a (g b)) l1 l2.
Proof.
  revert l2; induction l1 as [|a l1 IH]; intros [|b l2]; simpl; auto.
  now rewrite IH.
Qed.

Lemma map2_ext_Forall2 {A B C : Type} (P : A -> B -> Prop)
      (f g : A -> B -> C) (l1 : list A) (l2 : list B) :
  (forall a b, P a b -> f a b = g a b) ->
  Forall2 P l1 l2 -> map2 f l1 l2 = map2 g l1 l2.
Proof.
  intros Hfg; induction 1 as [|a b l1 l2 Hab _ IH]; simpl; [reflexivity|].
  now rewrite Hfg, IH.
Qed.

Lemma Forall2_same_length {A B : Type} (P : A -> Prop) (Q : B -> Prop)
      (l1 : list A) (l2 : list B) :
  length l1 = length l2 -> Forall P l1 -> Forall Q l2 ->
  Forall2 (fun a b => P a /\ Q b) l1 l2.
Proof.
  revert l2; induction l1 as [|a l1 IH]; intros [|b l2] Hl H1 H2;
    simpl in *; try discriminate; constructor.
  - inversion H1; inversion H2; auto.
  - inversion H1; inversion H2; subst. apply IH; auto.
Qed.

Lemma Forall2_impl {A B : Type} (P Q : A -> B -> Prop)
      (l1 : list A) (l2 : list B) :
  (forall a b, P a b -> Q a b) -> Forall2 P l1 l2 -> Forall2 Q l1 l2.
Proof. intros H; induction 1; constructor; auto. Qed.

Lemma map2_repeat_l {A B C : Type} (f : A -> B -> C) (x : A) (l : list B) :
  map2 f (repeat x (length l)) l = map (f x) l.
Proof. induction l as [|b l IH]; simpl; [reflexivity|now rewrite IH]. Qed.

Lemma concat_repeat_repeat {A : Type} (x : A) (n b : nat) :
  concat (repeat (repeat x n) b) = repeat x (b * n).
Proof.
  induction b as [|b IH]; simpl; [reflexivity|].
  now rewrite IH, repeat_app.
Qed.

Lemma numel_repeat_1 (k : nat) : numel (repeat 1%nat k) = 1%nat.
Proof. induction k as [|k IH]; simpl; [reflexivity|]. rewrite IH. lia. Qed.

(** A single element expanded from axes of size 1 fills the whole block. *)
Lemma expand_aligned_ones (l : list nat) (d : R) :
  expand_aligned (repeat 1%nat (length l)) l [d] = repeat d (numel l).
Proof.
  induction l as [|b l IH]; simpl; [reflexivity|].
  rewrite numel_repeat_1. simpl. rewrite IH, app_nil_r.
  change (match b with 1%nat => true | _ => false end) with (1 =? b)%nat.
  destruct (Nat.eqb_spec 1 b) as [<-|_].
  - simpl. now rewrite Nat.add_0_r.
  - apply concat_repeat_repeat.
Qed.

Lemma concat_concat {A : Type} (l : list (list (list A))) :
  concat (concat l) = concat (map (@concat A) l).
Proof.
  induction l as [|x l IH]; simpl; [reflexivity|].
  now rewrite concat_app, IH.
Qed.

(** Expansion leaves alone the leading axes the two shapes share. *)
Lemma expand_aligned_lead (lead sf st : list nat) (d : list R) :
  length d = (numel lead * numel sf)%nat ->
  expand_aligned (lead ++ sf) (lead ++ st) d
  = concat (map (expand_aligned sf st) (chunks (numel lead) (numel sf) d)).
Proof.
  revert d; induction lead as [|a lead IH]; intros d Hd; simpl in *.
  - rewrite app_nil_r, firstn_all2 by lia. reflexivity.
  - rewrite Nat.eqb_refl, numel_app, chunks_mul by lia.
    rewrite concat_map, map_map, concat_concat, map_map. f_equal.
    apply map_ext_Forall.
    eapply Forall_impl; [|apply chunks_Forall_length; lia].
    intros c Hc. simpl in Hc. apply IH. exact Hc.
Qed.

Lemma chunks_singletons (l : list R) :
  chunks (length l) 1 l = map (fun d => [d]) l.
Proof. induction l as [|x l IH]; simpl; [reflexivity|now rewrite IH]. Qed.

Lemma broadcast_rev_ones (l r : list nat) :
  broadcast_rev (repeat 1%nat (length l) ++ r) (l ++ r) = Some (l ++ r).
Proof.
  induction l as [|b l IH]; simpl; [apply broadcast_rev_same|].
  rewrite IH. unfold broadcast_dim.
  destruct (Nat.eqb_spec 1 b) as [<-|_]; reflexivity.
Qed.

Lemma rev_repeat {A : Type} (x : A) (n : nat) : rev (repeat x n) = repeat x n.
Proof.
  induction n as [|n IH]; simpl; [reflexivity|].
  rewrite IH. clear IH. induction n as [|n IH]; simpl; [reflexivity|].
  now rewrite IH.
Qed.

(** A shape whose last axes have size 1 broadcasts to the shape with the
    same leading axes. *)
Lemma broadcast_shapes_keepdim (lead l : list nat) :
  broadcast_shapes (lead ++ repeat 1%nat (length l)) (lead ++ l)
  = Some (lead ++ l).
Proof.
  unfold broadcast_shapes. rewrite !rev_app_distr, rev_repeat.
  rewrite <- (length_rev l), broadcast_rev_ones. simpl.
  now rewrite rev_app_distr, !rev_involutive.
Qed.

(** ** [project] on tensors of one shape *)

Lemma numel_split (n : nat) (s : list nat) :
  numel s = (numel (lead_axes n s) * numel (last_axes n s))%nat.
Proof.
  unfold lead_axes, last_axes.
  now rewrite <- numel_app, firstn_skipn.
Qed.

Lemma entries_concat (t : tensor) : wf t -> concat (entries t) = data t.
Proof.
  intros H. unfold entries. apply concat_chunks.
  rewrite H. apply numel_split.
Qed.

Lemma entries_Forall_length (t : tensor) :
  wf t ->
  Forall (fun e => length e = numel (last_axes 3 (shape t))) (entries t).
Proof.
  intros H. apply chunks_Forall_length. rewrite H. apply numel_split.
Qed.

Lemma entries_length (t : tensor) :
  length (entries t) = numel (lead_axes 3 (shape t)).
Proof. apply chunks_length. Qed.

Lemma normalized_length (e : list R) : length (normalized e) = length e.
Proof. apply length_map. Qed.

Lemma entries_of_blocks (d : dtype_t) (s : list nat) (bs : list (list R)) :
  length bs = numel (lead_axes 3 s) ->
  Forall (fun e => length e = numel (last_axes 3 s)) bs ->
  entries (mkTensor d s (concat bs)) = bs.
Proof. intros Hl Hf. unfold entries. simpl. now apply chunks_concat. Qed.

Lemma wf_of_blocks (d : dtype_t) (s : list nat) (bs : list (list R)) :
  length bs = numel (lead_axes 3 s) ->
  Forall (fun e => length e = numel (last_axes 3 s)) bs ->
  wf (mkTensor d s (concat bs)).
Proof.
  intros Hl Hf. unfold wf. simpl.
  rewrite (numel_split 3 s), <- Hl. clear Hl.
  induction Hf as [|b bs Hb _ IH]; simpl; [reflexivity|].
  rewrite length_app, IH, Hb. reflexivity.
Qed.

Lemma Forall2_entries (t0 t1 : tensor) (n : nat) :
  length (entries t0) = length (entries t1) ->
  Forall (fun e => length e = n) (entries t0) ->
  Forall (fun e => length e = n) (entries t1) ->
  Forall2 (fun a b => length a = n /\ length b = n) (entries t0) (entries t1).
Proof. intros. now apply Forall2_same_length. Qed.

Lemma map2_Forall {A B C : Type} (P : A -> B -> Prop) (Q : C -> Prop)
      (f : A -> B -> C) (l1 : list A) (l2 : list B) :
  (forall a b, P a b -> Q (f a b)) ->
  Forall2 P l1 l2 -> Forall Q (map2 f l1 l2).
Proof. intros H; induction 1; simpl; constructor; auto. Qed.

Lemma map2_length_Forall2 {A B C : Type} (P : A -> B -> Prop)
      (f : A -> B -> C) (l1 : list A) (l2 : list B) :
  Forall2 P l1 l2 -> length (map2 f l1 l2) = length l1.
Proof. induction 1; simpl; auto. Qed.

Lemma entry_parallel_length (e0 e1 : list R) :
  length (entry_parallel e0 e1) = length e1.
Proof. unfold entry_parallel. now rewrite length_map, normalized_length. Qed.

Lemma entry_orthogonal_length (e0 e1 : list R) :
  length e0 = length e1 -> length (entry_orthogonal e0 e1) = length e0.
Proof.
  intros H. unfold entry_orthogonal.
  rewrite map2_length, entry_parallel_length. lia.
Qed.

Lemma products_blocks (n : nat) (xs ys : list (list R)) :
  Forall2 (fun a b => length a = n /\ length b = n) xs ys ->
  map2 Rmult (concat xs) (concat (map normalized ys))
  = concat (map2 (map2 Rmult) xs (map normalized ys)).
Proof.
  induction 1 as [|a b xs ys [Ha Hb] _ IH]; simpl; [reflexivity|].
  rewrite map2_app, IH; [reflexivity|].
  rewrite normalized_length. lia.
Qed.

Lemma parallel_blocks (n : nat) (xs ys : list (list R)) :
  Forall2 (fun a b => length a = n /\ length b = n) xs ys ->
  map2 Rmult
       (concat (map (fun d => repeat d n)
                    (map Rsum (map2 (map2 Rmult) xs (map normalized ys)))))
       (concat (map normalized ys))
  = concat (map2 entry_parallel xs ys).
Proof.
  induction 1 as [|a b xs ys [Ha Hb] _ IH]; simpl; [reflexivity|].
  rewrite map2_app, IH by (now rewrite repeat_length, normalized_length).
  f_equal. rewrite <- Hb, <- (normalized_length b).
  apply map2_repeat_l.
Qed.

Lemma orthogonal_blocks (n : nat) (xs ys : list (list R)) :
  Forall2 (fun a b => length a = n /\ length b = n) xs ys ->
  map2 Rminus (concat xs) (concat (map2 entry_parallel xs ys))
  = concat (map2 entry_orthogonal xs ys).
Proof.
  induction 1 as [|a b xs ys [Ha Hb] _ IH]; simpl; [reflexivity|].
  rewrite map2_app, IH; [reflexivity|].
  rewrite entry_parallel_length. lia.
Qed.

Lemma last_axes_length (n : nat) (s : list nat) :
  (n <= length s)%nat -> length (last_axes n s) = n.
Proof. intros H. unfold last_axes. rewrite length_skipn. lia. Qed.

Lemma lead_last_axes (n : nat) (s : list nat) :
  lead_axes n s ++ last_axes n s = s.
Proof. apply firstn_skipn. Qed.

(** [s * t] where [s] is a [keepdim] sum over the last three axes of a
    tensor shaped like [t]: every batch entry of [t] is multiplied by its
    own scalar. *)
Lemma tmul_keepdim (d1 d2 : dtype_t) (lead l : list nat) (ds dt : list R) :
  length ds = numel lead ->
  length dt = numel (lead ++ l) ->
  tmul (mkTensor d1 (lead ++ repeat 1%nat (length l)) ds)
       (mkTensor d2 (lead ++ l) dt)
  = Ok (mkTensor (promote d1 d2) (lead ++ l)
          (map2 Rmult (concat (map (fun d => repeat d (numel l)) ds)) dt)).
Proof.
  intros Hds Hdt. unfold tmul, binop. simpl shape. simpl dtype.
  rewrite broadcast_shapes_keepdim.
  f_equal. f_equal. f_equal.
  - unfold expand_to. simpl shape. simpl data.
    unfold pad_shape.
    replace (length (lead ++ l)
             - length (lead ++ repeat 1%nat (length l)))%nat with 0%nat
      by (rewrite !length_app, repeat_length; lia).
    simpl app.
    rewrite expand_aligned_lead by (rewrite numel_repeat_1; lia).
    rewrite numel_repeat_1, <- Hds, chunks_singletons, map_map.
    f_equal. apply map_ext. intros d. apply expand_aligned_ones.
  - apply expand_to_same; [reflexivity|exact Hdt].
Qed.

Lemma tmul_keepdim3 (d1 d2 : dtype_t) (s : list nat) (ds dt : list R) :
  (3 <= length s)%nat ->
  length ds = numel (lead_axes 3 s) ->
  length dt = numel s ->
  tmul (mkTensor d1 (lead_axes 3 s ++ [1; 1; 1]%nat) ds) (mkTensor d2 s dt)
  = Ok (mkTensor (promote d1 d2) s
          (map2 Rmult
                (concat (map (fun d => repeat d (numel (last_axes 3 s))) ds))
                dt)).
Proof.
  intros Hrank Hds Hdt.
  pose proof (tmul_keepdim d1 d2 (lead_axes 3 s) (last_axes 3 s) ds dt) as H.
  rewrite lead_last_axes, (last_axes_length 3 s Hrank) in H.
  apply H; assumption.
Qed.

(** The result of [project] on two well-formed tensors of one shape, batch
    entry by batch entry. *)
Lemma project_same_shape (v0 v1 : tensor) :
  shape v0 = shape v1 -> (3 <= length (shape v0))%nat -> wf v0 -> wf v1 ->
  project v0 v1
  = Ok (mkTensor (dtype v0) (shape v0)
                 (concat (map2 entry_parallel (entries v0) (entries v1))),
        mkTensor (dtype v0) (shape v0)
                 (concat (map2 entry_orthogonal (entries v0) (entries v1)))).
Proof.
  intros Hs Hrank Hwf0 Hwf1.
  assert (Hlen : length (entries v0) = length (entries v1))
    by (now rewrite !entries_length, Hs).
  pose proof (entries_Forall_length _ Hwf0) as HF0.
  pose proof (entries_Forall_length _ Hwf1) as HF1.
  rewrite <- Hs in HF1.
  pose proof (Forall2_entries _ _ _ Hlen HF0 HF1) as HF2.
  set (N := numel (last_axes 3 (shape v0))) in *.
  set (E0 := entries v0) in *. set (E1 := entries v1) in *.
  set (s := shape v0) in *.
  assert (HlenE0 : length E0 = numel (lead_axes 3 s)) by apply entries_length.
  assert (Hn_len : length (map normalized E1) = numel (lead_axes 3 s))
    by (now rewrite length_map, <- Hlen).
  assert (Hn_F : Forall (fun e => length e = N) (map normalized E1)).
  { apply Forall_map. eapply Forall_impl; [|exact HF1].
    intros e He. now rewrite normalized_length. }
  assert (Hprod_F : Forall (fun e => length e = N)
                           (map2 (map2 Rmult) E0 (map normalized E1))).
  { rewrite map2_map_r.
    eapply map2_Forall; [|exact HF2].
    intros a b [Ha Hb]. rewrite map2_length, normalized_length. lia. }
  assert (Hprod_len : length (map2 (map2 Rmult) E0 (map normalized E1))
                      = numel (lead_axes 3 s)).
  { rewrite map2_map_r, (map2_length_Forall2 _ _ _ _ HF2). exact HlenE0. }
  assert (Hpar_F : Forall (fun e => length e = N) (map2 entry_parallel E0 E1)).
  { eapply map2_Forall; [|exact HF2].
    intros a b [Ha Hb]. now rewrite entry_parallel_length. }
  assert (Hpar_len : length (map2 entry_parallel E0 E1)
                     = numel (lead_axes 3 s))
    by (now rewrite (map2_length_Forall2 _ _ _ _ HF2)).
  (* normalize *)
  assert (H1 : normalize_chw (double v1)
               = Ok (mkTensor Float64 s (concat (map normalized E1)))).
  { unfold normalize_chw. simpl shape. rewrite <- Hs. fold s.
    destruct (Nat.ltb_spec (length s) 3) as [Hlt|_]; [lia|]. reflexivity. }
  (* v0 * v1 *)
  assert (H2 : tmul (double v0)
                    (mkTensor Float64 s (concat (map normalized E1)))
               = Ok (mkTensor Float64 s
                       (concat (map2 (map2 Rmult) E0 (map normalized E1))))).
  { unfold tmul.
    rewrite binop_same_shape;
      [|reflexivity|exact Hwf0|now apply wf_of_blocks].
    simpl. f_equal. f_equal.
    rewrite <- (entries_concat _ Hwf0). apply (products_blocks _ _ _ HF2). }
  (* sum over the last three axes *)
  assert (H3 : sum_chw (mkTensor Float64 s
                          (concat (map2 (map2 Rmult) E0 (map normalized E1))))
               = Ok (mkTensor Float64 (lead_axes 3 s ++ [1; 1; 1]%nat)
                       (map Rsum (map2 (map2 Rmult) E0 (map normalized E1))))).
  { unfold sum_chw. simpl shape.
    destruct (Nat.ltb_spec (length s) 3) as [Hlt|_]; [lia|].
    rewrite entries_of_blocks by assumption. reflexivity. }
  (* the sums times v1 *)
  assert (H4 : tmul (mkTensor Float64 (lead_axes 3 s ++ [1; 1; 1]%nat)
                       (map Rsum (map2 (map2 Rmult) E0 (map normalized E1))))
                    (mkTensor Float64 s (concat (map normalized E1)))
               = Ok (mkTensor Float64 s (concat (map2 entry_parallel E0 E1)))).
  { rewrite tmul_keepdim3.
    - simpl promote. f_equal. f_equal. apply (parallel_blocks _ _ _ HF2).
    - exact Hrank.
    - now rewrite length_map.
    - now apply (wf_of_blocks Float64). }
  (* v0 minus its parallel part *)
  assert (H5 : tsub (double v0)
                    (mkTensor Float64 s (concat (map2 entry_parallel E0 E1)))
               = Ok (mkTensor Float64 s
                       (concat (map2 entry_orthogonal E0 E1)))).
  { unfold tsub.
    rewrite binop_same_shape;
      [|reflexivity|exact Hwf0|now apply wf_of_blocks].
    simpl. f_equal. f_equal.
    rewrite <- (entries_concat _ Hwf0). apply (orthogonal_blocks _ _ _ HF2). }
  unfold project. rewrite H1. cbn [bind]. rewrite H2. cbn [bind].
  rewrite H3. cbn [bind]. rewrite H4. cbn [bind]. rewrite H5. cbn [bind].
  reflexivity.
Qed.

(** ** Inner products *)

Lemma dot_map_l (k : R) (a b : list R) :
  dot (map (Rmult k) a) b = k * dot a b.
Proof.
  unfold dot. revert b; induction a as [|x a IH]; intros [|y b]; simpl;
    try lra.
  rewrite IH. lra.
Qed.

Lemma dot_div_l (m : R) (a b : list R) :
  dot (map (fun x => x / m) a) b = dot a b / m.
Proof.
  unfold dot. revert b; induction a as [|x a IH]; intros [|y b]; simpl;
    unfold Rdiv in *; try lra.
  rewrite IH. lra.
Qed.

Lemma dot_div_r (m : R) (a b : list R) :
  dot a (map (fun x => x / m) b) = dot a b / m.
Proof.
  unfold dot. revert b; induction a as [|x a IH]; intros [|y b]; simpl;
    unfold Rdiv in *; try lra.
  rewrite IH. lra.
Qed.

Lemma dot_sub_l (a b c : list R) :
  length a = length b ->
  dot (map2 Rminus a b) c = dot a c - dot b c.
Proof.
  unfold dot. revert b c; induction a as [|x a IH]; intros [|y b] [|z c] H;
    simpl in *; try discriminate; try lra.
  rewrite IH by lia. lra.
Qed.

Lemma dot_self_nonneg (a : list R) : 0 <= dot a a.
Proof.
  unfold dot. induction a as [|x a IH]; simpl; [lra|].
  pose proof (Rle_0_sqr x) as Hx. unfold Rsqr in Hx. lra.
Qed.

Lemma norm2_sqr (a : list R) : norm2 a * norm2 a = dot a a.
Proof. unfold norm2. apply sqrt_sqrt, dot_self_nonneg. Qed.

Lemma normalize_eps_pos : 0 < normalize_eps.
Proof. unfold normalize_eps. apply Rinv_0_lt_compat. lra. Qed.

(** The divisor of the normalization is never zero. *)
Lemma normalize_divisor_pos (e : list R) : 0 < Rmax (norm2 e) normalize_eps.
Proof.
  eapply Rlt_le_trans; [apply normalize_eps_pos|apply Rmax_r].
Qed.

(** Above the clamp, [normalize] yields the unit vector. *)
Lemma normalized_unit (e : list R) :
  normalize_eps <= norm2 e -> normalized e = unit_vector e.
Proof.
  intros H. unfold normalized, unit_vector. now rewrite Rmax_left.
Qed.

Lemma entry_parallel_projection (e0 e1 : list R) :
  normalize_eps <= norm2 e1 -> entry_parallel e0 e1 = projection e0 e1.
Proof.
  intros H. unfold entry_parallel, projection. now rewrite normalized_unit.
Qed.

Lemma entry_orthogonal_dot (e0 e1 : list R) :
  length e0 = length e1 -> normalize_eps <= norm2 e1 ->
  dot (entry_orthogonal e0 e1) e1 = 0.
Proof.
  intros Hl H. unfold entry_orthogonal.
  rewrite dot_sub_l by (now rewrite entry_parallel_length).
  rewrite entry_parallel_projection by assumption.
  unfold projection, unit_vector.
  rewrite dot_map_l, dot_div_l, dot_div_r.
  pose proof (norm2_sqr e1) as Hn. pose proof normalize_eps_pos as Hpos.
  assert (Hne : norm2 e1 <> 0) by lra.
  rewrite <- Hn. field. exact Hne.
Qed.

Lemma map2_plus_minus (a b : list R) :
  length a = length b -> map2 Rplus b (map2 Rminus a b) = a.
Proof.
  revert b; induction a as [|x a IH]; intros [|y b] H; simpl in *;
    try discriminate; [reflexivity|].
  rewrite IH by lia. f_equal. lra.
Qed.

Lemma promote_same (d : dtype_t) : promote d d = d.
Proof. now destruct d. Qed.

(** ** The decomposition computed by [project] *)

Lemma sum_blocks (n : nat) (xs ys : list (list R)) :
  Forall2 (fun a b => length a = n /\ length b = n) xs ys ->
  map2 Rplus (concat (map2 entry_parallel xs ys))
             (concat (map2 entry_orthogonal xs ys))
  = concat xs.
Proof.
  induction 1 as [|a b xs ys [Ha Hb] _ IH]; simpl; [reflexivity|].
  rewrite map2_app, IH.
  - f_equal. unfold entry_orthogonal. apply map2_plus_minus.
    rewrite entry_parallel_length. lia.
  - rewrite entry_parallel_length, entry_orthogonal_length; lia.
Qed.

Lemma tensor_eta (t : tensor) : mkTensor (dtype t) (shape t) (data t) = t.
Proof. now destruct t. Qed.

(** C2, as amended: on well-formed tensors of one shape whose reference
    [v1] has, in every batch entry, a norm of at least the [eps] of
    [normalize], [project] returns a parallel and an orthogonal part that
    add up to [v0]; the parallel part is the per-entry inner product of
    [v0] with the unit-normalized [v1] times that unit vector, and the
    per-entry inner product of the orthogonal part with [v1] is zero. *)
Theorem project_decomposition (v0 v1 : tensor) :
  shape v0 = shape v1 -> (3 <= length (shape v0))%nat -> wf v0 -> wf v1 ->
  Forall (fun e => normalize_eps <= norm2 e) (entries v1) ->
  decomposes v0 v1.
Proof.
  intros Hs Hrank Hwf0 Hwf1 Hbig.
  assert (Hlen : length (entries v0) = length (entries v1))
    by (now rewrite !entries_length, Hs).
  pose proof (entries_Forall_length _ Hwf0) as HF0.
  pose proof (entries_Forall_length _ Hwf1) as HF1.
  rewrite <- Hs in HF1.
  pose proof (Forall2_entries _ _ _ Hlen HF0 HF1) as HF2.
  assert (HF3 : Forall2 (fun a b => (length a = length b)
                                    /\ normalize_eps <= norm2 b)
                        (entries v0) (entries v1)).
  { apply Forall2_impl with
      (P := fun a b => length a = numel (last_axes 3 (shape v0))
                       /\ (length b = numel (last_axes 3 (shape v0))
                           /\ normalize_eps <= norm2 b)).
    - intros a b (Ha & Hb & Hn). split; [congruence|exact Hn].
    - apply Forall2_same_length; [exact Hlen|exact HF0|].
      apply Forall_and; assumption. }
  assert (Hpar_F : Forall (fun e => length e = numel (last_axes 3 (shape v0)))
                          (map2 entry_parallel (entries v0) (entries v1))).
  { eapply map2_Forall; [|exact HF2].
    intros a b [Ha Hb]. now rewrite entry_parallel_length. }
  assert (Horth_F : Forall (fun e => length e
                                     = numel (last_axes 3 (shape v0)))
                           (map2 entry_orthogonal (entries v0) (entries v1))).
  { eapply map2_Forall; [|exact HF2].
    intros a b [Ha Hb]. rewrite entry_orthogonal_length; congruence. }
  assert (Hpar_len : length (map2 entry_parallel (entries v0) (entries v1))
                     = numel (lead_axes 3 (shape v0)))
    by (rewrite (map2_length_Forall2 _ _ _ _ HF2); apply entries_length).
  assert (Horth_len : length (map2 entry_orthogonal (entries v0) (entries v1))
                      = numel (lead_axes 3 (shape v0)))
    by (rewrite (map2_length_Forall2 _ _ _ _ HF2); apply entries_length).
  unfold decomposes. do 2 eexists.
  split; [apply project_same_shape; assumption|].
  split; [|split].
  - unfold tadd. rewrite binop_same_shape;
      [|reflexivity|now apply wf_of_blocks|now apply wf_of_blocks].
    simpl.
    rewrite promote_same, (sum_blocks _ _ _ HF2), (entries_concat _ Hwf0).
    now rewrite tensor_eta.
  - rewrite entries_of_blocks by assumption.
    eapply map2_ext_Forall2; [|exact HF3].
    intros a b [_ Hn]. now apply entry_parallel_projection.
  - rewrite entries_of_blocks by assumption.
    clear - HF3. induction HF3 as [|a b xs ys [Hl Hn] _ IH]; simpl;
      constructor; [|exact IH].
    now apply entry_orthogonal_dot.
Qed.

Lemma norm2_singleton (x : R) : 0 <= x -> norm2 [x] = x.
Proof.
  intros H. unfold norm2, dot. simpl.
  replace (x * x + 0) with (x * x) by lra. now apply sqrt_square.
Qed.

(** C2, as stated, fails on a nonzero reference whose norm lies below the
    clamp of [normalize]: the parallel part is then not the projection on
    the unit vector. *)
Lemma project_tiny_reference_counterexample :
  shape tiny_v0 = shape tiny_v1
  /\ wf tiny_v0 /\ wf tiny_v1
  /\ Forall nonzero_entry (entries tiny_v1)
  /\ ~ decomposes tiny_v0 tiny_v1.
Proof.
  assert (Htiny : 0 < / 10000000000000) by (apply Rinv_0_lt_compat; lra).
  split; [reflexivity|]. split; [reflexivity|]. split; [reflexivity|].
  split.
  - repeat constructor. lra.
  - intros (par & orth & Hp & _ & Hpar & _).
    rewrite project_same_shape in Hp;
      [|reflexivity|simpl; lia|reflexivity|reflexivity].
    inversion Hp; subst par orth; clear Hp.
    unfold entries in Hpar. simpl in Hpar.
    unfold projection, unit_vector, normalized, dot in Hpar. simpl in Hpar.
    rewrite norm2_singleton in Hpar by lra.
    rewrite Rmax_right in Hpar.
    2:{ unfold normalize_eps.
        apply Rlt_le, Rinv_lt_contravar; lra. }
    injection Hpar as Hpar. unfold normalize_eps in Hpar.
    assert (H1 : (1 * (/ 10000000000000 / / 1000000000000) + 0)
                 * (/ 10000000000000 / / 1000000000000) = 1 / 100)
      by (field; lra).
    assert (H2 : (1 * (/ 10000000000000 / / 10000000000000) + 0)
                 * (/ 10000000000000 / / 10000000000000) = 1)
      by (field; lra).
    rewrite H1, H2 in Hpar. lra.
Qed.

(** Two batch entries of norms 5 and 1. *)
Lemma project_decomposition_witness :
  decomposes (mkTensor Float32 [2; 1; 1; 2]%nat [1; 2; 3; 4])
             (mkTensor Float32 [2; 1; 1; 2]%nat [3; 4; 1; 0]).
Proof.
  apply project_decomposition;
    [reflexivity|simpl; lia|reflexivity|reflexivity|].
  pose proof normalize_eps_pos as Hpos.
  assert (Heps : normalize_eps <= 1).
  { unfold normalize_eps. lra. }
  unfold entries; simpl.
  constructor; [|constructor; [|constructor]]; unfold norm2, dot; simpl.
  - replace (3 * 3 + (4 * 4 + 0)) with (5 * 5) by lra.
    rewrite sqrt_square; lra.
  - replace (1 * 1 + (0 * 0 + 0)) with (1 * 1) by lra.
    rewrite sqrt_square; lra.
Defined.

(** ** [project] on a zero reference *)

Lemma chunks_repeat (x : R) (k n : nat) :
  chunks k n (repeat x (k * n)) = repeat (repeat x n) k.
Proof.
  induction k as [|k IH]; simpl; [reflexivity|].
  rewrite repeat_app, firstn_app, skipn_app, repeat_length, Nat.sub_diag.
  rewrite firstn_O, skipn_O, app_nil_r.
  rewrite firstn_all2, skipn_all2 by (rewrite repeat_length; lia).
  simpl. now rewrite IH.
Qed.

Lemma normalized_zeros (n : nat) : normalized (repeat 0 n) = repeat 0 n.
Proof.
  unfold normalized. rewrite map_repeat. f_equal.
  unfold Rdiv. apply Rmult_0_l.
Qed.

Lemma entry_parallel_zeros (e0 : list R) (n : nat) :
  entry_parallel e0 (repeat 0 n) = repeat 0 n.
Proof.
  unfold entry_parallel. rewrite normalized_zeros, map_repeat.
  f_equal. apply Rmult_0_r.
Qed.

Lemma map2_minus_zeros (e : list R) :
  map2 Rminus e (repeat 0 (length e)) = e.
Proof.
  induction e as [|x e IH]; simpl; [reflexivity|].
  rewrite IH. f_equal. lra.
Qed.

Lemma zero_blocks (n : nat) (xs : list (list R)) :
  Forall (fun a => length a = n) xs ->
  concat (map2 entry_parallel xs (repeat (repeat 0 n) (length xs)))
  = repeat 0 (length xs * n)
  /\ concat (map2 entry_orthogonal xs (repeat (repeat 0 n) (length xs)))
     = concat xs.
Proof.
  induction 1 as [|a xs Ha _ [IH1 IH2]]; simpl; [split; reflexivity|].
  rewrite IH1, IH2. unfold entry_orthogonal.
  rewrite entry_parallel_zeros, repeat_app. split; [reflexivity|].
  f_equal. rewrite <- Ha. apply map2_minus_zeros.
Qed.

(** C5: on an all-zero reference [v1] of the shape of [v0], [project]
    raises no error: the divisor of the normalization of every batch entry
    is positive (it is the [eps] clamp), the parallel part returned is the
    zero tensor and the orthogonal part is [v0]. *)
Theorem project_zero_reference (v0 v1 : tensor) :
  shape v1 = shape v0 -> (3 <= length (shape v0))%nat -> wf v0 ->
  data v1 = repeat 0 (numel (shape v0)) ->
  Forall (fun e => 0 < Rmax (norm2 e) normalize_eps) (entries v1)
  /\ project v0 v1
     = Ok (mkTensor (dtype v0) (shape v0) (repeat 0 (numel (shape v0))), v0).
Proof.
  intros Hs Hrank Hwf0 Hz. split.
  - apply Forall_forall. intros e _. apply normalize_divisor_pos.
  - assert (Hwf1 : wf v1)
      by (unfold wf; now rewrite Hz, repeat_length, Hs).
    rewrite project_same_shape by (auto; congruence).
    assert (HE1 : entries v1
                  = repeat (repeat 0 (numel (last_axes 3 (shape v0))))
                           (length (entries v0))).
    { unfold entries at 1. rewrite Hz, Hs, (numel_split 3 (shape v0)).
      rewrite chunks_repeat. now rewrite entries_length. }
    rewrite HE1.
    destruct (zero_blocks _ _ (entries_Forall_length _ Hwf0)) as [H1 H2].
    rewrite H1, H2, (entries_concat _ Hwf0), tensor_eta.
    rewrite entries_length, <- numel_split. reflexivity.
Qed.

Lemma project_zero_reference_witness :
  Forall (fun e => 0 < Rmax (norm2 e) normalize_eps)
         (entries (mkTensor Float16 [2; 1; 1; 2]%nat [0; 0; 0; 0]))
  /\ project (mkTensor Float16 [2; 1; 1; 2]%nat [1; 2; 3; 4])
             (mkTensor Float16 [2; 1; 1; 2]%nat [0; 0; 0; 0])
     = Ok (mkTensor Float16 [2; 1; 1; 2]%nat [0; 0; 0; 0],
           mkTensor Float16 [2; 1; 1; 2]%nat [1; 2; 3; 4]).
Proof.
  apply (project_zero_reference
           (mkTensor Float16 [2; 1; 1; 2]%nat [1; 2; 3; 4])
           (mkTensor Float16 [2; 1; 1; 2]%nat [0; 0; 0; 0]));
    [reflexivity|simpl; lia|reflexivity|reflexivity].
Defined.

(** ** Cropping *)

Lemma length_concat_uniform (n : nat) (l : list (list R)) :
  Forall (fun c => length c = n) l ->
  length (concat l) = (length l * n)%nat.
Proof.
  induction 1 as [|c l Hc _ IH]; simpl; [reflexivity|].
  rewrite length_app, IH, Hc. reflexivity.
Qed.

Lemma shape_last2 (s : list nat) (W H : nat) (rlead : list nat) :
  rev s = W :: H :: rlead -> s = rev rlead ++ [H; W].
Proof.
  intros E. rewrite <- (rev_involutive s), E. simpl.
  now rewrite <- app_assoc.
Qed.

Lemma crop_hw_shape (h w : nat) (t t' : tensor) :
  crop_hw h w t = Ok t' ->
  exists lead H W,
    shape t = lead ++ [H; W]
    /\ shape t' = lead ++ [Nat.min h H; Nat.min w W]
    /\ dtype t' = dtype t.
Proof.
  unfold crop_hw. intros E.
  destruct (rev (shape t)) as [|W [|H rlead]] eqn:Er; try discriminate.
  inversion E; subst t'; clear E. simpl.
  exists (rev rlead), H, W. repeat split. now apply shape_last2.
Qed.

Lemma crop_hw_ok (h w : nat) (t : tensor) :
  (2 <= length (shape t))%nat -> exists t', crop_hw h w t = Ok t'.
Proof.
  unfold crop_hw. intros Hr. rewrite <- length_rev in Hr.
  destruct (rev (shape t)) as [|W [|H rlead]]; simpl in Hr; try lia.
  eexists. reflexivity.
Qed.

Lemma crop_hw_wf (h w : nat) (t t' : tensor) :
  wf t -> crop_hw h w t = Ok t' -> wf t'.
Proof.
  unfold crop_hw, wf. intros Hwf E.
  destruct (rev (shape t)) as [|W [|H rlead]] eqn:Er; try discriminate.
  inversion E; subst t'; clear E. simpl.
  apply shape_last2 in Er. rewrite Er, numel_app in Hwf. simpl in Hwf.
  rewrite numel_app. simpl.
  rewrite length_concat_uniform
    with (n := (Nat.min h H * Nat.min w W)%nat).
  - rewrite length_map, chunks_length. ring.
  - apply Forall_map.
    eapply Forall_impl;
      [|apply chunks_Forall_length with (n := (H * W)%nat); rewrite Hwf; ring].
    intros m Hm. simpl in Hm |- *.
    rewrite length_concat_uniform with (n := Nat.min w W).
    + rewrite length_map, length_firstn, chunks_length. reflexivity.
    + apply Forall_map.
      assert (HF : Forall (fun r => length r = W) (chunks H W m))
        by (apply chunks_Forall_length; exact Hm).
      clear - HF. revert h.
      induction HF as [|r rs Hr _ IH]; intros [|h]; simpl; constructor.
      * rewrite length_firstn. lia.
      * apply IH.
Qed.

Lemma crop_hw_same_shape (h w : nat) (a b a' : tensor) :
  shape a = shape b -> crop_hw h w a = Ok a' ->
  exists b', crop_hw h w b = Ok b' /\ shape b' = shape a'
             /\ dtype b' = dtype b.
Proof.
  unfold crop_hw. intros Hs E. rewrite <- Hs.
  destruct (rev (shape a)) as [|W [|H rlead]]; try discriminate.
  inversion E; subst a'; clear E. eexists. repeat split.
Qed.

(** ** Elementwise operators on tensors of one shape *)

Lemma binop_ok_same_shape (f : R -> R -> R) (a b : tensor) :
  shape a = shape b -> wf a -> wf b ->
  exists t, binop f a b = Ok t
            /\ shape t = shape a
            /\ dtype t = promote (dtype a) (dtype b)
            /\ data t = map2 f (data a) (data b)
            /\ wf t.
Proof.
  intros Hs Ha Hb. rewrite binop_same_shape by assumption.
  eexists. repeat split. unfold wf in *. simpl.
  rewrite map2_length, Hb, <- Hs, Ha. lia.
Qed.

Lemma project_ok_same_shape (v0 v1 : tensor) :
  shape v0 = shape v1 -> (3 <= length (shape v0))%nat -> wf v0 -> wf v1 ->
  exists par orth,
    project v0 v1 = Ok (par, orth)
    /\ shape par = shape v0 /\ shape orth = shape v0
    /\ dtype par = dtype v0 /\ dtype orth = dtype v0
    /\ wf par /\ wf orth.
Proof.
  intros Hs Hrank Hwf0 Hwf1.
  assert (Hlen : length (entries v0) = length (entries v1))
    by (now rewrite !entries_length, Hs).
  pose proof (entries_Forall_length _ Hwf0) as HF0.
  pose proof (entries_Forall_length _ Hwf1) as HF1.
  rewrite <- Hs in HF1.
  pose proof (Forall2_entries _ _ _ Hlen HF0 HF1) as HF2.
  rewrite project_same_shape by assumption.
  do 2 eexists. split; [reflexivity|]. repeat split.
  - apply wf_of_blocks.
    + rewrite (map2_length_Forall2 _ _ _ _ HF2). apply entries_length.
    + eapply map2_Forall; [|exact HF2].
      intros a b [Ha Hb]. now rewrite entry_parallel_length.
  - apply wf_of_blocks.
    + rewrite (map2_length_Forall2 _ _ _ _ HF2). apply entries_length.
    + eapply map2_Forall; [|exact HF2].
      intros a b [Ha Hb]. rewrite entry_orthogonal_length; congruence.
Qed.

Lemma smul_wf (c : R) (t : tensor) : wf t -> wf (smul c t).
Proof. unfold wf. simpl. now rewrite length_map. Qed.

Lemma map2_plus_zero_scaled (a b : list R) :
  length a = length b -> map2 Rplus a (map (Rmult (1 - 1)) b) = a.
Proof.
  revert b; induction a as [|x a IH]; intros [|y b] H; simpl in *;
    try discriminate; [reflexivity|].
  rewrite IH by lia. f_equal. lra.
Qed.

(** ** The guidance mixer *)


Lemma guided_level_identity (original_size : list nat) (idx : nat)
      (c u : tensor) :
  paired_level c u ->
  guided_level original_size idx c u 1 1
  = (' (h, w) <- level_size original_size idx ;; crop_hw h w c).
Proof.
  intros (Hs & Hd & Hwc & Hwu & Hrank). unfold guided_level.
  destruct (level_size original_size idx) as [[h w]|e]; [|reflexivity].
  cbn [bind].
  destruct (crop_hw_ok h w c ltac:(lia)) as [c' Hc]. rewrite Hc.
  destruct (crop_hw_same_shape h w c u c' Hs Hc) as (u' & Hu & Hsu & Hdu).
  rewrite Hu. cbn [bind].
  pose proof (crop_hw_wf _ _ _ _ Hwc Hc) as Hwc'.
  pose proof (crop_hw_wf _ _ _ _ Hwu Hu) as Hwu'.
  destruct (crop_hw_shape _ _ _ _ Hc) as (lead & H & W & Hsc & Hsc' & Hdc).
  assert (Hrank' : (3 <= length (shape c'))%nat).
  { rewrite Hsc'. rewrite Hsc in Hrank. rewrite length_app in *. exact Hrank. }
  destruct (binop_ok_same_shape Rminus c' u' (eq_sym Hsu) Hwc' Hwu')
    as (diff & Hdiff & Hsd & Hdd & _ & Hwd).
  unfold tsub. rewrite Hdiff. cbn [bind].
  destruct (project_ok_same_shape diff c' Hsd ltac:(congruence) Hwd Hwc')
    as (par & orth & Hp & Hsp & Hso & Hdp & Hdo & Hwp & Hwo).
  rewrite Hp. cbn [bind].
  destruct (binop_ok_same_shape Rplus (smul 1 par) orth
              ltac:(simpl; congruence) (smul_wf 1 par Hwp) Hwo)
    as (d2 & Hd2 & Hsd2 & Hdd2 & _ & Hwd2).
  unfold tadd. rewrite Hd2. cbn [bind].
  simpl in Hsd2, Hdd2.
  rewrite binop_same_shape;
    [|simpl; congruence|exact Hwc'|now apply smul_wf].
  simpl. rewrite map2_plus_zero_scaled
    by (unfold wf in *; rewrite Hwc', Hwd2; congruence).
  f_equal. rewrite <- (tensor_eta c') at 4. f_equal.
  rewrite Hdd2, Hdp, Hdo, Hdd, Hdu, Hdc, Hd, !promote_same.
  reflexivity.
Qed.

Section Mixer.

Variable pyrup : tensor -> result tensor.
Variable build_laplacian_pyramid : tensor -> nat -> result (list tensor).

Lemma guided_pyramid_identity (original_size : list nat) (idx n : nat)
      (cs us : list tensor) :
  Forall2 paired_level cs us ->
  guided_pyramid original_size idx cs us (repeat 1 n) (repeat 1 n)
  = cropped_pyramid original_size idx cs n.
Proof.
  intros HF. revert idx n.
  induction HF as [|c u cs us Hcu _ IH]; intros idx [|n]; simpl;
    try reflexivity.
  rewrite guided_level_identity by exact Hcu.
  destruct (level_size original_size idx) as [[h w]|e]; [|reflexivity].
  cbn [bind]. destruct (crop_hw h w c); [|reflexivity].
  cbn [bind]. now rewrite IH.
Qed.

(** C1: with every guidance scale and every parallel weight equal to 1,
    every guided level is the cropped level of the conditional pyramid,
    so the output is the reconstruction of the cropped conditional
    pyramid, cast to the dtype of [pred_cond]: the guidance arithmetic
    contributes nothing.  The hypothesis is what kornia provides for
    equal-shaped inputs: the two pyramids have as many levels, level by
    level of one shape and dtype, every level holding a well-formed
    tensor of rank at least three. *)
Theorem identity_guidance (pred_cond pred_uncond : tensor) (L : nat) :
  (forall cp up,
      build_laplacian_pyramid pred_cond L = Ok cp ->
      build_laplacian_pyramid pred_uncond L = Ok up ->
      Forall2 paired_level cp up) ->
  (forall cp up,
      build_laplacian_pyramid pred_cond L = Ok cp ->
      build_laplacian_pyramid pred_uncond L = Ok up ->
      guided_pyramid (last_axes 2 (shape pred_cond)) 0 cp up
                     (repeat 1 L) (repeat 1 L)
      = cropped_pyramid (last_axes 2 (shape pred_cond)) 0 cp L)
  /\ laplacian_guidance pyrup build_laplacian_pyramid pred_cond pred_uncond
                        (repeat 1 L) (Some (repeat 1 L))
     = (cp <- build_laplacian_pyramid pred_cond L ;;
        _ <- build_laplacian_pyramid pred_uncond L ;;
        cropped <- cropped_pyramid (last_axes 2 (shape pred_cond)) 0 cp L ;;
        img <- build_image_from_pyramid pyrup cropped ;;
        Ok (to_dtype (dtype pred_cond) img)).
Proof.
  intros Hlevels.
  assert (Hloop : forall cp up,
             build_laplacian_pyramid pred_cond L = Ok cp ->
             build_laplacian_pyramid pred_uncond L = Ok up ->
             guided_pyramid (last_axes 2 (shape pred_cond)) 0 cp up
                            (repeat 1 L) (repeat 1 L)
             = cropped_pyramid (last_axes 2 (shape pred_cond)) 0 cp L).
  { intros cp up Hc Hu. apply guided_pyramid_identity.
    now apply Hlevels. }
  split; [exact Hloop|].
  unfold laplacian_guidance. rewrite repeat_length.
  destruct (build_laplacian_pyramid pred_cond L) as [cp|e] eqn:Hc;
    [|reflexivity].
  destruct (build_laplacian_pyramid pred_uncond L) as [up|e] eqn:Hu;
    [|reflexivity].
  cbn [bind]. now rewrite (Hloop cp up eq_refl eq_refl).
Qed.

(** The loop reads the parallel weights only as far as the guidance
    scales reach. *)
Lemma guided_pyramid_truncate (original_size : list nat) (idx : nat)
      (cs us : list tensor) (gs ws : list R) :
  guided_pyramid original_size idx cs us gs ws
  = guided_pyramid original_size idx cs us gs (firstn (length gs) ws).
Proof.
  revert idx cs us ws.
  induction gs as [|g gs IH]; intros idx [|c cs] [|u us] [|w ws]; simpl;
    try reflexivity.
  now rewrite <- IH.
Qed.

Lemma guided_pyramid_length (original_size : list nat) (idx : nat)
      (cs us : list tensor) (gs ws : list R) (g : list tensor) :
  guided_pyramid original_size idx cs us gs ws = Ok g ->
  (length g <= length gs)%nat.
Proof.
  revert idx cs us ws g.
  induction gs as [|s gs IH]; intros idx [|c cs] [|u us] [|w ws] g;
    simpl; intros E; try (inversion E; simpl; lia).
  destruct (guided_level original_size idx c u s w); [|discriminate].
  cbn [bind] in E.
  destruct (guided_pyramid original_size (S idx) cs us gs ws) as [r|e]
    eqn:Er; [|discriminate].
  inversion E; subst g. simpl. apply IH in Er. lia.
Qed.

(** C10: parallel weights beyond the number of guidance scales are
    ignored: the call returns what the call with the weights truncated
    to [len(guidance_scale)] entries returns, result or error, and the
    loop never produces more levels than there are guidance scales. *)
Theorem laplacian_guidance_extra_weights (pred_cond pred_uncond : tensor)
        (guidance_scale parallel_weights : list R) :
  (length guidance_scale < length parallel_weights)%nat ->
  laplacian_guidance pyrup build_laplacian_pyramid pred_cond pred_uncond
                     guidance_scale (Some parallel_weights)
  = laplacian_guidance pyrup build_laplacian_pyramid pred_cond pred_uncond
      guidance_scale
      (Some (firstn (length guidance_scale) parallel_weights))
  /\ (forall cp up g,
         guided_pyramid (last_axes 2 (shape pred_cond)) 0 cp up
                        guidance_scale parallel_weights = Ok g ->
         (length g <= length guidance_scale)%nat).
Proof.
  intros _. split.
  - unfold laplacian_guidance.
    destruct (build_laplacian_pyramid pred_cond (length guidance_scale));
      [|reflexivity].
    destruct (build_laplacian_pyramid pred_uncond (length guidance_scale));
      [|reflexivity].
    cbn [bind]. now rewrite <- guided_pyramid_truncate.
  - intros cp up g. apply guided_pyramid_length.
Qed.

End Mixer.


Lemma demo_levels (cp up : list tensor) :
  ref_build_laplacian_pyramid demo_cond 2 = Ok cp ->
  ref_build_laplacian_pyramid demo_uncond 2 = Ok up ->
  Forall2 paired_level cp up.
Proof.
  intros Hc Hu. inversion Hc; inversion Hu; subst cp up.
  repeat constructor.
Qed.

Lemma identity_guidance_witness :
  (forall cp up,
      ref_build_laplacian_pyramid demo_cond 2 = Ok cp ->
      ref_build_laplacian_pyramid demo_uncond 2 = Ok up ->
      guided_pyramid (last_axes 2 (shape demo_cond)) 0 cp up
                     (repeat 1 2) (repeat 1 2)
      = cropped_pyramid (last_axes 2 (shape demo_cond)) 0 cp 2)
  /\ laplacian_guidance ref_pyrup ref_build_laplacian_pyramid
                        demo_cond demo_uncond (repeat 1 2) (Some (repeat 1 2))
     = (cp <- ref_build_laplacian_pyramid demo_cond 2 ;;
        _ <- ref_build_laplacian_pyramid demo_uncond 2 ;;
        cropped <- cropped_pyramid (last_axes 2 (shape demo_cond)) 0 cp 2 ;;
        img <- build_image_from_pyramid ref_pyrup cropped ;;
        Ok (to_dtype (dtype demo_cond) img)).
Proof.
  apply (identity_guidance ref_pyrup ref_build_laplacian_pyramid
                           demo_cond demo_uncond 2).
  exact demo_levels.
Defined.

(** With unit scales and weights on the reference pyramid, whose
    reconstruction is exact, the mixer gives back [pred_cond]. *)
Example identity_guidance_example :
  exists t,
    laplacian_guidance ref_pyrup ref_build_laplacian_pyramid
                       demo_cond demo_uncond [1; 1] None = Ok t
    /\ dtype t = Float32 /\ shape t = [1; 1; 2; 2]%nat
    /\ Forall2 eq (data t) [1; 2; 3; 4].
Proof.
  destruct ref_pyramid_example as (_ & _ & Ec).
  assert (Eu : exists up, ref_build_laplacian_pyramid demo_uncond 2 = Ok up)
    by (eexists; reflexivity).
  destruct Eu as [up Eu].
  unfold laplacian_guidance.
  change (length [1; 1]) with 2%nat. rewrite Ec, Eu. cbn [bind].
  change [1; 1] with (repeat 1 2).
  rewrite guided_pyramid_identity by (now apply demo_levels).
  eexists. split; [reflexivity|]. split; [reflexivity|].
  split; [reflexivity|].
  simpl. repeat constructor; lra.
Qed.

Lemma laplacian_guidance_extra_weights_witness :
  laplacian_guidance ref_pyrup ref_build_laplacian_pyramid
                     demo_cond demo_uncond [3; 2] (Some [1; 5 / 10; 7; 9])
  = laplacian_guidance ref_pyrup ref_build_laplacian_pyramid
                       demo_cond demo_uncond [3; 2]
                       (Some (firstn (length [3; 2]) [1; 5 / 10; 7; 9]))
  /\ (forall cp up g,
         guided_pyramid (last_axes 2 (shape demo_cond)) 0 cp up
                        [3; 2] [1; 5 / 10; 7; 9] = Ok g ->
         (length g <= length [3; 2])%nat).
Proof.
  apply (laplacian_guidance_extra_weights
           ref_pyrup ref_build_laplacian_pyramid demo_cond demo_uncond
           [3; 2] [1; 5 / 10; 7; 9]).
  simpl. lia.
Defined.

(** On the two images the mixer runs to the end. *)
Lemma demo_guidance_returns :
  exists t,
    laplacian_guidance ref_pyrup ref_build_laplacian_pyramid
                       demo_cond demo_uncond [3; 2] (Some [1; 5 / 10; 7; 9])
    = Ok t.
Proof. eexists. reflexivity. Qed.

(** ** Shapes through the mixer *)

Lemma binop_shape (f : R -> R -> R) (a b t : tensor) :
  binop f a b = Ok t ->
  broadcast_shapes (shape a) (shape b) = Some (shape t)
  /\ dtype t = promote (dtype a) (dtype b).
Proof.
  unfold binop. destruct (broadcast_shapes (shape a) (shape b));
    intros E; inversion E; subst t; simpl; auto.
Qed.

Lemma binop_shape_same (f : R -> R -> R) (a b t : tensor) :
  binop f a b = Ok t -> shape a = shape b -> shape t = shape a.
Proof.
  intros E Hs. apply binop_shape in E. destruct E as [E _].
  rewrite <- Hs, broadcast_shapes_same in E. now inversion E.
Qed.

Lemma broadcast_shapes_keepdim3 (s : list nat) :
  (3 <= length s)%nat ->
  broadcast_shapes (lead_axes 3 s ++ [1; 1; 1]%nat) s = Some s.
Proof.
  intros Hrank.
  pose proof (broadcast_shapes_keepdim (lead_axes 3 s) (last_axes 3 s)) as H.
  rewrite lead_last_axes, (last_axes_length 3 s Hrank) in H. exact H.
Qed.

Lemma project_shape (v0 v1 par orth : tensor) :
  project v0 v1 = Ok (par, orth) -> shape v0 = shape v1 ->
  shape par = shape v0 /\ shape orth = shape v0.
Proof.
  unfold project, normalize_chw, sum_chw. intros E Hs. simpl shape in E.
  rewrite <- Hs in E.
  destruct (Nat.ltb_spec (length (shape v0)) 3) as [|Hrank];
    [discriminate|].
  cbn [bind] in E.
  destruct (tmul (double v0) _) as [p|] eqn:Hp; [|discriminate].
  cbn [bind] in E.
  apply binop_shape_same in Hp; [|simpl; congruence]. simpl in Hp.
  rewrite Hp in E.
  destruct (Nat.ltb_spec (length (shape v0)) 3) as [|_]; [lia|].
  cbn [bind] in E.
  destruct (tmul _ _) as [q|] eqn:Hq in E; [|discriminate].
  cbn [bind] in E.
  apply binop_shape in Hq. destruct Hq as [Hq _]. simpl in Hq.
  rewrite broadcast_shapes_keepdim3 in Hq by lia.
  inversion Hq as [Hq'].
  destruct (tsub (double v0) q) as [o|] eqn:Ho; [|discriminate].
  apply binop_shape_same in Ho; [|simpl; congruence]. simpl in Ho.
  inversion E; subst par orth. simpl. split; congruence.
Qed.

Lemma crop_hw_covering (b c H W idx : nat) (t t' : tensor) :
  covers_level b c H W idx t ->
  crop_hw (H / 2 ^ idx) (W / 2 ^ idx) t = Ok t' ->
  exact_level b c H W idx t'.
Proof.
  intros (h & w & Hs & Hh & Hw) E. unfold crop_hw in E.
  rewrite Hs in E. simpl in E. inversion E; subst t'. unfold exact_level.
  simpl. now rewrite !Nat.min_l by assumption.
Qed.

Section MixerShapes.

Variable pyrup : tensor -> result tensor.
Hypothesis pyrup_shapes : pyrup_contract pyrup.

Variables b c H W : nat.

Lemma guided_level_shape (idx : nat) (pc pu g : tensor) (s w : R) :
  covers_level b c H W idx pc -> covers_level b c H W idx pu ->
  guided_level [H; W] idx pc pu s w = Ok g ->
  exact_level b c H W idx g.
Proof.
  intros Hc Hu E. unfold guided_level in E. simpl in E.
  destruct (crop_hw _ _ pc) as [pc'|] eqn:Ec; [|discriminate].
  cbn [bind] in E.
  destruct (crop_hw _ _ pu) as [pu'|] eqn:Eu; [|discriminate].
  cbn [bind] in E.
  apply (crop_hw_covering _ _ _ _ _ _ _ Hc) in Ec.
  apply (crop_hw_covering _ _ _ _ _ _ _ Hu) in Eu.
  unfold exact_level in *.
  destruct (tsub pc' pu') as [d|] eqn:Ed; [|discriminate].
  cbn [bind] in E.
  apply binop_shape_same in Ed; [|congruence].
  destruct (project d pc') as [[par orth]|] eqn:Ep; [|discriminate].
  cbn [bind] in E.
  apply project_shape in Ep; [|assumption]. destruct Ep as [Hpar Horth].
  destruct (tadd (smul w par) orth) as [d2|] eqn:Ed2; [|discriminate].
  cbn [bind] in E.
  apply binop_shape_same in Ed2; [|simpl; congruence]. simpl in Ed2.
  apply binop_shape_same in E; [|simpl; congruence]. congruence.
Qed.

Lemma guided_pyramid_shapes (idx : nat) (cs us g : list tensor)
      (gs ws : list R) :
  levels_from (covers_level b c H W) idx cs ->
  levels_from (covers_level b c H W) idx us ->
  guided_pyramid [H; W] idx cs us gs ws = Ok g ->
  levels_from (exact_level b c H W) idx g.
Proof.
  revert idx us g gs ws.
  induction cs as [|pc cs IH]; intros idx [|pu us] g [|s gs] [|w ws];
    simpl; intros Hc Hu E; try (inversion E; exact I).
  destruct Hc as [Hc Hcs]. destruct Hu as [Hu Hus].
  destruct (guided_level [H; W] idx pc pu s w) as [g0|] eqn:E0;
    [|discriminate].
  cbn [bind] in E.
  destruct (guided_pyramid [H; W] (S idx) cs us gs ws) as [r|] eqn:Er.
  2:discriminate.
  inversion E; subst g. simpl. split.
  - exact (guided_level_shape idx pc pu g0 s w Hc Hu E0).
  - exact (IH (S idx) us r gs ws Hcs Hus Er).
Qed.

Lemma build_image_cons (g : tensor) (gs : list tensor) :
  gs <> [] ->
  build_image_from_pyramid pyrup (g :: gs)
  = pyramid_step pyrup (build_image_from_pyramid pyrup gs) g.
Proof.
  intros Hne. unfold build_image_from_pyramid. simpl.
  destruct (rev gs) as [|coarsest finer] eqn:Er.
  - apply (f_equal (@rev tensor)) in Er.
    rewrite rev_involutive in Er. contradiction.
  - simpl. now rewrite fold_left_app.
Qed.

Lemma half_level (n idx : nat) :
  (n / 2 ^ S idx = n / 2 ^ idx / 2)%nat.
Proof.
  rewrite Nat.pow_succ_r', (Nat.mul_comm 2).
  symmetry. apply Nat.Div0.div_div.
Qed.

Lemma broadcast_no_unit (h1 w1 h2 w2 : nat) (s : list nat) :
  h1 <> 1%nat -> w1 <> 1%nat -> h2 <> 1%nat -> w2 <> 1%nat ->
  broadcast_shapes [b; c; h1; w1] [b; c; h2; w2] = Some s ->
  s = [b; c; h2; w2].
Proof.
  intros Nh1 Nw1 Nh2 Nw2. unfold broadcast_shapes. simpl.
  unfold broadcast_dim. rewrite !Nat.eqb_refl.
  destruct (Nat.eqb_spec w1 w2) as [->|Nw];
    [|destruct (Nat.eqb_spec w1 1); [contradiction|];
      destruct (Nat.eqb_spec w2 1); [contradiction|discriminate]].
  destruct (Nat.eqb_spec h1 h2) as [->|Nh];
    [|destruct (Nat.eqb_spec h1 1); [contradiction|];
      destruct (Nat.eqb_spec h2 1); [contradiction|discriminate]].
  simpl. intros E. now inversion E.
Qed.

Lemma broadcast_doubled (h' w' : nat) (s : list nat) :
  (0 < h' / 2)%nat -> (0 < w' / 2)%nat ->
  broadcast_shapes [b; c; 2 * (h' / 2); 2 * (w' / 2)]%nat [b; c; h'; w']
  = Some s ->
  s = [b; c; h'; w'].
Proof.
  intros Hh Hw. apply broadcast_no_unit; try lia.
  - intros ->. simpl in Hh. lia.
  - intros ->. simpl in Hw. lia.
Qed.

Lemma build_image_shape (idx : nat) (g : list tensor) (t : tensor) :
  levels_from (exact_level b c H W) idx g ->
  build_image_from_pyramid pyrup g = Ok t ->
  exact_level b c H W idx t.
Proof.
  revert idx t. induction g as [|g0 gs IH]; intros idx t Hl E.
  - discriminate.
  - destruct Hl as [H0 Hl]. destruct gs as [|g1 gs].
    + inversion E; subst t. exact H0.
    + rewrite build_image_cons in E by discriminate.
      unfold pyramid_step in E.
      destruct (build_image_from_pyramid pyrup (g1 :: gs)) as [img|] eqn:Ei;
        [|discriminate].
      cbn [bind] in E.
      specialize (IH (S idx) img Hl eq_refl).
      destruct (pyrup img) as [up|] eqn:Eu; [|discriminate].
      cbn [bind] in E.
      destruct (pyrup_shapes _ _ Eu) as (b' & c' & h & w & Hs & Hh & Hw & Hup).
      unfold exact_level in IH, H0 |- *. rewrite !half_level in IH.
      rewrite IH in Hs. injection Hs as Eb Ec Eh Ew. subst b' c' h w.
      apply binop_shape in E. destruct E as [E _].
      rewrite Hup, H0 in E.
      now apply broadcast_doubled in E.
Qed.

End MixerShapes.

Section MixerResult.

Variable pyrup : tensor -> result tensor.
Variable build_laplacian_pyramid : tensor -> nat -> result (list tensor).
Hypothesis pyrup_shapes : pyrup_contract pyrup.

Variables b c H W : nat.
Variables pred_cond pred_uncond : tensor.
Variable guidance_scale : list R.
Variable parallel_weights : option (list R).

Hypothesis cond_shape : shape pred_cond = [b; c; H; W].
Hypothesis cond_levels :
  forall cp,
    build_laplacian_pyramid pred_cond (length guidance_scale) = Ok cp ->
    levels_from (covers_level b c H W) 0 cp.
Hypothesis uncond_levels :
  forall up,
    build_laplacian_pyramid pred_uncond (length guidance_scale) = Ok up ->
    levels_from (covers_level b c H W) 0 up.

Lemma laplacian_guidance_result_shape (t : tensor) :
  laplacian_guidance pyrup build_laplacian_pyramid pred_cond pred_uncond
                     guidance_scale parallel_weights = Ok t ->
  shape t = shape pred_cond /\ dtype t = dtype pred_cond.
Proof.
  unfold laplacian_guidance. intros E.
  destruct (build_laplacian_pyramid pred_cond _) as [cp|] eqn:Ec;
    [|discriminate].
  destruct (build_laplacian_pyramid pred_uncond _) as [up|] eqn:Eu;
    [|discriminate].
  cbn [bind] in E.
  destruct (guided_pyramid _ _ _ _ _ _) as [g|] eqn:Eg in E;
    [|discriminate].
  cbn [bind] in E.
  destruct (build_image_from_pyramid pyrup g) as [img|] eqn:Ei;
    [|discriminate].
  inversion E; subst t. simpl. split; [|reflexivity].
  rewrite cond_shape in Eg. change (last_axes 2 [b; c; H; W]) with [H; W] in Eg.
  apply (guided_pyramid_shapes b c H W) in Eg; auto.
  apply (build_image_shape pyrup pyrup_shapes b c H W 0 g img Eg) in Ei.
  unfold exact_level in Ei. change (2 ^ 0)%nat with 1%nat in Ei.
  rewrite !Nat.div_1_r in Ei. congruence.
Qed.

End MixerResult.

(** ** When the mixer returns *)

Lemma binop_ok_shape (f : R -> R -> R) (a b : tensor) :
  shape a = shape b ->
  exists t, binop f a b = Ok t /\ shape t = shape a.
Proof.
  intros Hs. unfold binop. rewrite <- Hs, broadcast_shapes_same.
  eexists. split; reflexivity.
Qed.

Lemma project_ok (v0 v1 : tensor) :
  shape v0 = shape v1 -> (3 <= length (shape v0))%nat ->
  exists par orth, project v0 v1 = Ok (par, orth).
Proof.
  intros Hs Hrank. unfold project, normalize_chw, sum_chw. simpl shape.
  rewrite <- Hs.
  destruct (Nat.ltb_spec (length (shape v0)) 3) as [|_]; [lia|].
  cbn [bind].
  destruct (binop_ok_shape Rmult (double v0)
              (mkTensor Float64 (shape v0)
                 (concat (map normalized (entries (double v1)))))
              eq_refl) as (p & Hp & Hsp).
  unfold tmul at 1. simpl dtype. rewrite Hp. cbn [bind].
  simpl in Hsp. rewrite Hsp.
  destruct (Nat.ltb_spec (length (shape v0)) 3) as [|_]; [lia|].
  cbn [bind]. unfold tmul, binop at 1. simpl shape.
  rewrite broadcast_shapes_keepdim3 by assumption. cbn [bind].
  match goal with
  | |- context [tsub ?a ?q] =>
      destruct (binop_ok_shape Rminus a q eq_refl) as (o & Ho & _)
  end.
  unfold tsub. rewrite Ho. cbn [bind]. do 2 eexists. reflexivity.
Qed.

Lemma pow2_divide (i j n : nat) :
  (i <= j)%nat -> Nat.divide (2 ^ j) n -> Nat.divide (2 ^ i) n.
Proof.
  intros Hij Hd. apply Nat.divide_trans with (m := (2 ^ j)%nat); [|exact Hd].
  exists (2 ^ (j - i))%nat. rewrite <- Nat.pow_add_r. f_equal. lia.
Qed.

Lemma div_pow2_even (i n : nat) :
  Nat.divide (2 ^ S i) n -> (2 * (n / 2 ^ S i) = n / 2 ^ i)%nat.
Proof.
  intros [q Hq]. subst n.
  rewrite Nat.div_mul by (apply Nat.pow_nonzero; lia).
  rewrite Nat.pow_succ_r', Nat.mul_assoc.
  rewrite Nat.div_mul by (apply Nat.pow_nonzero; lia). lia.
Qed.

Lemma div_pow2_pos (i n : nat) :
  Nat.divide (2 ^ i) n -> (0 < n)%nat -> (0 < n / 2 ^ i)%nat.
Proof.
  intros [q Hq] Hn. subst n.
  rewrite Nat.div_mul by (apply Nat.pow_nonzero; lia).
  destruct q; [simpl in Hn; lia|lia].
Qed.

Section MixerReturns.

Variable pyrup : tensor -> result tensor.
Hypothesis pyrup_shapes : pyrup_contract pyrup.
Hypothesis pyrup_accepts : pyrup_total pyrup.

Variables b c H W : nat.

Lemma guided_level_ok (idx : nat) (pc pu : tensor) (s w : R) :
  covers_level b c H W idx pc -> covers_level b c H W idx pu ->
  exists g, guided_level [H; W] idx pc pu s w = Ok g.
Proof.
  intros Hc Hu. unfold guided_level. cbn [level_size bind].
  destruct Hc as (hc & wc & Hsc & Hhc & Hwc).
  destruct Hu as (hu & wu & Hsu & Hhu & Hwu).
  destruct (crop_hw_ok (H / 2 ^ idx) (W / 2 ^ idx) pc
                       ltac:(rewrite Hsc; simpl; lia)) as [pc' Ec].
  destruct (crop_hw_ok (H / 2 ^ idx) (W / 2 ^ idx) pu
                       ltac:(rewrite Hsu; simpl; lia)) as [pu' Eu].
  rewrite Ec, Eu. cbn [bind].
  assert (Hc' : exact_level b c H W idx pc').
  { eapply crop_hw_covering; [|exact Ec]. now exists hc, wc. }
  assert (Hu' : exact_level b c H W idx pu').
  { eapply crop_hw_covering; [|exact Eu]. now exists hu, wu. }
  unfold exact_level in *.
  destruct (binop_ok_shape Rminus pc' pu' ltac:(congruence))
    as (d & Hd & Hsd).
  unfold tsub. rewrite Hd. cbn [bind].
  destruct (project_ok d pc' Hsd ltac:(rewrite Hsd, Hc'; simpl; lia))
    as (par & orth & Hp).
  rewrite Hp. cbn [bind].
  destruct (project_shape _ _ _ _ Hp Hsd) as [Hspar Hsorth].
  destruct (binop_ok_shape Rplus (smul w par) orth
                           ltac:(simpl; congruence)) as (d2 & Hd2 & Hsd2).
  unfold tadd. rewrite Hd2. cbn [bind]. simpl in Hsd2.
  destruct (binop_ok_shape Rplus pc' (smul (s - 1) d2)
                           ltac:(simpl; congruence)) as (g & Hg & _).
  rewrite Hg. now exists g.
Qed.

Lemma guided_pyramid_ok (idx : nat) (cs us : list tensor)
      (gs ws : list R) :
  levels_from (covers_level b c H W) idx cs ->
  levels_from (covers_level b c H W) idx us ->
  length cs = length gs -> length us = length gs ->
  (length gs <= length ws)%nat ->
  exists g, guided_pyramid [H; W] idx cs us gs ws = Ok g
            /\ length g = length gs.
Proof.
  revert idx us gs ws.
  induction cs as [|pc cs IH]; intros idx [|pu us] [|s gs] [|w ws];
    simpl; intros Hc Hu Hlc Hlu Hlw; try discriminate; try lia;
    try (now exists []).
  destruct Hc as [Hc Hcs]. destruct Hu as [Hu Hus].
  destruct (guided_level_ok idx pc pu s w Hc Hu) as [g0 E0].
  rewrite E0. cbn [bind].
  destruct (IH (S idx) us gs ws Hcs Hus) as (r & Er & Hr); try lia.
  rewrite Er. cbn [bind]. exists (g0 :: r). simpl. now rewrite Hr.
Qed.

Lemma build_image_ok (idx : nat) (g : list tensor) :
  g <> [] ->
  levels_from (exact_level b c H W) idx g ->
  Nat.divide (2 ^ (idx + length g - 1)) H ->
  Nat.divide (2 ^ (idx + length g - 1)) W ->
  (0 < H)%nat -> (0 < W)%nat ->
  exists t, build_image_from_pyramid pyrup g = Ok t.
Proof.
  intros Hne Hl HdH HdW HH HW. revert idx Hne Hl HdH HdW.
  induction g as [|g0 gs IH]; intros idx Hne Hl HdH HdW;
    [contradiction|].
  destruct gs as [|g1 gs]; [now exists g0|].
  rewrite build_image_cons by discriminate.
  destruct Hl as [H0 Hl].
  destruct (IH (S idx) ltac:(discriminate) Hl) as [img Ei].
  { simpl length in *. now replace (S idx + S (length gs) - 1)%nat
      with (idx + S (S (length gs)) - 1)%nat by lia. }
  { simpl length in *. now replace (S idx + S (length gs) - 1)%nat
      with (idx + S (S (length gs)) - 1)%nat by lia. }
  pose proof (build_image_shape pyrup pyrup_shapes b c H W (S idx)
                                (g1 :: gs) img Hl Ei) as Hsi.
  unfold exact_level in Hsi, H0.
  assert (HdH' : Nat.divide (2 ^ S idx) H)
    by (apply pow2_divide with (j := (idx + length (g0 :: g1 :: gs) - 1)%nat);
        [simpl; lia|assumption]).
  assert (HdW' : Nat.divide (2 ^ S idx) W)
    by (apply pow2_divide with (j := (idx + length (g0 :: g1 :: gs) - 1)%nat);
        [simpl; lia|assumption]).
  destruct (pyrup_accepts img _ _ _ _ Hsi
              (div_pow2_pos _ _ HdH' HH) (div_pow2_pos _ _ HdW' HW))
    as [up Eu].
  unfold pyramid_step. rewrite Ei. cbn [bind]. rewrite Eu. cbn [bind].
  destruct (pyrup_shapes _ _ Eu) as (b' & c' & h & w & Hs & _ & _ & Hup).
  rewrite Hsi in Hs.
  assert (Eb : b' = b) by congruence.
  assert (Ec : c' = c) by congruence.
  assert (Eh : h = (H / 2 ^ S idx)%nat) by congruence.
  assert (Ew : w = (W / 2 ^ S idx)%nat) by congruence.
  subst b' c' h w.
  destruct (binop_ok_shape Rplus up g0) as (t & Ht & _).
  { rewrite Hup, H0.
    now rewrite (div_pow2_even idx H HdH'), (div_pow2_even idx W HdW'). }
  exists t. exact Ht.
Qed.

End MixerReturns.

(** ** Sizes on which the mixer raises *)

Lemma broadcast_odd_height (b c h H w1 w2 : nat) :
  Nat.odd H = true -> (0 < h)%nat -> h = (H / 2)%nat ->
  broadcast_shapes [b; c; 2 * h; w1]%nat [b; c; H; w2] = None.
Proof.
  intros Hodd Hh Eh. unfold broadcast_shapes.
  assert (Hd : broadcast_dim (2 * h) H = None).
  { pose proof (Nat.div_mod_eq H 2) as E.
    assert (Hm : (H mod 2 = 1)%nat).
    { rewrite <- Nat.bit0_mod, Nat.bit0_odd, Hodd. reflexivity. }
    unfold broadcast_dim.
    destruct (Nat.eqb_spec (2 * h) H); [lia|].
    destruct (Nat.eqb_spec (2 * h) 1); [lia|].
    destruct (Nat.eqb_spec H 1); [|reflexivity].
    subst H. simpl in Eh. lia. }
  cbn [rev app broadcast_rev]. rewrite Hd.
  destruct (broadcast_dim w1 w2); reflexivity.
Qed.

(** With two or more levels and an odd height, the first addition of the
    reconstruction has operands of different heights: the mixer raises
    whatever kornia's kernels are. *)
Lemma laplacian_guidance_odd_height
      (pyrup : tensor -> result tensor)
      (build_laplacian_pyramid : tensor -> nat -> result (list tensor))
      (b c H W : nat) (pred_cond pred_uncond : tensor)
      (guidance_scale : list R) (cp up : list tensor) :
  pyrup_contract pyrup ->
  shape pred_cond = [b; c; H; W] ->
  build_laplacian_pyramid pred_cond (length guidance_scale) = Ok cp ->
  build_laplacian_pyramid pred_uncond (length guidance_scale) = Ok up ->
  length cp = length guidance_scale -> length up = length guidance_scale ->
  levels_from (covers_level b c H W) 0 cp ->
  levels_from (covers_level b c H W) 0 up ->
  (2 <= length guidance_scale)%nat ->
  Nat.odd H = true ->
  exists e,
    laplacian_guidance pyrup build_laplacian_pyramid pred_cond pred_uncond
                       guidance_scale None = Err e.
Proof.
  intros Hup Hs Ec Eu Lc Lu Hc Hu HL Hodd.
  unfold laplacian_guidance. rewrite Ec, Eu. cbn [bind].
  rewrite Hs. change (last_axes 2 [b; c; H; W]) with [H; W].
  destruct (guided_pyramid_ok b c H W 0 cp up guidance_scale
              (repeat 1 (length guidance_scale)) Hc Hu Lc Lu
              ltac:(now rewrite repeat_length)) as (g & Eg & Lg).
  rewrite Eg. cbn [bind].
  pose proof (guided_pyramid_shapes b c H W 0 cp up g _ _ Hc Hu Eg) as Hg.
  destruct g as [|g0 [|g1 gs]]; try (simpl in Lg; lia).
  rewrite build_image_cons by discriminate.
  destruct Hg as [H0 Hg]. unfold pyramid_step.
  destruct (build_image_from_pyramid pyrup (g1 :: gs)) as [img|e] eqn:Ei;
    [|now exists e].
  cbn [bind].
  pose proof (build_image_shape pyrup Hup b c H W 1 (g1 :: gs) img Hg Ei)
    as Hsi.
  destruct (pyrup img) as [u|e] eqn:Epu; [|now exists e].
  cbn [bind].
  destruct (Hup _ _ Epu) as (b' & c' & h & w & Hsh & Hh & _ & Hsu).
  unfold exact_level in Hsi, H0. rewrite Hsi in Hsh.
  assert (Eb : b' = b) by congruence.
  assert (Ec' : c' = c) by congruence.
  assert (Eh : h = (H / 2 ^ 1)%nat) by congruence.
  subst b' c'. change (2 ^ 1)%nat with 2%nat in Eh.
  exists ShapeMismatch. unfold tadd, binop. rewrite Hsu, H0.
  change (2 ^ 0)%nat with 1%nat. rewrite !Nat.div_1_r.
  now rewrite (broadcast_odd_height b c h H _ _ Hodd Hh Eh).
Qed.

(** C3: the tensor [laplacian_guidance] returns has the shape and the
    dtype of [pred_cond].  The hypotheses are what kornia provides: [pyrup]
    doubles the height and width of the images it accepts, and the levels
    of the two pyramids hold images at least as large as the sizes the loop
    crops them to.  The call also does return when, in addition, the
    pyramids have one level per guidance scale, there is at least one
    scale and as many parallel weights, [pyrup] accepts every image of
    positive size, and the height and width are positive multiples of
    [2 ^ (levels - 1)]. *)
Theorem laplacian_guidance_shape_dtype
        (pyrup : tensor -> result tensor)
        (build_laplacian_pyramid : tensor -> nat -> result (list tensor))
        (b c H W : nat) (pred_cond pred_uncond : tensor)
        (guidance_scale : list R) (parallel_weights : option (list R)) :
  pyrup_contract pyrup ->
  shape pred_cond = [b; c; H; W] ->
  (forall cp,
      build_laplacian_pyramid pred_cond (length guidance_scale) = Ok cp ->
      levels_from (covers_level b c H W) 0 cp) ->
  (forall up,
      build_laplacian_pyramid pred_uncond (length guidance_scale) = Ok up ->
      levels_from (covers_level b c H W) 0 up) ->
  (forall t,
      laplacian_guidance pyrup build_laplacian_pyramid pred_cond pred_uncond
                         guidance_scale parallel_weights = Ok t ->
      shape t = shape pred_cond /\ dtype t = dtype pred_cond)
  /\ (pyrup_total pyrup ->
      (exists cp up,
          build_laplacian_pyramid pred_cond (length guidance_scale) = Ok cp
          /\ build_laplacian_pyramid pred_uncond (length guidance_scale)
             = Ok up
          /\ length cp = length guidance_scale
          /\ length up = length guidance_scale) ->
      (1 <= length guidance_scale)%nat ->
      match parallel_weights with
      | Some ws => (length guidance_scale <= length ws)%nat
      | None => True
      end ->
      Nat.divide (2 ^ (length guidance_scale - 1)) H ->
      Nat.divide (2 ^ (length guidance_scale - 1)) W ->
      (0 < H)%nat -> (0 < W)%nat ->
      exists t,
        laplacian_guidance pyrup build_laplacian_pyramid pred_cond pred_uncond
                           guidance_scale parallel_weights = Ok t).
Proof.
  intros Hup Hs Hc Hu. split.
  - intros t. now apply laplacian_guidance_result_shape with (b := b) (c := c)
                                                             (H := H) (W := W).
  - intros Hacc (cp & up & Ec & Eu & Lc & Lu) HL Hw HdH HdW HH HW.
    unfold laplacian_guidance. rewrite Ec, Eu. cbn [bind].
    rewrite Hs. change (last_axes 2 [b; c; H; W]) with [H; W].
    destruct (guided_pyramid_ok b c H W 0 cp up guidance_scale
                (match parallel_weights with
                 | Some ws => ws
                 | None => repeat 1 (length guidance_scale)
                 end) (Hc cp Ec) (Hu up Eu) Lc Lu) as (g & Eg & Lg).
    { destruct parallel_weights; [exact Hw|]. now rewrite repeat_length. }
    rewrite Eg. cbn [bind].
    pose proof (guided_pyramid_shapes b c H W 0 cp up g _ _
                  (Hc cp Ec) (Hu up Eu) Eg) as Hg.
    destruct (build_image_ok pyrup Hup Hacc b c H W 0 g) as [img Ei];
      try assumption.
    + intros ->. simpl in Lg. lia.
    + now rewrite Lg.
    + now rewrite Lg.
    + rewrite Ei. cbn [bind]. eexists. reflexivity.
Qed.

Lemma ref_pyrup_contract : pyrup_contract ref_pyrup.
Proof.
  intros x y. unfold ref_pyrup, on_images.
  destruct (shape x) as [|b [|c [|h [|w [|]]]]]; try discriminate.
  destruct (Nat.ltb_spec 0 h); [|discriminate].
  destruct (Nat.ltb_spec 0 w); [|discriminate].
  intros E. inversion E; subst y. exists b, c, h, w. auto.
Qed.

Lemma ref_pyrup_total : pyrup_total ref_pyrup.
Proof.
  intros x b c h w Hs Hh Hw. unfold ref_pyrup, on_images. rewrite Hs.
  destruct (Nat.ltb_spec 0 h); [|lia].
  destruct (Nat.ltb_spec 0 w); [|lia].
  eexists. reflexivity.
Qed.

Lemma demo_cond_covered (cp : list tensor) :
  ref_build_laplacian_pyramid demo_cond 2 = Ok cp ->
  levels_from (covers_level 1 1 2 2) 0 cp.
Proof.
  intros E. inversion E; subst cp. simpl.
  repeat split; do 2 eexists; (split; [reflexivity|simpl; lia]).
Qed.

Lemma demo_uncond_covered (up : list tensor) :
  ref_build_laplacian_pyramid demo_uncond 2 = Ok up ->
  levels_from (covers_level 1 1 2 2) 0 up.
Proof.
  intros E. inversion E; subst up. simpl.
  repeat split; do 2 eexists; (split; [reflexivity|simpl; lia]).
Qed.

Lemma laplacian_guidance_shape_dtype_witness :
  (forall t,
      laplacian_guidance ref_pyrup ref_build_laplacian_pyramid
                         demo_cond demo_uncond [3; 2] (Some [1; 5 / 10])
      = Ok t ->
      shape t = shape demo_cond /\ dtype t = dtype demo_cond)
  /\ (exists t,
         laplacian_guidance ref_pyrup ref_build_laplacian_pyramid
                            demo_cond demo_uncond [3; 2] (Some [1; 5 / 10])
         = Ok t
         /\ shape t = [1; 1; 2; 2]%nat /\ dtype t = Float32).
Proof.
  destruct (laplacian_guidance_shape_dtype
              ref_pyrup ref_build_laplacian_pyramid 1 1 2 2
              demo_cond demo_uncond [3; 2] (Some [1; 5 / 10])
              ref_pyrup_contract eq_refl demo_cond_covered
              demo_uncond_covered) as [Hshape Hreturns].
  split; [exact Hshape|].
  destruct Hreturns as [t Ht].
  - exact ref_pyrup_total.
  - do 2 eexists. repeat split; reflexivity.
  - simpl. lia.
  - simpl. lia.
  - exists 1%nat. reflexivity.
  - exists 1%nat. reflexivity.
  - lia.
  - lia.
  - exists t. split; [exact Ht|]. exact (Hshape t Ht).
Defined.

(** ** The guidance schedule *)

(** C7, as stated, fails for a single level: the schedule is returned
    before the method is looked at. *)
Lemma create_guidance_scales_single_level_counterexample :
  (0 < 1)%Z
  /\ "invalid"%string <> "linear"%string
  /\ "invalid"%string <> "cosine"%string
  /\ forall torch_cos,
      create_guidance_scales torch_cos 10 1 1 "invalid" = Ok [10].
Proof. repeat split; discriminate. Qed.

(** C7, as amended: for every [levels] other than 1, a method other than
    ["linear"] and ["cosine"] makes [create_guidance_scales] raise
    [ValueError], and [patch], which builds the schedule first, raises it
    before it installs any callback. *)
Theorem create_guidance_scales_unknown_method
        (torch_cos : R -> R) (high_scale low_scale : R) (levels : Z)
        (method : string) :
  levels <> 1%Z -> method <> "linear"%string -> method <> "cosine"%string ->
  create_guidance_scales torch_cos high_scale low_scale levels method
  = Err (ValueError ("Unknown interpolation method: " ++ method))
  /\ forall pyrup build_laplacian_pyramid py_float fdg_steps parallel_weights,
      patch torch_cos pyrup build_laplacian_pyramid py_float
            high_scale low_scale levels fdg_steps method parallel_weights
      = Err (ValueError ("Unknown interpolation method: " ++ method)).
Proof.
  intros Hl Hlin Hcos.
  assert (E : create_guidance_scales torch_cos high_scale low_scale levels
                                     method
              = Err (ValueError ("Unknown interpolation method: " ++ method))).
  { unfold create_guidance_scales.
    destruct (Z.eqb_spec levels 1) as [|_]; [contradiction|].
    destruct (String.eqb_spec method "linear") as [|_]; [contradiction|].
    destruct (String.eqb_spec method "cosine") as [|_]; [contradiction|].
    reflexivity. }
  split; [exact E|].
  intros. unfold patch. now rewrite E.
Qed.

Lemma create_guidance_scales_unknown_method_witness :
  create_guidance_scales rounded_cos 10 1 4 "invalid"
  = Err (ValueError ("Unknown interpolation method: " ++ "invalid"))
  /\ forall pyrup build_laplacian_pyramid py_float fdg_steps parallel_weights,
      patch rounded_cos pyrup build_laplacian_pyramid py_float 10 1
            4 fdg_steps "invalid" parallel_weights
      = Err (ValueError ("Unknown interpolation method: " ++ "invalid")).
Proof.
  apply (create_guidance_scales_unknown_method rounded_cos 10 1 4 "invalid");
    discriminate.
Defined.

Lemma nth_error_map_seq {A : Type} (f : nat -> A) (n i : nat) :
  (i < n)%nat -> nth_error (map f (seq 0 n)) i = Some (f i).
Proof.
  intros H. rewrite nth_error_map, nth_error_seq.
  destruct (Nat.ltb_spec i n); [reflexivity|lia].
Qed.

(** *** The points of the float32 [linspace] *)

Lemma pow2_m24 : pow2 (-24) = / 16777216.
Proof. apply (pow2_neg 24). lia. Qed.


Lemma linspace_point_first (a b : R) (steps : Z) :
  (2 <= steps)%Z -> linspace_point a b steps 0 = f32 a.
Proof.
  intros Hs. unfold linspace_point.
  destruct (Z.ltb_spec (Z.of_nat 0) (steps / 2)) as [_|H].
  - simpl INR. rewrite f32_0, Rmult_0_r, f32_0, Rplus_0_r. apply f32_idem.
  - exfalso. assert (1 <= steps / 2)%Z by (apply Z.div_le_lower_bound; lia).
    simpl in H. lia.
Qed.

Lemma linspace_point_last (a b : R) (steps : Z) :
  (2 <= steps)%Z -> linspace_point a b steps (Z.to_nat steps - 1) = f32 b.
Proof.
  intros Hs. unfold linspace_point.
  destruct (Z.ltb_spec (Z.of_nat (Z.to_nat steps - 1)) (steps / 2)) as [H|_].
  - exfalso. assert (steps / 2 < steps)%Z by (apply Z.div_lt; lia).
    assert (steps / 2 <= steps - 1)%Z by lia. lia.
  - replace (steps - Z.of_nat (Z.to_nat steps - 1) - 1)%Z with 0%Z by lia.
    rewrite f32_0, Rmult_0_r, f32_0, Rminus_0_r. apply f32_idem.
Qed.

Lemma linspace_values (a b : R) (steps : Z) :
  (0 <= steps)%Z -> steps <> 1%Z ->
  linspace a b steps
  = Ok (map (linspace_point a b steps) (seq 0 (Z.to_nat steps))).
Proof.
  intros H0 H1. unfold linspace.
  destruct (Z.ltb_spec steps 0); [lia|].
  destruct (Z.eqb_spec steps 1); [contradiction|reflexivity].
Qed.


Section UnitInterval.

Variable steps : Z.
Hypothesis steps_range : (2 <= steps <= 4194304)%Z.










End UnitInterval.

(** *** The cosine schedule on one point *)



Lemma pi32_fixed : f32 pi32 = pi32.
Proof. apply f32_idem. Qed.


Lemma cosine_point_unfold (torch_cos : R -> R) (high_scale low_scale t : R) :
  cosine_point torch_cos high_scale low_scale t
  = f32 (f32 low_scale
         + f32 (half_range32 high_scale low_scale
                * f32 (1 + torch_cos (f32 (t * pi32))))).
Proof. reflexivity. Qed.

Lemma cosine_point_0 (torch_cos : R -> R) (high_scale low_scale : R) :
  torch_cos 0 = 1 ->
  cosine_point torch_cos high_scale low_scale 0
  = f32 (f32 low_scale + f32 (half_range32 high_scale low_scale * 2)).
Proof.
  intros H. rewrite cosine_point_unfold.
  rewrite Rmult_0_l, f32_0, H.
  replace (1 + 1) with 2 by ring. now rewrite f32_2.
Qed.

Lemma cosine_point_1 (torch_cos : R -> R) (high_scale low_scale : R) :
  torch_cos pi32 = -1 ->
  cosine_point torch_cos high_scale low_scale 1 = f32 low_scale.
Proof.
  intros H. rewrite cosine_point_unfold.
  rewrite Rmult_1_l, pi32_fixed, H.
  replace (1 + -1) with 0 by ring.
  rewrite f32_0, Rmult_0_r, f32_0, Rplus_0_r. apply f32_idem.
Qed.


Lemma linear_schedule (torch_cos : R -> R) (high_scale low_scale : R)
      (levels : Z) :
  (0 <= levels)%Z -> levels <> 1%Z ->
  create_guidance_scales torch_cos high_scale low_scale levels "linear"
  = Ok (map (linspace_point high_scale low_scale levels)
            (seq 0 (Z.to_nat levels))).
Proof.
  intros H0 H1. unfold create_guidance_scales.
  destruct (Z.eqb_spec levels 1) as [|_]; [contradiction|].
  cbn [String.eqb Ascii.eqb Bool.eqb]. now apply linspace_values.
Qed.

Lemma cosine_schedule (torch_cos : R -> R) (high_scale low_scale : R)
      (levels : Z) :
  (0 <= levels)%Z -> levels <> 1%Z ->
  create_guidance_scales torch_cos high_scale low_scale levels "cosine"
  = Ok (map (fun i => cosine_point torch_cos high_scale low_scale
                                   (linspace_point 0 1 levels i))
            (seq 0 (Z.to_nat levels))).
Proof.
  intros H0 H1. unfold create_guidance_scales.
  destruct (Z.eqb_spec levels 1) as [|_]; [contradiction|].
  cbn [String.eqb Ascii.eqb Bool.eqb].
  rewrite linspace_values by assumption. cbn [bind].
  now rewrite map_map.
Qed.

Lemma unit_point_first (levels : Z) :
  (2 <= levels)%Z -> linspace_point 0 1 levels 0 = 0.
Proof. intros H. rewrite linspace_point_first by exact H. apply f32_0. Qed.

Lemma unit_point_last (levels : Z) :
  (2 <= levels)%Z -> linspace_point 0 1 levels (Z.to_nat levels - 1) = 1.
Proof. intros H. rewrite linspace_point_last by exact H. apply f32_1. Qed.


(** *** How far the first and the last value are from the scales *)

Lemma rounding_step (c eta x y b : R) :
  0 <= c -> Rabs (y - x) <= c * Rabs x + eta -> Rabs x <= b ->
  - (c * b + eta) <= y - x <= c * b + eta /\ Rabs y <= b + (c * b + eta).
Proof.
  intros Hc Hy Hb.
  assert (H : Rabs (y - x) <= c * b + eta).
  { apply Rle_trans with (c * Rabs x + eta); [exact Hy|].
    apply Rplus_le_compat_r, Rmult_le_compat_l; assumption. }
  split; [now apply Rabs_le_inv|].
  apply Rabs_le_inv in H. apply Rabs_le_inv in Hb. apply Rabs_le. lra.
Qed.

Lemma pow2_m53 : pow2 (-53) = / 9007199254740992.
Proof. apply (pow2_neg 53). lia. Qed.


Lemma f32_step (x b : R) :
  Rabs x <= b ->
  - (/ 16777216 * b + pow2 (-150)) <= f32 x - x
    <= / 16777216 * b + pow2 (-150)
  /\ Rabs (f32 x) <= b + (/ 16777216 * b + pow2 (-150)).
Proof.
  intros Hb. apply rounding_step; [lra| |exact Hb].
  rewrite <- pow2_m24. apply f32_error_abs.
Qed.

Lemma f64_step (x b : R) :
  Rabs x <= b ->
  - (/ 9007199254740992 * b + pow2 (-150)) <= f64 x - x
    <= / 9007199254740992 * b + pow2 (-150)
  /\ Rabs (f64 x) <= b + (/ 9007199254740992 * b + pow2 (-150)).
Proof.
  intros Hb. apply rounding_step; [lra| |exact Hb].
  rewrite <- pow2_m53.
  apply Rle_trans with (pow2 (-53) * Rabs x + pow2 (-1075));
    [apply f64_error_abs|].
  apply Rplus_le_compat_l, pow2_le. lia.
Qed.


Lemma last_value_close (low_scale : R) :
  Rabs (f32 low_scale - low_scale)
  <= / 16777216 * Rabs low_scale + pow2 (-150).
Proof. rewrite <- pow2_m24. apply f32_error_abs. Qed.

(** *** The correctly rounded cosine *)

Lemma PI_bounds : 3 < PI <= 4.
Proof. pose proof PI2_3_2. pose proof PI_4. lra. Qed.

Lemma sin_sqr_le (x : R) : Rabs x <= 1 -> sin x * sin x <= x * x.
Proof.
  assert (Hpos : forall y, 0 <= y <= 1 -> sin y * sin y <= y * y).
  { intros y [H0 H1]. destruct PI_bounds as [Hp _].
    pose proof (sin_ge_0 y H0 ltac:(lra)) as Hs.
    assert (Hle : sin y <= y).
    { destruct (Req_dec y 0) as [->|Hn]; [rewrite sin_0; lra|].
      apply Rlt_le, sin_lt_x. lra. }
    nra. }
  intros Hx. apply Rabs_le_inv in Hx.
  destruct (Rle_dec 0 x) as [H|H].
  - apply Hpos. lra.
  - specialize (Hpos (- x) ltac:(lra)). rewrite sin_neg in Hpos. nra.
Qed.

Lemma cos_near_0 (d : R) : Rabs d <= 1 -> 1 - d * d / 2 <= cos d.
Proof.
  intros Hd.
  assert (E : cos d = 1 - 2 * sin (d / 2) * sin (d / 2)).
  { rewrite <- cos_2a_sin. f_equal. field. }
  rewrite E.
  assert (H : Rabs (d / 2) <= 1).
  { apply Rabs_le_inv in Hd. apply Rabs_le. lra. }
  pose proof (sin_sqr_le (d / 2) H). nra.
Qed.

Lemma pow2_m150_small : pow2 (-150) <= / 16777216.
Proof. rewrite <- pow2_m24. apply pow2_le. lia. Qed.

Lemma pi32_close : Rabs (pi32 - PI) <= / 1000000.
Proof.
  destruct PI_bounds as [Hp1 Hp2].
  assert (Ha : Rabs PI <= 4) by (rewrite Rabs_pos_eq; lra).
  destruct (f64_step PI 4 Ha) as [E1 B1].
  destruct (f32_step _ _ B1) as [E2 _].
  fold math_pi in E1, B1, E2. fold pi32 in E2.
  pose proof pow2_m150_small. pose proof (pow2_pos (-150)).
  apply Rabs_le. lra.
Qed.

Lemma pow2_m1 : pow2 (-1) = / 2.
Proof. apply (pow2_neg 1). lia. Qed.

Lemma f32_below_1 : f32 (1 - / 1073741824) = 1.
Proof.
  rewrite (f32_eval _ (-1) 16777216).
  - change (-1 - 23)%Z with (-24)%Z. rewrite pow2_m24. field.
  - lia.
  - change (-1 + 1)%Z with 0%Z. rewrite pow2_0, pow2_m1.
    rewrite Rabs_pos_eq; lra.
  - change (-1 - 23)%Z with (-24)%Z. rewrite pow2_m24. left.
    apply Rabs_def1; lra.
Qed.

Lemma rounded_cos_near_pi (y : R) :
  Rabs (y - PI) <= / 1000000 -> rounded_cos y = -1.
Proof.
  intros Hy. unfold rounded_cos.
  replace y with ((y - PI) + PI) by ring. rewrite neg_cos.
  set (d := y - PI) in *.
  assert (Hd1 : Rabs d <= 1) by lra.
  pose proof (cos_near_0 d Hd1) as Hlow.
  pose proof (COS_bound d) as [_ Hup].
  apply Rabs_le_inv in Hy.
  assert (Hdd : d * d <= / 1000000 * / 1000000) by nra.
  apply Rle_antisym.
  - rewrite f32_opp.
    assert (H : 1 <= f32 (cos d)).
    { rewrite <- f32_below_1. apply f32_le. lra. }
    lra.
  - replace (-1) with (f32 (IZR (-1))) at 1
      by (apply f32_IZR; reflexivity).
    apply f32_le. change (IZR (-1)) with (-1). lra.
Qed.

Lemma rounded_cos_contract :
  rounded_cos 0 = 1
  /\ rounded_cos pi32 = -1
  /\ non_increasing_on rounded_cos 0 pi32.
Proof.
  split; [|split].
  - unfold rounded_cos. rewrite cos_0. apply f32_1.
  - apply rounded_cos_near_pi, pi32_close.
  - intros x y Hx Hxy Hy.
    destruct (Rle_dec y PI) as [Hle|Hgt].
    + unfold rounded_cos. apply f32_le. apply cos_decr_1; lra.
    + rewrite (rounded_cos_near_pi y).
      * unfold rounded_cos.
        replace (-1) with (f32 (IZR (-1))) by (apply f32_IZR; reflexivity).
        apply f32_le. change (IZR (-1)) with (-1).
        apply (COS_bound x).
      * pose proof pi32_close as Hc. apply Rabs_le_inv in Hc.
        apply Rabs_le. lra.
Qed.

(** *** The schedule of [7.6] and of two close scales *)








Lemma cosine_point_float32 (torch_cos : R -> R) (high_scale low_scale t : R) :
  f32 (cosine_point torch_cos high_scale low_scale t)
  = cosine_point torch_cos high_scale low_scale t.
Proof. apply f32_idem. Qed.

Lemma linspace_point_float32 (a b : R) (steps : Z) (i : nat) :
  f32 (linspace_point a b steps i) = linspace_point a b steps i.
Proof.
  unfold linspace_point.
  destruct (Z.of_nat i <? steps / 2)%Z; apply f32_idem.
Qed.





Lemma half_range32_10_1 : half_range32 10 1 = 9 / 2.
Proof.
  unfold half_range32.
  replace (10 - 1) with (IZR 9) by (simpl; lra).
  rewrite f64_IZR by reflexivity.
  replace (IZR 9 * (5 / 10)) with (IZR 9 * pow2 (-1))
    by (rewrite pow2_m1; field).
  rewrite f64_fixed by (try reflexivity; lia).
  rewrite f32_fixed by (try reflexivity; lia).
  rewrite pow2_m1. field.
Qed.

(** The schedule of the specification's example: its ends are exact. *)
Example cosine_schedule_example :
  exists scales,
    create_guidance_scales rounded_cos 10 1 4 "cosine" = Ok scales
    /\ length scales = 4%nat
    /\ nth_error scales 0 = Some 10
    /\ nth_error scales 3 = Some 1.
Proof.
  destruct rounded_cos_contract as (C0 & C1 & _).
  eexists. split; [apply cosine_schedule; lia|].
  split; [reflexivity|]. split.
  - simpl. f_equal. rewrite (unit_point_first 4) by lia.
    rewrite cosine_point_0 by exact C0.
    rewrite half_range32_10_1, f32_1.
    replace (9 / 2 * 2) with (IZR 9) by (simpl; lra).
    rewrite f32_IZR by reflexivity.
    replace (1 + IZR 9) with (IZR 10) by (simpl; lra).
    now rewrite f32_IZR by reflexivity.
  - simpl. f_equal.
    change 3%nat with (Z.to_nat 4 - 1)%nat.
    rewrite (unit_point_last 4) by lia.
    rewrite cosine_point_1 by exact C1. apply f32_1.
Qed.

Example linear_schedule_example :
  forall torch_cos,
    create_guidance_scales torch_cos 10 1 4 "linear" = Ok [10; 7; 4; 1].
Proof.
  intros torch_cos. rewrite linear_schedule by lia.
  change (seq 0 (Z.to_nat 4)) with [0; 1; 2; 3]%nat.
  unfold linspace_point. cbn [map Z.of_nat Z.ltb Z.div Z.sub].
  assert (E10 : f32 10 = 10) by (apply (f32_IZR 10); reflexivity).
  assert (E3 : f32 3 = 3) by (apply (f32_IZR 3); reflexivity).
  assert (E7 : f32 7 = 7) by (apply (f32_IZR 7); reflexivity).
  assert (E4 : f32 4 = 4) by (apply (f32_IZR 4); reflexivity).
  assert (Em9 : f32 (-9) = -9) by (apply (f32_IZR (-9)); reflexivity).
  assert (Em3 : f32 (-3) = -3) by (apply (f32_IZR (-3)); reflexivity).
  simpl. rewrite !f32_1, !E10, !f32_0.
  replace (1 - 10) with (-9) by lra. rewrite !Em9, !E3.
  replace (-9 / 3) with (-3) by lra. rewrite !Em3.
  replace (-3 * 0) with 0 by lra. rewrite !f32_0.
  replace (-3 * 1) with (-3) by lra. rewrite !Em3.
  replace (10 + 0) with 10 by lra. replace (10 + -3) with 7 by lra.
  replace (1 - -3) with 4 by lra. replace (1 - 0) with 1 by lra.
  now rewrite !E10, !E7, !E4, !f32_1.
Qed.

Example single_level_example :
  forall torch_cos,
    create_guidance_scales torch_cos 10 1 1 "cosine" = Ok [10].
Proof. reflexivity. Qed.

(** ** The parallel weights of [patch] *)


Section ParallelWeights.

Variable py_float : string -> option R.

Lemma py_slice_to_length {A : Type} (l : list A) (n : Z) :
  (0 <= n <= Z.of_nat (length l))%Z ->
  length (py_slice_to l n) = Z.to_nat n.
Proof.
  intros H. unfold py_slice_to.
  destruct (Z.ltb_spec n 0); [lia|]. rewrite length_firstn. lia.
Qed.

(** C9: the parsed parallel weights always number exactly [levels]: a
    text that does not parse gives [levels] ones; a shorter list is
    padded on the right with ones; a longer list is cut to its first
    [levels] entries.  With a [float] that reads the literals of the two
    examples, ["1.0,2.0"] with four levels gives [[1; 2; 1; 1]] and
    ["1,2,3,4,5"] gives [[1; 2; 3; 4]]. *)
Theorem parse_parallel_weights_exact :
  (forall text levels,
      (0 <= levels)%Z ->
      Z.of_nat (length (parse_parallel_weights py_float text levels))
      = levels
      /\ (parse_floats py_float text = None ->
          parse_parallel_weights py_float text levels
          = repeat 1 (Z.to_nat levels))
      /\ (forall ws,
             parse_floats py_float text = Some ws ->
             ((Z.of_nat (length ws) < levels)%Z ->
              parse_parallel_weights py_float text levels
              = ws ++ repeat 1 (Z.to_nat levels - length ws))
             /\ ((Z.of_nat (length ws) > levels)%Z ->
                 parse_parallel_weights py_float text levels
                 = firstn (Z.to_nat levels) ws)
             /\ (Z.of_nat (length ws) = levels ->
                 parse_parallel_weights py_float text levels = ws)))
  /\ (py_float "1.0" = Some 1 -> py_float "2.0" = Some 2 ->
      parse_parallel_weights py_float "1.0,2.0" 4 = [1; 2; 1; 1])
  /\ (py_float "1" = Some 1 -> py_float "2" = Some 2 ->
      py_float "3" = Some 3 -> py_float "4" = Some 4 ->
      py_float "5" = Some 5 ->
      parse_parallel_weights py_float "1,2,3,4,5" 4 = [1; 2; 3; 4]).
Proof.
  split; [|split].
  - intros text levels Hl. unfold parse_parallel_weights.
    destruct (parse_floats py_float text) as [ws|].
    + split; [|split; [discriminate|]].
      * destruct (Z.ltb_spec (Z.of_nat (length ws)) levels).
        -- unfold py_repeat. rewrite length_app, repeat_length. lia.
        -- destruct (Z.gtb_spec (Z.of_nat (length ws)) levels).
           ++ rewrite py_slice_to_length by lia. lia.
           ++ lia.
      * intros ws' E. inversion E; subst ws'. repeat split; intros H.
        -- destruct (Z.ltb_spec (Z.of_nat (length ws)) levels); [|lia].
           unfold py_repeat. do 2 f_equal. lia.
        -- destruct (Z.ltb_spec (Z.of_nat (length ws)) levels); [lia|].
           destruct (Z.gtb_spec (Z.of_nat (length ws)) levels); [|lia].
           unfold py_slice_to.
           destruct (Z.ltb_spec levels 0); [lia|reflexivity].
        -- destruct (Z.ltb_spec (Z.of_nat (length ws)) levels); [lia|].
           destruct (Z.gtb_spec (Z.of_nat (length ws)) levels); [lia|].
           reflexivity.
    + unfold py_repeat. rewrite repeat_length.
      destruct (Z.ltb_spec (Z.of_nat (Z.to_nat levels)) levels); [lia|].
      destruct (Z.gtb_spec (Z.of_nat (Z.to_nat levels)) levels); [lia|].
      split; [rewrite ?repeat_length; lia|].
      split; [reflexivity|discriminate].
  - intros H1 H2. unfold parse_parallel_weights, parse_floats.
    cbn [split_on Ascii.eqb Bool.eqb traverse strip lstrip rstrip is_space].
    simpl. rewrite H1, H2. reflexivity.
  - intros H1 H2 H3 H4 H5. unfold parse_parallel_weights, parse_floats.
    cbn [split_on Ascii.eqb Bool.eqb traverse strip lstrip rstrip is_space].
    simpl. rewrite H1. rewrite H2. rewrite H3. rewrite H4. rewrite H5.
    reflexivity.
Qed.

End ParallelWeights.

Lemma decimal_float_literals :
  decimal_float "1.0" = Some 1 /\ decimal_float "2.0" = Some 2
  /\ decimal_float "1" = Some 1 /\ decimal_float "2" = Some 2
  /\ decimal_float "3" = Some 3 /\ decimal_float "4" = Some 4
  /\ decimal_float "5" = Some 5 /\ decimal_float "abc" = None.
Proof.
  unfold decimal_float. simpl.
  repeat split; try reflexivity; f_equal; lra.
Defined.

Lemma parse_parallel_weights_exact_witness :
  parse_parallel_weights decimal_float "1.0,2.0" 4 = [1; 2; 1; 1]
  /\ parse_parallel_weights decimal_float "1,2,3,4,5" 4 = [1; 2; 3; 4]
  /\ parse_parallel_weights decimal_float "1.0,abc" 4 = [1; 1; 1; 1]
  /\ Z.of_nat (length (parse_parallel_weights decimal_float " 7 ,8" 3)) = 3%Z.
Proof.
  destruct decimal_float_literals
    as (F10 & F20 & F1 & F2 & F3 & F4 & F5 & Fabc).
  destruct (parse_parallel_weights_exact decimal_float) as (Hall & E1 & E2).
  split; [exact (E1 F10 F20)|]. split; [exact (E2 F1 F2 F3 F4 F5)|].
  split.
  - destruct (Hall "1.0,abc"%string 4%Z ltac:(lia)) as (_ & Hnone & _).
    apply Hnone. reflexivity.
  - destruct (Hall " 7 ,8"%string 3%Z ltac:(lia)) as (Hlen & _). exact Hlen.
Defined.

(** ** The step gate *)

Lemma py_index_nth_error {A : Type} (l : list A) (i : Z) :
  (0 <= i < Z.of_nat (length l))%Z ->
  exists x, nth_error l (Z.to_nat i) = Some x /\ py_index l i = Ok x.
Proof.
  intros Hi. unfold py_index.
  destruct (Z.ltb_spec i 0); [lia|].
  destruct (Z.leb_spec 0 i); [|lia].
  destruct (Z.ltb_spec i (Z.of_nat (length l))); [|lia]. simpl.
  destruct (nth_error l (Z.to_nat i)) as [x|] eqn:E.
  - now exists x.
  - apply nth_error_None in E. lia.
Qed.

Lemma clamp_min (fdg_steps len : Z) :
  (if (fdg_steps >=? len - 1)%Z then (len - 1)%Z else fdg_steps)
  = Z.min fdg_steps (len - 1).
Proof. destruct (Z.geb_spec fdg_steps (len - 1)); lia. Qed.

Lemma isclose_one : isclose 1 1 = true.
Proof.
  unfold isclose. destruct (Rle_dec _ _) as [|N]; [reflexivity|].
  exfalso. apply N. replace (1 - 1) with 0 by lra. rewrite Rabs_R0.
  apply Rmax_r.
Qed.

Section StepGate.

Variable pyrup : tensor -> result tensor.
Variable build_laplacian_pyramid : tensor -> nat -> result (list tensor).
Variable guidance_scale_high : R.
Variable fdg_steps : Z.
Variables guidance_scale parallel_weights_list : list R.

Lemma fdg_function_passthrough (args : fdg_args) :
  uncond args = None ->
  fdg_function pyrup build_laplacian_pyramid guidance_scale_high fdg_steps
               guidance_scale parallel_weights_list args
  = Ok (cond args).
Proof. intros H. unfold fdg_function. now rewrite H. Qed.

Lemma fdg_function_gated (args : fdg_args) (u : tensor) :
  uncond args = Some u -> (0 <= fdg_steps)%Z -> sample_sigmas args <> [] ->
  exists st,
    step_gate (sample_sigmas args) fdg_steps (sigma args) true = Some st
    /\ match st with
       | FullGuidance =>
           fdg_function pyrup build_laplacian_pyramid guidance_scale_high
                        fdg_steps guidance_scale parallel_weights_list args
           = laplacian_guidance pyrup build_laplacian_pyramid (cond args) u
                                guidance_scale (Some parallel_weights_list)
       | FallbackBlend =>
           fdg_function pyrup build_laplacian_pyramid guidance_scale_high
                        fdg_steps guidance_scale parallel_weights_list args
           = (d <- tsub (cond args) u ;;
              tadd u (muls d (blend_scale guidance_scale_high
                                          (cond_scale args))))
       | Passthrough => False
       end.
Proof.
  intros Hu Hs Hne. unfold fdg_function, step_gate.
  rewrite Hu, clamp_min.
  assert (Hlen : (0 < Z.of_nat (length (sample_sigmas args)))%Z)
    by (destruct (sample_sigmas args); [contradiction|simpl; lia]).
  destruct (py_index_nth_error (sample_sigmas args)
              (Z.min fdg_steps (Z.of_nat (length (sample_sigmas args)) - 1))
              ltac:(lia)) as (limit & Hn & Hi).
  cbv zeta. rewrite Hn, Hi. cbn [bind].
  destruct (Rgt_dec (sigma args) limit); eexists; split; reflexivity.
Qed.

End StepGate.

(** C4: without an unconditional prediction the callback returns the
    conditional one unchanged.  With one, a non-negative step limit and a
    non-empty schedule, its result follows the gate of the specification,
    which reads only the current sigma, the schedule and the step limit
    clamped to at most [S - 1]: the Laplacian mixer exactly when the
    current sigma is strictly greater than the sigma at the clamped index,
    and otherwise the blend [uncond + (cond - uncond) * cond_scale] whose
    scale is [guidance_scale_high] when the nominal scale is close to 1.
    For the schedule [[10; 8; 6; 4; 2; 0]] and step limit 2, sigma 9 selects
    the mixer and sigma 3 the blend. *)
Theorem fdg_function_gate
        (pyrup : tensor -> result tensor)
        (build_laplacian_pyramid : tensor -> nat -> result (list tensor))
        (guidance_scale_high : R)
        (guidance_scale parallel_weights_list : list R) :
  (forall fdg_steps args,
      uncond args = None ->
      fdg_function pyrup build_laplacian_pyramid guidance_scale_high fdg_steps
                   guidance_scale parallel_weights_list args
      = Ok (cond args))
  /\ (forall fdg_steps args u,
         uncond args = Some u -> (0 <= fdg_steps)%Z ->
         sample_sigmas args <> [] ->
         exists st,
           step_gate (sample_sigmas args) fdg_steps (sigma args) true
           = Some st
           /\ match st with
              | FullGuidance =>
                  fdg_function pyrup build_laplacian_pyramid
                               guidance_scale_high fdg_steps
                               guidance_scale parallel_weights_list args
                  = laplacian_guidance pyrup build_laplacian_pyramid
                                       (cond args) u guidance_scale
                                       (Some parallel_weights_list)
              | FallbackBlend =>
                  fdg_function pyrup build_laplacian_pyramid
                               guidance_scale_high fdg_steps
                               guidance_scale parallel_weights_list args
                  = (d <- tsub (cond args) u ;;
                     tadd u (muls d (blend_scale guidance_scale_high
                                                 (cond_scale args))))
              | Passthrough => False
              end)
  /\ (forall sigmas step_limit current,
         step_gate sigmas step_limit current false = Some Passthrough)
  /\ blend_scale guidance_scale_high 1 = guidance_scale_high
  /\ (forall nominal,
         isclose nominal 1 = false ->
         blend_scale guidance_scale_high nominal = nominal)
  /\ step_gate [10; 8; 6; 4; 2; 0] 2 9 true = Some FullGuidance
  /\ step_gate [10; 8; 6; 4; 2; 0] 2 3 true = Some FallbackBlend
  /\ (forall c u nominal,
         fdg_function pyrup build_laplacian_pyramid guidance_scale_high 2
                      guidance_scale parallel_weights_list
                      (mkArgs c (Some u) nominal [10; 8; 6; 4; 2; 0] 9)
         = laplacian_guidance pyrup build_laplacian_pyramid c u
                              guidance_scale (Some parallel_weights_list))
  /\ (forall c u nominal,
         fdg_function pyrup build_laplacian_pyramid guidance_scale_high 2
                      guidance_scale parallel_weights_list
                      (mkArgs c (Some u) nominal [10; 8; 6; 4; 2; 0] 3)
         = (d <- tsub c u ;;
            tadd u (muls d (blend_scale guidance_scale_high nominal)))).
Proof.
  assert (G9 : step_gate [10; 8; 6; 4; 2; 0] 2 9 true = Some FullGuidance).
  { unfold step_gate. simpl. destruct (Rgt_dec 9 6); [reflexivity|lra]. }
  assert (G3 : step_gate [10; 8; 6; 4; 2; 0] 2 3 true = Some FallbackBlend).
  { unfold step_gate. simpl. destruct (Rgt_dec 3 6); [lra|reflexivity]. }
  split; [intros; now apply fdg_function_passthrough|].
  split; [intros; now apply fdg_function_gated|].
  split; [reflexivity|].
  split; [unfold blend_scale; now rewrite isclose_one|].
  split; [intros nominal H; unfold blend_scale; now rewrite H|].
  split; [exact G9|]. split; [exact G3|]. split.
  - intros c u nominal.
    destruct (fdg_function_gated pyrup build_laplacian_pyramid
                guidance_scale_high 2 guidance_scale parallel_weights_list
                (mkArgs c (Some u) nominal [10; 8; 6; 4; 2; 0] 9) u)
      as (st & Hst & Hres); [reflexivity|lia|discriminate|].
    cbn [sample_sigmas sigma] in Hst. rewrite G9 in Hst.
    inversion Hst; subst st. exact Hres.
  - intros c u nominal.
    destruct (fdg_function_gated pyrup build_laplacian_pyramid
                guidance_scale_high 2 guidance_scale parallel_weights_list
                (mkArgs c (Some u) nominal [10; 8; 6; 4; 2; 0] 3) u)
      as (st & Hst & Hres); [reflexivity|lia|discriminate|].
    cbn [sample_sigmas sigma] in Hst. rewrite G3 in Hst.
    inversion Hst; subst st. exact Hres.
Qed.

(** ** Shapes [project] accepts *)

Lemma broadcast_dim_one_l (b : nat) : broadcast_dim 1 b = Some b.
Proof.
  unfold broadcast_dim. destruct (Nat.eqb_spec 1 b) as [<-|_]; reflexivity.
Qed.

Lemma broadcast_dim_idem_r (a b d : nat) :
  broadcast_dim a b = Some d -> broadcast_dim d b = Some d.
Proof.
  unfold broadcast_dim.
  destruct (Nat.eqb_spec a b); [intros E; inversion E; subst;
                                now rewrite Nat.eqb_refl|].
  destruct (Nat.eqb_spec a 1); [intros E; inversion E; subst;
                                now rewrite Nat.eqb_refl|].
  destruct (Nat.eqb_spec b 1); [|discriminate].
  intros E; inversion E; subst.
  destruct (Nat.eqb_spec d 1); [contradiction|].
  destruct (Nat.eqb_spec d 1); [contradiction|reflexivity].
Qed.

Lemma broadcast_dim_idem_l (a b d : nat) :
  broadcast_dim a b = Some d -> broadcast_dim a d = Some d.
Proof.
  unfold broadcast_dim.
  destruct (Nat.eqb_spec a b); [intros E; inversion E; subst;
                                now rewrite Nat.eqb_refl|].
  destruct (Nat.eqb_spec a 1).
  - intros E; inversion E; subst.
    destruct (Nat.eqb_spec 1 d); [congruence|reflexivity].
  - destruct (Nat.eqb_spec b 1); [|discriminate].
    intros E; inversion E; subst. now rewrite Nat.eqb_refl.
Qed.

Lemma broadcast_rev_idem_r (a b r : list nat) :
  broadcast_rev a b = Some r -> broadcast_rev r b = Some r.
Proof.
  revert b r. induction a as [|x a IH]; intros [|y b] r; simpl; intros E.
  - now inversion E.
  - inversion E. apply broadcast_rev_same.
  - inversion E. reflexivity.
  - destruct (broadcast_dim x y) as [d|] eqn:Ed; [|discriminate].
    destruct (broadcast_rev a b) as [t|] eqn:Et; [|discriminate].
    inversion E; subst r. simpl.
    now rewrite (broadcast_dim_idem_r _ _ _ Ed), (IH _ _ Et).
Qed.

Lemma broadcast_rev_idem_l (a b r : list nat) :
  broadcast_rev a b = Some r -> broadcast_rev a r = Some r.
Proof.
  revert b r. induction a as [|x a IH]; intros [|y b] r; simpl; intros E.
  - now inversion E.
  - reflexivity.
  - inversion E. apply (broadcast_rev_same (x :: a)).
  - destruct (broadcast_dim x y) as [d|] eqn:Ed; [|discriminate].
    destruct (broadcast_rev a b) as [t|] eqn:Et; [|discriminate].
    inversion E; subst r.
    now rewrite (broadcast_dim_idem_l _ _ _ Ed), (IH _ _ Et).
Qed.

Lemma broadcast_rev_length (a b r : list nat) :
  broadcast_rev a b = Some r -> (length b <= length r)%nat.
Proof.
  revert b r. induction a as [|x a IH]; intros [|y b] r; simpl; intros E;
    try (inversion E; simpl; lia).
  destruct (broadcast_dim x y) as [d|]; [|discriminate].
  destruct (broadcast_rev a b) as [t|] eqn:Et; [|discriminate].
  inversion E; subst r. simpl. apply IH in Et. lia.
Qed.

(** The [keepdim] sum of the product broadcasts against [v1], and [v0]
    against the result. *)
Lemma broadcast_rev_keepdim (n : nat) (r0 r1 r : list nat) :
  broadcast_rev r0 r1 = Some r -> (n <= length r1)%nat ->
  exists r' r'',
    broadcast_rev (repeat 1%nat n ++ skipn n r) r1 = Some r'
    /\ broadcast_rev r0 r' = Some r''.
Proof.
  revert r0 r1 r. induction n as [|n IH]; intros r0 r1 r E Hn.
  - simpl. exists r, r. split.
    + now apply broadcast_rev_idem_r with (a := r0).
    + now apply broadcast_rev_idem_l with (b := r1).
  - destruct r1 as [|y r1]; [simpl in Hn; lia|].
    destruct r0 as [|x r0].
    + simpl in E. inversion E; subst r.
      destruct (IH [] r1 r1 eq_refl ltac:(simpl in Hn; lia))
        as (t' & _ & Et & _).
      exists (y :: t'), (y :: t'). split; [|reflexivity].
      cbn [repeat app skipn broadcast_rev].
      now rewrite broadcast_dim_one_l, Et.
    + simpl in E.
      destruct (broadcast_dim x y) as [d|] eqn:Ed; [|discriminate].
      destruct (broadcast_rev r0 r1) as [t|] eqn:Et; [|discriminate].
      inversion E; subst r.
      destruct (IH r0 r1 t Et ltac:(simpl in Hn; lia))
        as (t' & t'' & Et' & Et'').
      exists (y :: t'), (d :: t''). split.
      * cbn [repeat app skipn broadcast_rev].
        now rewrite broadcast_dim_one_l, Et'.
      * simpl. now rewrite Ed, Et''.
Qed.

Lemma binop_ok (f : R -> R -> R) (a b : tensor) (s : list nat) :
  broadcast_shapes (shape a) (shape b) = Some s ->
  exists t, binop f a b = Ok t /\ shape t = s.
Proof.
  intros E. unfold binop. rewrite E. eexists. split; reflexivity.
Qed.

Lemma project_ok_broadcast (v0 v1 : tensor) (s : list nat) :
  (3 <= length (shape v1))%nat ->
  broadcast_shapes (shape v0) (shape v1) = Some s ->
  exists r, project v0 v1 = Ok r.
Proof.
  intros Hrank Hb. unfold project, normalize_chw, sum_chw. simpl shape.
  destruct (Nat.ltb_spec (length (shape v1)) 3) as [|_]; [lia|].
  cbn [bind].
  set (v1n := mkTensor (dtype (double v1)) (shape v1)
                       (concat (map normalized (entries (double v1))))).
  destruct (binop_ok Rmult (double v0) v1n s Hb) as (p & Hp & Hsp).
  unfold tmul at 1. rewrite Hp. cbn [bind].
  unfold broadcast_shapes in Hb.
  destruct (broadcast_rev (rev (shape v0)) (rev (shape v1))) as [r|] eqn:Er;
    [|discriminate].
  simpl in Hb. inversion Hb as [Hs]. clear Hb.
  assert (Hrs : (3 <= length s)%nat).
  { apply broadcast_rev_length in Er.
    rewrite <- Hs, length_rev. rewrite length_rev in Er. lia. }
  rewrite Hsp.
  destruct (Nat.ltb_spec (length s) 3) as [|_]; [lia|].
  cbn [bind].
  destruct (broadcast_rev_keepdim 3 _ _ _ Er
              ltac:(rewrite length_rev; exact Hrank))
    as (r' & r'' & Er' & Er'').
  assert (Hkeep : rev (lead_axes 3 s ++ [1; 1; 1]%nat)
                  = repeat 1%nat 3 ++ skipn 3 r).
  { rewrite rev_app_distr. simpl rev. simpl repeat. simpl app.
    do 3 f_equal. unfold lead_axes. rewrite <- skipn_rev, <- Hs.
    now rewrite rev_involutive. }
  match goal with
  | |- context [tmul ?a v1n] =>
      destruct (binop_ok Rmult a v1n (rev r')) as (q & Hq & Hsq)
  end.
  { unfold broadcast_shapes. simpl shape. now rewrite Hkeep, Er'. }
  unfold tmul. rewrite Hq. cbn [bind].
  destruct (binop_ok Rminus (double v0) q (rev r'')) as (o & Ho & _).
  { unfold broadcast_shapes. simpl shape.
    now rewrite Hsq, rev_involutive, Er''. }
  unfold tsub. rewrite Ho. cbn [bind]. eexists. reflexivity.
Qed.


(** C6, as stated, fails: tensors of different but broadcast-compatible
    shapes give a result. *)
Lemma project_broadcast_counterexample :
  shape pair_v0 <> shape pair_v1
  /\ (exists par orth,
         project pair_v0 pair_v1 = Ok (par, orth)
         /\ shape par = [2; 1; 1; 1]%nat /\ shape orth = [2; 1; 1; 1]%nat)
  /\ project pair_v0 pair_v1 <> Err ShapeMismatch.
Proof.
  split; [discriminate|].
  assert (E : exists par orth,
             project pair_v0 pair_v1 = Ok (par, orth)
             /\ shape par = [2; 1; 1; 1]%nat
             /\ shape orth = [2; 1; 1; 1]%nat).
  { do 2 eexists. split; [reflexivity|]. split; reflexivity. }
  split; [exact E|].
  destruct E as (par & orth & E & _). rewrite E. discriminate.
Qed.

(** On a reference with fewer than three axes the normalization over the
    last three axes raises. *)
Lemma project_low_rank (v0 v1 : tensor) :
  (length (shape v1) < 3)%nat -> project v0 v1 = Err IndexError.
Proof.
  intros H. unfold project, normalize_chw. simpl shape.
  destruct (Nat.ltb_spec (length (shape v1)) 3); [reflexivity|lia].
Qed.

(** C6, as amended: [project] succeeds on every pair of tensors of one
    shape with at least three axes, and it signals a shape-mismatch error
    exactly when [v1] has at least three axes and the two shapes are not
    broadcast-compatible, so only on tensors of different shapes. *)
Theorem project_shape_mismatch (v0 v1 : tensor) :
  (shape v0 = shape v1 -> (3 <= length (shape v0))%nat ->
   exists r, project v0 v1 = Ok r)
  /\ (project v0 v1 = Err ShapeMismatch
      <-> (3 <= length (shape v1))%nat
          /\ broadcast_shapes (shape v0) (shape v1) = None)
  /\ (project v0 v1 = Err ShapeMismatch -> shape v0 <> shape v1).
Proof.
  assert (Hiff : project v0 v1 = Err ShapeMismatch
                 <-> (3 <= length (shape v1))%nat
                     /\ broadcast_shapes (shape v0) (shape v1) = None).
  { split.
    - intros E.
      destruct (Nat.ltb_spec (length (shape v1)) 3) as [Hlt|Hge].
      + unfold project, normalize_chw in E. simpl shape in E.
        destruct (Nat.ltb_spec (length (shape v1)) 3); [|lia].
        discriminate.
      + split; [exact Hge|].
        destruct (broadcast_shapes (shape v0) (shape v1)) as [s|] eqn:Eb;
          [|reflexivity].
        destruct (project_ok_broadcast v0 v1 s Hge Eb) as [r Hr].
        rewrite Hr in E. discriminate.
    - intros [Hge Eb]. unfold project, normalize_chw. simpl shape.
      destruct (Nat.ltb_spec (length (shape v1)) 3); [lia|].
      cbn [bind]. unfold tmul, binop. simpl shape. now rewrite Eb. }
  split; [|split; [exact Hiff|]].
  - intros Hs Hrank.
    apply project_ok_broadcast with (s := shape v0); [congruence|].
    rewrite <- Hs. apply broadcast_shapes_same.
  - intros E Hs. apply Hiff in E. destruct E as [_ E].
    rewrite <- Hs, broadcast_shapes_same in E. discriminate.
Qed.

(** [patch] builds the schedule before it reads the parallel weights, and
    the schedule is refused for a negative number of levels: the parsing
    only ever runs with [levels >= 0]. *)
Lemma patch_negative_levels
      (torch_cos : R -> R)
      (pyrup : tensor -> result tensor)
      (build_laplacian_pyramid : tensor -> nat -> result (list tensor))
      (py_float : string -> option R)
      (high_scale low_scale : R) (levels fdg_steps : Z)
      (method parallel_weights : string) :
  (levels < 0)%Z ->
  exists e,
    patch torch_cos pyrup build_laplacian_pyramid py_float
          high_scale low_scale levels fdg_steps method parallel_weights
    = Err e.
Proof.
  intros Hl. unfold patch, create_guidance_scales, linspace.
  destruct (Z.eqb_spec levels 1); [lia|].
  destruct (Z.ltb_spec levels 0); [|lia].
  destruct (String.eqb method "linear"); [eexists; reflexivity|].
  destruct (String.eqb method "cosine"); eexists; reflexivity.
Qed.

(** * Further properties of the code *)

(** ** The schedules of [create_guidance_scales] *)

(** X1: for [levels >= 2] the linear schedule has exactly [levels] values,
    the [i]-th being the [i]-th point of the float32 [linspace] from
    [high_scale] to [low_scale]; whatever the rounding of the step, the
    first value is [float32(high_scale)] and the last is
    [float32(low_scale)], each within [2^-24 * |scale| + 2^-150] of the
    scale it rounds. *)
Theorem create_guidance_scales_linear
        (torch_cos : R -> R) (high_scale low_scale : R) (levels : Z) :
  (2 <= levels)%Z ->
  exists scales,
    create_guidance_scales torch_cos high_scale low_scale levels "linear"
    = Ok scales
    /\ length scales = Z.to_nat levels
    /\ (forall i, (i < Z.to_nat levels)%nat ->
                  nth_error scales i
                  = Some (linspace_point high_scale low_scale levels i))
    /\ nth_error scales 0 = Some (f32 high_scale)
    /\ nth_error scales (Z.to_nat levels - 1) = Some (f32 low_scale)
    /\ Rabs (f32 high_scale - high_scale)
       <= / 16777216 * Rabs high_scale + pow2 (-150)
    /\ Rabs (f32 low_scale - low_scale)
       <= / 16777216 * Rabs low_scale + pow2 (-150).
Proof.
  intros Hl.
  eexists. split; [apply linear_schedule; lia|].
  assert (Hnth : forall i, (i < Z.to_nat levels)%nat ->
                 nth_error (map (linspace_point high_scale low_scale levels)
                                (seq 0 (Z.to_nat levels))) i
                 = Some (linspace_point high_scale low_scale levels i)).
  { intros i Hi. now apply nth_error_map_seq. }
  split; [now rewrite length_map, length_seq|].
  split; [exact Hnth|].
  split; [|split; [|split]].
  - rewrite Hnth by lia. now rewrite linspace_point_first.
  - rewrite Hnth by lia. now rewrite linspace_point_last.
  - apply last_value_close.
  - apply last_value_close.
Qed.

Lemma create_guidance_scales_linear_witness :
  exists scales,
    create_guidance_scales rounded_cos 10 1 4 "linear" = Ok scales
    /\ length scales = Z.to_nat 4
    /\ (forall i, (i < Z.to_nat 4)%nat ->
                  nth_error scales i = Some (linspace_point 10 1 4 i))
    /\ nth_error scales 0 = Some (f32 10)
    /\ nth_error scales (Z.to_nat 4 - 1) = Some (f32 1)
    /\ Rabs (f32 10 - 10) <= / 16777216 * Rabs 10 + pow2 (-150)
    /\ Rabs (f32 1 - 1) <= / 16777216 * Rabs 1 + pow2 (-150).
Proof. apply (create_guidance_scales_linear rounded_cos 10 1 4). lia. Defined.

(** X2: [create_guidance_scales] returns a schedule exactly when [levels]
    is 1, or [levels] is not negative and the method is ["linear"] or
    ["cosine"]; and a schedule it returns always has [levels] entries. *)
Theorem create_guidance_scales_returns
        (torch_cos : R -> R) (high_scale low_scale : R) (levels : Z)
        (method : string) :
  ((exists scales,
       create_guidance_scales torch_cos high_scale low_scale levels method
       = Ok scales)
   <-> levels = 1%Z \/ ((0 <= levels)%Z /\ known_method method))
  /\ (forall scales,
         create_guidance_scales torch_cos high_scale low_scale levels method
         = Ok scales ->
         Z.of_nat (length scales) = levels).
Proof.
  unfold known_method.
  destruct (Z.eq_dec levels 1) as [E1|N1].
  - subst levels. split.
    + split; [now left|]. intros _. now exists [high_scale].
    + intros scales E. inversion E. reflexivity.
  - destruct (Z.ltb_spec levels 0) as [Hneg|Hpos].
    + assert (Herr : exists e, create_guidance_scales torch_cos high_scale
                                 low_scale levels method = Err e).
      { unfold create_guidance_scales, linspace.
        destruct (Z.eqb_spec levels 1); [contradiction|].
        destruct (Z.ltb_spec levels 0); [|lia].
        destruct (String.eqb method "linear"); [eexists; reflexivity|].
        destruct (String.eqb method "cosine"); eexists; reflexivity. }
      destruct Herr as [e He]. rewrite He. split.
      * split; [intros [s Hs]; discriminate|].
        intros [?|[? _]]; [contradiction|lia].
      * discriminate.
    + destruct (String.eqb_spec method "linear") as [->|Nlin].
      * rewrite linear_schedule by assumption. split.
        -- split; [intros _; right; auto|]. intros _. eexists. reflexivity.
        -- intros scales E. inversion E.
           rewrite length_map, length_seq. lia.
      * destruct (String.eqb_spec method "cosine") as [->|Ncos].
        -- rewrite cosine_schedule by assumption. split.
           ++ split; [intros _; right; auto|]. intros _.
              eexists. reflexivity.
           ++ intros scales E. inversion E.
              rewrite length_map, length_seq. lia.
        -- assert (He : create_guidance_scales torch_cos high_scale
                                               low_scale levels method
                        = Err (ValueError
                                 ("Unknown interpolation method: " ++ method))).
           { unfold create_guidance_scales.
             destruct (Z.eqb_spec levels 1); [contradiction|].
             destruct (String.eqb_spec method "linear"); [contradiction|].
             destruct (String.eqb_spec method "cosine"); [contradiction|].
             reflexivity. }
           rewrite He. split.
           ++ split; [intros [s Hs]; discriminate|].
              intros [?|[_ [?|?]]]; contradiction.
           ++ discriminate.
Qed.

(** X3: for [levels] other than 1 every value of a schedule that
    [create_guidance_scales] returns is a float32 number, a fixed point of
    the rounding to float32: a scale that is not one, such as [7.6], is
    never a value of the schedule. *)
Theorem create_guidance_scales_float32
        (torch_cos : R -> R) (high_scale low_scale : R) (levels : Z)
        (method : string) (scales : list R) :
  levels <> 1%Z ->
  create_guidance_scales torch_cos high_scale low_scale levels method
  = Ok scales ->
  Forall (fun v => f32 v = v) scales.
Proof.
  intros Hl E. unfold create_guidance_scales, linspace in E.
  destruct (Z.eqb_spec levels 1) as [|_]; [contradiction|].
  destruct (String.eqb method "linear").
  - destruct (levels <? 0)%Z; [discriminate|].
    injection E as <-. apply Forall_forall. intros v Hv.
    apply in_map_iff in Hv. destruct Hv as (i & <- & _).
    apply linspace_point_float32.
  - destruct (String.eqb method "cosine"); [|discriminate].
    destruct (levels <? 0)%Z; [discriminate|]. cbn [bind] in E.
    injection E as <-. apply Forall_forall. intros v Hv.
    apply in_map_iff in Hv. destruct Hv as (t & <- & _).
    apply cosine_point_float32.
Qed.

Lemma create_guidance_scales_float32_witness :
  Forall (fun v => f32 v = v)
         (map (linspace_point double_7_6 1 4) (seq 0 (Z.to_nat 4))).
Proof.
  apply (create_guidance_scales_float32 rounded_cos double_7_6 1 4 "linear").
  - lia.
  - apply linear_schedule; lia.
Defined.

(** ** The parts [project] returns *)

Lemma nth_error_map2 {A B C : Type} (f : A -> B -> C) (l1 : list A)
      (l2 : list B) (k : nat) (z : C) :
  nth_error (map2 f l1 l2) k = Some z ->
  exists a b, nth_error l1 k = Some a /\ nth_error l2 k = Some b
              /\ z = f a b.
Proof.
  revert l2 k. induction l1 as [|a l1 IH]; intros [|b l2] [|k]; simpl;
    intros E; try discriminate.
  - inversion E. now exists a, b.
  - now apply IH.
Qed.

Lemma map2_nested_r {A B C D : Type} (h : C -> B -> D) (g : A -> B -> C)
      (l1 : list A) (l2 : list B) :
  map2 h (map2 g l1 l2) l2 = map2 (fun a b => h (g a b) b) l1 l2.
Proof.
  revert l2; induction l1 as [|a l1 IH]; intros [|b l2]; simpl; auto.
  now rewrite IH.
Qed.

(** The setting every statement about [project] on tensors of one shape
    starts from. *)
Lemma project_entries (v0 v1 : tensor) :
  shape v0 = shape v1 -> (3 <= length (shape v0))%nat -> wf v0 -> wf v1 ->
  exists par orth,
    project v0 v1 = Ok (par, orth)
    /\ par = mkTensor (dtype v0) (shape v0)
                      (concat (map2 entry_parallel (entries v0) (entries v1)))
    /\ orth = mkTensor (dtype v0) (shape v0)
                       (concat (map2 entry_orthogonal (entries v0)
                                     (entries v1)))
    /\ entries par = map2 entry_parallel (entries v0) (entries v1)
    /\ entries orth = map2 entry_orthogonal (entries v0) (entries v1)
    /\ wf par /\ wf orth
    /\ Forall2 (fun a b => length a = numel (last_axes 3 (shape v0))
                           /\ length b = numel (last_axes 3 (shape v0)))
               (entries v0) (entries v1).
Proof.
  intros Hs Hrank Hwf0 Hwf1.
  assert (Hlen : length (entries v0) = length (entries v1))
    by (now rewrite !entries_length, Hs).
  pose proof (entries_Forall_length _ Hwf0) as HF0.
  pose proof (entries_Forall_length _ Hwf1) as HF1.
  rewrite <- Hs in HF1.
  pose proof (Forall2_entries _ _ _ Hlen HF0 HF1) as HF2.
  assert (Hpar_F : Forall (fun e => length e = numel (last_axes 3 (shape v0)))
                          (map2 entry_parallel (entries v0) (entries v1))).
  { eapply map2_Forall; [|exact HF2].
    intros a b [Ha Hb]. now rewrite entry_parallel_length. }
  assert (Horth_F : Forall (fun e => length e
                                     = numel (last_axes 3 (shape v0)))
                           (map2 entry_orthogonal (entries v0) (entries v1))).
  { eapply map2_Forall; [|exact HF2].
    intros a b [Ha Hb]. rewrite entry_orthogonal_length; congruence. }
  assert (Hpar_len : length (map2 entry_parallel (entries v0) (entries v1))
                     = numel (lead_axes 3 (shape v0)))
    by (rewrite (map2_length_Forall2 _ _ _ _ HF2); apply entries_length).
  assert (Horth_len : length (map2 entry_orthogonal (entries v0) (entries v1))
                      = numel (lead_axes 3 (shape v0)))
    by (rewrite (map2_length_Forall2 _ _ _ _ HF2); apply entries_length).
  do 2 eexists.
  split; [now apply project_same_shape|].
  split; [reflexivity|]. split; [reflexivity|].
  split; [now apply entries_of_blocks|].
  split; [now apply entries_of_blocks|].
  split; [now apply wf_of_blocks|].
  split; [now apply wf_of_blocks|exact HF2].
Qed.

(** X5: on well-formed tensors of one shape with at least three axes,
    whatever the reference [v1] is (zero and below the clamp included),
    [project] returns two parts of the shape and dtype of [v0] that add up
    to [v0] exactly. *)
Theorem project_reconstructs (v0 v1 : tensor) :
  shape v0 = shape v1 -> (3 <= length (shape v0))%nat -> wf v0 -> wf v1 ->
  exists par orth,
    project v0 v1 = Ok (par, orth)
    /\ shape par = shape v0 /\ shape orth = shape v0
    /\ dtype par = dtype v0 /\ dtype orth = dtype v0
    /\ tadd par orth = Ok v0.
Proof.
  intros Hs Hrank Hwf0 Hwf1.
  destruct (project_entries v0 v1 Hs Hrank Hwf0 Hwf1)
    as (par & orth & Hp & Epar & Eorth & _ & _ & Hwp & Hwo & HF2).
  exists par, orth. split; [exact Hp|].
  subst par orth. repeat split.
  unfold tadd. rewrite binop_same_shape; [|reflexivity|exact Hwp|exact Hwo].
  simpl.
  rewrite promote_same, (sum_blocks _ _ _ HF2), (entries_concat _ Hwf0).
  now rewrite tensor_eta.
Qed.

Lemma project_reconstructs_witness :
  exists par orth,
    project tiny_v0 tiny_v1 = Ok (par, orth)
    /\ shape par = shape tiny_v0 /\ shape orth = shape tiny_v0
    /\ dtype par = dtype tiny_v0 /\ dtype orth = dtype tiny_v0
    /\ tadd par orth = Ok tiny_v0.
Proof.
  apply (project_reconstructs tiny_v0 tiny_v1);
    [reflexivity|simpl; lia|reflexivity|reflexivity].
Defined.

Lemma clamped_norm_pos (e : list R) : 0 < clamped_norm e.
Proof. apply normalize_divisor_pos. Qed.

Lemma entry_parallel_clamped (e0 e1 : list R) :
  entry_parallel e0 e1 = clamped_projection e0 e1.
Proof.
  unfold entry_parallel, clamped_projection, normalized.
  fold (clamped_norm e1). rewrite dot_div_r, map_map.
  apply map_ext. intros x.
  pose proof (clamped_norm_pos e1). field. lra.
Qed.

Lemma entry_orthogonal_residual (e0 e1 : list R) :
  length e0 = length e1 ->
  dot (entry_orthogonal e0 e1) e1
  = dot e0 e1
    * (1 - dot e1 e1 / (clamped_norm e1 * clamped_norm e1)).
Proof.
  intros Hl. unfold entry_orthogonal.
  rewrite dot_sub_l by (now rewrite entry_parallel_length).
  rewrite entry_parallel_clamped. unfold clamped_projection.
  rewrite dot_map_l.
  pose proof (clamped_norm_pos e1). field. lra.
Qed.

(** X6: what [project] computes under the clamp of [normalize]: in every
    batch entry the parallel part is [v1] times the inner product of [v0]
    and [v1] over the square of [max(norm v1, eps)], so it is always a
    multiple of [v1]; and the inner product of the orthogonal part with
    [v1] is the inner product of [v0] and [v1] times
    [1 - (norm v1 / max(norm v1, eps))^2]. *)
Theorem project_clamped (v0 v1 : tensor) :
  shape v0 = shape v1 -> (3 <= length (shape v0))%nat -> wf v0 -> wf v1 ->
  exists par orth,
    project v0 v1 = Ok (par, orth)
    /\ entries par = map2 clamped_projection (entries v0) (entries v1)
    /\ (forall k e0 e1 eo,
           nth_error (entries v0) k = Some e0 ->
           nth_error (entries v1) k = Some e1 ->
           nth_error (entries orth) k = Some eo ->
           dot eo e1
           = dot e0 e1
             * (1 - dot e1 e1 / (clamped_norm e1 * clamped_norm e1))).
Proof.
  intros Hs Hrank Hwf0 Hwf1.
  destruct (project_entries v0 v1 Hs Hrank Hwf0 Hwf1)
    as (par & orth & Hp & _ & _ & Epar & Eorth & _ & _ & HF2).
  exists par, orth. split; [exact Hp|]. split.
  - rewrite Epar. eapply map2_ext_Forall2; [|exact HF2].
    intros a b _. apply entry_parallel_clamped.
  - intros k e0 e1 eo H0 H1 Ho. rewrite Eorth in Ho.
    apply nth_error_map2 in Ho. destruct Ho as (a & b & Ha & Hb & ->).
    assert (a = e0) by congruence. assert (b = e1) by congruence.
    subst a b. apply entry_orthogonal_residual.
    clear - HF2 H0 H1. revert k H0 H1.
    induction HF2 as [|x y xs ys [Hx Hy] _ IH]; intros [|k] H0 H1;
      simpl in *; try discriminate.
    + inversion H0; inversion H1; subst. congruence.
    + eapply IH; eassumption.
Qed.

Lemma project_clamped_witness :
  exists par orth,
    project tiny_v0 tiny_v1 = Ok (par, orth)
    /\ entries par
       = map2 clamped_projection (entries tiny_v0) (entries tiny_v1)
    /\ (forall k e0 e1 eo,
           nth_error (entries tiny_v0) k = Some e0 ->
           nth_error (entries tiny_v1) k = Some e1 ->
           nth_error (entries orth) k = Some eo ->
           dot eo e1
           = dot e0 e1
             * (1 - dot e1 e1 / (clamped_norm e1 * clamped_norm e1))).
Proof.
  apply (project_clamped tiny_v0 tiny_v1);
    [reflexivity|simpl; lia|reflexivity|reflexivity].
Defined.

Lemma dot_comm (a b : list R) : dot a b = dot b a.
Proof.
  unfold dot. revert b; induction a as [|x a IH]; intros [|y b]; simpl;
    try reflexivity.
  rewrite IH. ring.
Qed.

Lemma unit_vector_dot (e : list R) :
  normalize_eps <= norm2 e -> dot (unit_vector e) (unit_vector e) = 1.
Proof.
  intros H. unfold unit_vector. rewrite dot_div_l, dot_div_r.
  pose proof normalize_eps_pos. rewrite <- norm2_sqr. field. lra.
Qed.

Lemma unit_vector_length (e : list R) : length (unit_vector e) = length e.
Proof. apply length_map. Qed.

Lemma map2_minus_self (e : list R) :
  map2 Rminus e e = repeat 0 (length e).
Proof.
  induction e as [|x e IH]; simpl; [reflexivity|].
  rewrite IH. f_equal. ring.
Qed.

Lemma map_mult_zero (e : list R) :
  map (Rmult 0) e = repeat 0 (length e).
Proof.
  induction e as [|x e IH]; simpl; [reflexivity|].
  rewrite IH. f_equal. ring.
Qed.

Lemma entry_parallel_idem (e0 e1 : list R) :
  normalize_eps <= norm2 e1 ->
  entry_parallel (entry_parallel e0 e1) e1 = entry_parallel e0 e1.
Proof.
  intros H. rewrite !entry_parallel_projection by assumption.
  unfold projection at 1. unfold projection at 1.
  rewrite dot_map_l, unit_vector_dot by assumption.
  unfold projection. now rewrite Rmult_1_r.
Qed.

Lemma entry_orthogonal_of_parallel (e0 e1 : list R) :
  normalize_eps <= norm2 e1 ->
  entry_orthogonal (entry_parallel e0 e1) e1 = repeat 0 (length e1).
Proof.
  intros H. unfold entry_orthogonal.
  rewrite entry_parallel_idem by assumption.
  now rewrite map2_minus_self, entry_parallel_length.
Qed.

Lemma entry_orthogonal_dot_unit (e0 e1 : list R) :
  length e0 = length e1 -> normalize_eps <= norm2 e1 ->
  dot (entry_orthogonal e0 e1) (unit_vector e1) = 0.
Proof.
  intros Hl H. unfold unit_vector at 1.
  rewrite dot_div_r, entry_orthogonal_dot by assumption.
  unfold Rdiv. ring.
Qed.

Lemma entry_parallel_of_orthogonal (e0 e1 : list R) :
  length e0 = length e1 -> normalize_eps <= norm2 e1 ->
  entry_parallel (entry_orthogonal e0 e1) e1 = repeat 0 (length e1).
Proof.
  intros Hl H. rewrite entry_parallel_projection by assumption.
  unfold projection. rewrite entry_orthogonal_dot_unit by assumption.
  now rewrite map_mult_zero, unit_vector_length.
Qed.

Lemma entry_orthogonal_idem (e0 e1 : list R) :
  length e0 = length e1 -> normalize_eps <= norm2 e1 ->
  entry_orthogonal (entry_orthogonal e0 e1) e1 = entry_orthogonal e0 e1.
Proof.
  intros Hl H. unfold entry_orthogonal at 1.
  rewrite entry_parallel_of_orthogonal by assumption.
  rewrite <- Hl, <- (entry_orthogonal_length e0 e1 Hl).
  apply map2_minus_zeros.
Qed.

Lemma concat_zero_blocks {A B : Type} (n : nat) (xs : list A) (ys : list B)
      (P : A -> B -> Prop) :
  Forall2 P xs ys ->
  concat (map2 (fun _ _ => repeat 0 n) xs ys) = repeat 0 (length xs * n).
Proof.
  induction 1 as [|a b xs ys _ _ IH]; simpl; [reflexivity|].
  now rewrite IH, repeat_app.
Qed.

Lemma Forall2_entries_big (n : nat) (xs ys : list (list R)) :
  Forall2 (fun a b => length a = n /\ length b = n) xs ys ->
  Forall (fun e => normalize_eps <= norm2 e) ys ->
  Forall2 (fun a b => length a = n /\ length b = n
                      /\ normalize_eps <= norm2 b) xs ys.
Proof.
  induction 1 as [|a b xs ys [Ha Hb] _ IH]; intros Hbig; constructor;
    inversion Hbig; subst; auto.
Qed.

(** X7: [project] is idempotent above the clamp: when every batch entry of
    [v1] has a norm of at least [eps], projecting the parallel part of
    [v0] on [v1] again returns it unchanged with a zero orthogonal part,
    and projecting the orthogonal part returns a zero parallel part and
    the orthogonal part unchanged. *)
Theorem project_idempotent (v0 v1 : tensor) :
  shape v0 = shape v1 -> (3 <= length (shape v0))%nat -> wf v0 -> wf v1 ->
  Forall (fun e => normalize_eps <= norm2 e) (entries v1) ->
  exists par orth,
    project v0 v1 = Ok (par, orth)
    /\ project par v1 = Ok (par, zeros_like v0)
    /\ project orth v1 = Ok (zeros_like v0, orth).
Proof.
  intros Hs Hrank Hwf0 Hwf1 Hbig.
  destruct (project_entries v0 v1 Hs Hrank Hwf0 Hwf1)
    as (par & orth & Hp & Epar & Eorth & Enpar & Enorth & Hwp & Hwo & HF2).
  exists par, orth. split; [exact Hp|].
  assert (Hdp : dtype par = dtype v0) by (now subst par).
  assert (Hdo : dtype orth = dtype v0) by (now subst orth).
  assert (Hshp : shape par = shape v0) by (now subst par).
  assert (Hsho : shape orth = shape v0) by (now subst orth).
  pose proof (Forall2_entries_big _ _ _ HF2 Hbig) as HF3.
  set (N := numel (last_axes 3 (shape v0))) in *.
  set (Q := fun a b : list R =>
              length a = N /\ length b = N /\ normalize_eps <= norm2 b)
    in *.
  assert (Hzeros : concat (map2 (fun _ _ : list R => repeat 0 N)
                                (entries v0) (entries v1))
                   = repeat 0 (numel (shape v0))).
  { rewrite (concat_zero_blocks _ _ _ _ HF3), entries_length.
    unfold N. now rewrite <- numel_split. }
  split.
  - rewrite project_same_shape;
      [|congruence|now rewrite Hshp|exact Hwp|exact Hwf1].
    rewrite Hdp, Hshp, Enpar, !map2_nested_r.
    rewrite (map2_ext_Forall2 Q
               (fun a b => entry_parallel (entry_parallel a b) b)
               entry_parallel (entries v0) (entries v1)
               (fun a b H => entry_parallel_idem a b (proj2 (proj2 H))) HF3).
    rewrite (map2_ext_Forall2 Q
               (fun a b => entry_orthogonal (entry_parallel a b) b)
               (fun _ _ => repeat 0 N) (entries v0) (entries v1)).
    + rewrite Hzeros, <- Epar. reflexivity.
    + intros a b (_ & Hb & Hn).
      rewrite entry_orthogonal_of_parallel by exact Hn. now rewrite Hb.
    + exact HF3.
  - rewrite project_same_shape;
      [|congruence|now rewrite Hsho|exact Hwo|exact Hwf1].
    rewrite Hdo, Hsho, Enorth, !map2_nested_r.
    rewrite (map2_ext_Forall2 Q
               (fun a b => entry_parallel (entry_orthogonal a b) b)
               (fun _ _ => repeat 0 N) (entries v0) (entries v1)).
    + rewrite (map2_ext_Forall2 Q
                 (fun a b => entry_orthogonal (entry_orthogonal a b) b)
                 entry_orthogonal (entries v0) (entries v1)).
      * rewrite Hzeros, <- Eorth. reflexivity.
      * intros a b (Ha & Hb & Hn).
        apply entry_orthogonal_idem; [congruence|exact Hn].
      * exact HF3.
    + intros a b (Ha & Hb & Hn).
      rewrite entry_parallel_of_orthogonal; [now rewrite Hb|congruence|].
      exact Hn.
    + exact HF3.
Qed.

Lemma vec_v1_norms :
  Forall (fun e => normalize_eps <= norm2 e) (entries vec_v1).
Proof.
  pose proof normalize_eps_pos as Hpos.
  assert (Heps : normalize_eps <= 1) by (unfold normalize_eps; lra).
  unfold entries; simpl.
  constructor; [|constructor; [|constructor]]; unfold norm2, dot; simpl.
  - replace (3 * 3 + (4 * 4 + 0)) with (5 * 5) by lra.
    rewrite sqrt_square; lra.
  - replace (1 * 1 + (0 * 0 + 0)) with (1 * 1) by lra.
    rewrite sqrt_square; lra.
Qed.

Lemma project_idempotent_witness :
  exists par orth,
    project vec_v0 vec_v1 = Ok (par, orth)
    /\ project par vec_v1 = Ok (par, zeros_like vec_v0)
    /\ project orth vec_v1 = Ok (zeros_like vec_v0, orth).
Proof.
  apply (project_idempotent vec_v0 vec_v1);
    [reflexivity|simpl; lia|reflexivity|reflexivity|exact vec_v1_norms].
Defined.

Lemma entry_parallel_dot_self (e0 e1 : list R) :
  normalize_eps <= norm2 e1 ->
  dot (entry_parallel e0 e1) (entry_parallel e0 e1)
  = dot e0 (unit_vector e1) * dot e0 (unit_vector e1).
Proof.
  intros H. rewrite entry_parallel_projection by assumption.
  unfold projection.
  rewrite dot_map_l, (dot_comm (unit_vector e1)), dot_map_l.
  rewrite unit_vector_dot by assumption. ring.
Qed.

Lemma entry_pythagoras (e0 e1 : list R) :
  length e0 = length e1 -> normalize_eps <= norm2 e1 ->
  dot e0 e0
  = dot (entry_parallel e0 e1) (entry_parallel e0 e1)
    + dot (entry_orthogonal e0 e1) (entry_orthogonal e0 e1).
Proof.
  intros Hl H.
  assert (Hlp : length e0 = length (entry_parallel e0 e1))
    by (now rewrite entry_parallel_length).
  assert (Hpo : dot (entry_parallel e0 e1) (entry_orthogonal e0 e1) = 0).
  { rewrite entry_parallel_projection by assumption. unfold projection.
    rewrite dot_map_l, (dot_comm (unit_vector e1) (entry_orthogonal e0 e1)).
    rewrite entry_orthogonal_dot_unit by assumption. ring. }
  assert (Hpe : dot (entry_parallel e0 e1) e0
                = dot e0 (unit_vector e1) * dot e0 (unit_vector e1)).
  { rewrite entry_parallel_projection by assumption. unfold projection.
    rewrite dot_map_l, (dot_comm (unit_vector e1)). ring. }
  assert (Hoo : dot (entry_orthogonal e0 e1) (entry_orthogonal e0 e1)
                = dot e0 e0 - dot (entry_parallel e0 e1) e0).
  { unfold entry_orthogonal at 1. rewrite dot_sub_l by exact Hlp.
    rewrite Hpo, (dot_comm e0 (entry_orthogonal e0 e1)).
    unfold entry_orthogonal. rewrite dot_sub_l by exact Hlp. ring. }
  rewrite Hoo, Hpe, entry_parallel_dot_self by assumption. ring.
Qed.

(** X8: above the clamp the two parts are at right angles: in every batch
    entry the squared norm of [v0] is the sum of the squared norms of its
    parallel and orthogonal parts, so neither part has a larger norm than
    [v0]. *)
Theorem project_pythagoras (v0 v1 : tensor) :
  shape v0 = shape v1 -> (3 <= length (shape v0))%nat -> wf v0 -> wf v1 ->
  Forall (fun e => normalize_eps <= norm2 e) (entries v1) ->
  exists par orth,
    project v0 v1 = Ok (par, orth)
    /\ (forall k e0 ep eo,
           nth_error (entries v0) k = Some e0 ->
           nth_error (entries par) k = Some ep ->
           nth_error (entries orth) k = Some eo ->
           dot e0 e0 = dot ep ep + dot eo eo
           /\ norm2 ep <= norm2 e0 /\ norm2 eo <= norm2 e0).
Proof.
  intros Hs Hrank Hwf0 Hwf1 Hbig.
  destruct (project_entries v0 v1 Hs Hrank Hwf0 Hwf1)
    as (par & orth & Hp & _ & _ & Enpar & Enorth & _ & _ & HF2).
  exists par, orth. split; [exact Hp|].
  pose proof (Forall2_entries_big _ _ _ HF2 Hbig) as HF3.
  intros k e0 ep eo H0 Hep Heo. rewrite Enpar in Hep. rewrite Enorth in Heo.
  apply nth_error_map2 in Hep. destruct Hep as (a & b & Ha & Hb & ->).
  apply nth_error_map2 in Heo. destruct Heo as (a' & b' & Ha' & Hb' & ->).
  assert (a = e0) by congruence. assert (a' = e0) by congruence.
  assert (b' = b) by congruence. subst a a' b'.
  assert (Hab : length e0 = length b /\ normalize_eps <= norm2 b).
  { clear - HF3 H0 Hb. revert k H0 Hb.
    induction HF3 as [|x y xs ys (Hx & Hy & Hn) _ IH]; intros [|k] H0 Hb;
      simpl in *; try discriminate.
    - inversion H0; inversion Hb; subst. split; [congruence|exact Hn].
    - eapply IH; eassumption. }
  destruct Hab as [Hl Hn].
  pose proof (entry_pythagoras e0 b Hl Hn) as Hpy.
  pose proof (dot_self_nonneg (entry_parallel e0 b)) as Hpp.
  pose proof (dot_self_nonneg (entry_orthogonal e0 b)) as Hoo.
  split; [exact Hpy|].
  unfold norm2. split; apply sqrt_le_1_alt; lra.
Qed.

Lemma project_pythagoras_witness :
  exists par orth,
    project vec_v0 vec_v1 = Ok (par, orth)
    /\ (forall k e0 ep eo,
           nth_error (entries vec_v0) k = Some e0 ->
           nth_error (entries par) k = Some ep ->
           nth_error (entries orth) k = Some eo ->
           dot e0 e0 = dot ep ep + dot eo eo
           /\ norm2 ep <= norm2 e0 /\ norm2 eo <= norm2 e0).
Proof.
  apply (project_pythagoras vec_v0 vec_v1);
    [reflexivity|simpl; lia|reflexivity|reflexivity|exact vec_v1_norms].
Defined.

Lemma chunks_map (f : R -> R) (k n : nat) (l : list R) :
  chunks k n (map f l) = map (map f) (chunks k n l).
Proof.
  revert l; induction k as [|k IH]; intros l; simpl; [reflexivity|].
  now rewrite firstn_map, skipn_map, IH.
Qed.

Lemma dot_scale_both (k : R) (e : list R) :
  dot (map (Rmult k) e) (map (Rmult k) e) = k * k * dot e e.
Proof.
  rewrite dot_map_l, dot_comm, dot_map_l. ring.
Qed.

Lemma norm2_scale (k : R) (e : list R) :
  norm2 (map (Rmult k) e) = Rabs k * norm2 e.
Proof.
  unfold norm2. rewrite dot_scale_both.
  rewrite sqrt_mult_alt by (pose proof (Rle_0_sqr k) as H; exact H).
  f_equal. fold (Rsqr k). apply sqrt_Rsqr_abs.
Qed.

Lemma entry_parallel_scale (k : R) (e0 e1 : list R) :
  k <> 0 -> normalize_eps <= norm2 e1 ->
  normalize_eps <= norm2 (map (Rmult k) e1) ->
  entry_parallel e0 (map (Rmult k) e1) = entry_parallel e0 e1.
Proof.
  intros Hk H1 Hk1.
  rewrite !entry_parallel_projection by assumption.
  unfold projection, unit_vector.
  rewrite norm2_scale, !dot_div_r, dot_comm, dot_map_l, (dot_comm e1).
  rewrite !map_map. apply map_ext. intros x.
  pose proof normalize_eps_pos as Hpos.
  assert (Ha : Rabs k <> 0) by (now apply Rabs_no_R0).
  assert (Hn : norm2 e1 <> 0) by lra.
  assert (Hkk : k * k = Rabs k * Rabs k).
  { rewrite <- Rabs_mult. symmetry. apply Rabs_right.
    pose proof (Rle_0_sqr k) as H. unfold Rsqr in H. lra. }
  field_simplify_eq; [|auto].
  replace (k ^ 2) with (k * k) by ring.
  replace (Rabs k ^ 2) with (Rabs k * Rabs k) by ring.
  rewrite Hkk. ring.
Qed.

Lemma entries_smul (k : R) (t : tensor) :
  entries (smul k t) = map (map (Rmult k)) (entries t).
Proof. unfold entries. simpl. apply chunks_map. Qed.

Lemma Forall2_entries_scaled (k : R) (n : nat) (xs ys : list (list R)) :
  Forall2 (fun a b => length a = n /\ length b = n) xs ys ->
  Forall (fun e => normalize_eps <= norm2 e) ys ->
  Forall (fun e => normalize_eps <= norm2 e) (map (map (Rmult k)) ys) ->
  Forall2 (fun a b => normalize_eps <= norm2 b
                      /\ normalize_eps <= norm2 (map (Rmult k) b)) xs ys.
Proof.
  induction 1 as [|a b xs ys _ _ IH]; intros H1 H2; constructor;
    inversion H1; inversion H2; subst; auto.
Qed.

(** X9: above the clamp [project] depends on the direction of [v1] only:
    scaling [v1] by a non-zero number, its norms staying at least [eps],
    changes neither part. *)
Theorem project_scale_invariant (k : R) (v0 v1 : tensor) :
  shape v0 = shape v1 -> (3 <= length (shape v0))%nat -> wf v0 -> wf v1 ->
  k <> 0 ->
  Forall (fun e => normalize_eps <= norm2 e) (entries v1) ->
  Forall (fun e => normalize_eps <= norm2 e) (entries (smul k v1)) ->
  project v0 (smul k v1) = project v0 v1.
Proof.
  intros Hs Hrank Hwf0 Hwf1 Hk Hbig Hbigk.
  destruct (project_entries v0 v1 Hs Hrank Hwf0 Hwf1)
    as (_ & _ & _ & _ & _ & _ & _ & _ & _ & HF2).
  rewrite entries_smul in Hbigk.
  pose proof (Forall2_entries_scaled k _ _ _ HF2 Hbig Hbigk) as HF3.
  rewrite (project_same_shape v0 v1) by assumption.
  rewrite (project_same_shape v0 (smul k v1));
    [|exact Hs|exact Hrank|exact Hwf0|now apply smul_wf].
  rewrite entries_smul, !map2_map_r.
  assert (Epar : map2 (fun a b => entry_parallel a (map (Rmult k) b))
                      (entries v0) (entries v1)
                 = map2 entry_parallel (entries v0) (entries v1)).
  { eapply map2_ext_Forall2; [|exact HF3].
    intros a b [H1 H2]. now apply entry_parallel_scale. }
  assert (Eorth : map2 (fun a b => entry_orthogonal a (map (Rmult k) b))
                       (entries v0) (entries v1)
                  = map2 entry_orthogonal (entries v0) (entries v1)).
  { eapply map2_ext_Forall2; [|exact HF3].
    intros a b [H1 H2]. unfold entry_orthogonal.
    now rewrite entry_parallel_scale. }
  now rewrite Epar, Eorth.
Qed.

Lemma project_scale_invariant_witness :
  project vec_v0 (smul (- 2) vec_v1) = project vec_v0 vec_v1.
Proof.
  apply (project_scale_invariant (- 2) vec_v0 vec_v1);
    [reflexivity|simpl; lia|reflexivity|reflexivity|lra
    |exact vec_v1_norms|].
  rewrite entries_smul.
  apply Forall_map. eapply Forall_impl; [|exact vec_v1_norms].
  intros e He. rewrite norm2_scale.
  rewrite Rabs_left by lra.
  pose proof normalize_eps_pos. nra.
Defined.

(** ** Levels the mixer leaves alone *)

Lemma guided_level_unit_scale (original_size : list nat) (idx : nat)
      (c u : tensor) (w : R) :
  paired_level c u ->
  guided_level original_size idx c u 1 w
  = (' (h, w) <- level_size original_size idx ;; crop_hw h w c).
Proof.
  intros (Hs & Hd & Hwc & Hwu & Hrank). unfold guided_level.
  destruct (level_size original_size idx) as [[h w']|e]; [|reflexivity].
  cbn [bind].
  destruct (crop_hw_ok h w' c ltac:(lia)) as [c' Hc]. rewrite Hc.
  destruct (crop_hw_same_shape h w' c u c' Hs Hc) as (u' & Hu & Hsu & Hdu).
  rewrite Hu. cbn [bind].
  pose proof (crop_hw_wf _ _ _ _ Hwc Hc) as Hwc'.
  pose proof (crop_hw_wf _ _ _ _ Hwu Hu) as Hwu'.
  destruct (crop_hw_shape _ _ _ _ Hc) as (lead & H & W & Hsc & Hsc' & Hdc).
  assert (Hrank' : (3 <= length (shape c'))%nat).
  { rewrite Hsc'. rewrite Hsc in Hrank. rewrite length_app in *. exact Hrank. }
  destruct (binop_ok_same_shape Rminus c' u' (eq_sym Hsu) Hwc' Hwu')
    as (diff & Hdiff & Hsd & Hdd & _ & Hwd).
  unfold tsub. rewrite Hdiff. cbn [bind].
  destruct (project_ok_same_shape diff c' Hsd ltac:(congruence) Hwd Hwc')
    as (par & orth & Hp & Hsp & Hso & Hdp & Hdo & Hwp & Hwo).
  rewrite Hp. cbn [bind].
  destruct (binop_ok_same_shape Rplus (smul w par) orth
              ltac:(simpl; congruence) (smul_wf w par Hwp) Hwo)
    as (d2 & Hd2 & Hsd2 & Hdd2 & _ & Hwd2).
  unfold tadd. rewrite Hd2. cbn [bind].
  simpl in Hsd2, Hdd2.
  rewrite binop_same_shape;
    [|simpl; congruence|exact Hwc'|now apply smul_wf].
  simpl. rewrite map2_plus_zero_scaled
    by (unfold wf in *; rewrite Hwc', Hwd2; congruence).
  f_equal. rewrite <- (tensor_eta c') at 4. f_equal.
  rewrite Hdd2, Hdp, Hdo, Hdd, Hdu, Hdc, Hd, !promote_same.
  reflexivity.
Qed.

Lemma guided_pyramid_unit_scales (original_size : list nat) (idx n : nat)
      (cs us : list tensor) (ws : list R) :
  Forall2 paired_level cs us ->
  guided_pyramid original_size idx cs us (repeat 1 n) ws
  = cropped_pyramid original_size idx cs (Nat.min n (length ws)).
Proof.
  intros HF. revert idx n ws.
  induction HF as [|c u cs us Hcu _ IH]; intros idx [|n] [|w ws]; simpl;
    try reflexivity.
  rewrite guided_level_unit_scale by exact Hcu.
  destruct (level_size original_size idx) as [[h w']|e]; [|reflexivity].
  cbn [bind]. destruct (crop_hw h w' c); [|reflexivity].
  cbn [bind]. now rewrite IH.
Qed.

(** X10: when every guidance scale is 1 the parallel weights have no
    effect: two calls whose weight lists both reach the number of scales
    return the same result, whatever the weights are.  The hypothesis is
    the one of C1 on kornia's pyramids. *)
Theorem unit_scales_ignore_weights
        (pyrup : tensor -> result tensor)
        (build_laplacian_pyramid : tensor -> nat -> result (list tensor))
        (pred_cond pred_uncond : tensor) (L : nat) (ws ws' : list R) :
  (forall cp up,
      build_laplacian_pyramid pred_cond L = Ok cp ->
      build_laplacian_pyramid pred_uncond L = Ok up ->
      Forall2 paired_level cp up) ->
  (L <= length ws)%nat -> (L <= length ws')%nat ->
  laplacian_guidance pyrup build_laplacian_pyramid pred_cond pred_uncond
                     (repeat 1 L) (Some ws)
  = laplacian_guidance pyrup build_laplacian_pyramid pred_cond pred_uncond
                       (repeat 1 L) (Some ws').
Proof.
  intros Hlevels Hw Hw'. unfold laplacian_guidance. rewrite repeat_length.
  destruct (build_laplacian_pyramid pred_cond L) as [cp|e] eqn:Hc;
    [|reflexivity].
  destruct (build_laplacian_pyramid pred_uncond L) as [up|e] eqn:Hu;
    [|reflexivity].
  cbn [bind].
  rewrite !guided_pyramid_unit_scales by (now apply Hlevels).
  now rewrite !Nat.min_l by assumption.
Qed.

Lemma unit_scales_ignore_weights_witness :
  laplacian_guidance ref_pyrup ref_build_laplacian_pyramid
                     demo_cond demo_uncond (repeat 1 2) (Some [0; 7])
  = laplacian_guidance ref_pyrup ref_build_laplacian_pyramid
                       demo_cond demo_uncond (repeat 1 2) (Some [3; 5 / 10; 9]).
Proof.
  apply (unit_scales_ignore_weights
           ref_pyrup ref_build_laplacian_pyramid demo_cond demo_uncond 2
           [0; 7] [3; 5 / 10; 9]);
    [exact demo_levels|simpl; lia|simpl; lia].
Defined.

(** ** Unit parallel weights *)

Lemma map_mult_one (l : list R) : map (Rmult 1) l = l.
Proof.
  induction l as [|x l IH]; simpl; [reflexivity|].
  rewrite IH. f_equal. ring.
Qed.

Lemma map2_cfg (s : R) (a b : list R) :
  map2 Rplus a (map (Rmult (s - 1)) (map2 Rminus a b))
  = map2 (fun x y => y + s * (x - y)) a b.
Proof.
  revert b; induction a as [|x a IH]; intros [|y b]; simpl;
    try reflexivity.
  rewrite IH. f_equal. ring.
Qed.

Lemma guided_level_unit_weight (original_size : list nat) (idx : nat)
      (c u : tensor) (s : R) :
  paired_level c u ->
  guided_level original_size idx c u s 1
  = (' (h, w) <- level_size original_size idx ;;
     c' <- crop_hw h w c ;;
     u' <- crop_hw h w u ;;
     Ok (cfg_level s c' u')).
Proof.
  intros (Hs & Hd & Hwc & Hwu & Hrank). unfold guided_level.
  destruct (level_size original_size idx) as [[h w']|e]; [|reflexivity].
  cbn [bind].
  destruct (crop_hw_ok h w' c ltac:(lia)) as [c' Hc]. rewrite Hc.
  destruct (crop_hw_same_shape h w' c u c' Hs Hc) as (u' & Hu & Hsu & Hdu).
  rewrite Hu. cbn [bind].
  pose proof (crop_hw_wf _ _ _ _ Hwc Hc) as Hwc'.
  pose proof (crop_hw_wf _ _ _ _ Hwu Hu) as Hwu'.
  destruct (crop_hw_shape _ _ _ _ Hc) as (lead & H & W & Hsc & Hsc' & Hdc).
  assert (Hrank' : (3 <= length (shape c'))%nat).
  { rewrite Hsc'. rewrite Hsc in Hrank. rewrite length_app in *. exact Hrank. }
  destruct (binop_ok_same_shape Rminus c' u' (eq_sym Hsu) Hwc' Hwu')
    as (diff & Hdiff & Hsd & Hdd & Hdata & Hwd).
  unfold tsub. rewrite Hdiff. cbn [bind].
  destruct (project_entries diff c' Hsd ltac:(congruence) Hwd Hwc')
    as (par & orth & Hp & Epar & Eorth & _ & _ & Hwp & Hwo & HF2).
  rewrite Hp. cbn [bind].
  assert (Hsp : shape par = shape diff) by (now subst par).
  assert (Hso : shape orth = shape diff) by (now subst orth).
  unfold tadd.
  rewrite (binop_same_shape Rplus (smul 1 par) orth);
    [|simpl; congruence|now apply smul_wf|exact Hwo].
  cbn [bind].
  assert (Hd2 : map2 Rplus (data (smul 1 par)) (data orth) = data diff).
  { simpl. rewrite map_mult_one. subst par orth. simpl.
    rewrite (sum_blocks _ _ _ HF2). now apply entries_concat. }
  rewrite Hd2.
  rewrite binop_same_shape.
  - simpl. rewrite Hdata, map2_cfg. unfold cfg_level. f_equal. f_equal.
    subst par orth. simpl.
    rewrite Hdd, Hdu, Hdc, Hd, !promote_same. reflexivity.
  - simpl. congruence.
  - exact Hwc'.
  - unfold wf in *. simpl. rewrite length_map. congruence.
Qed.

Lemma guided_pyramid_unit_weights (original_size : list nat) (idx n : nat)
      (cs us : list tensor) (gs : list R) :
  Forall2 paired_level cs us -> (length gs <= n)%nat ->
  guided_pyramid original_size idx cs us gs (repeat 1 n)
  = cfg_pyramid original_size idx cs us gs.
Proof.
  intros HF. revert idx n gs.
  induction HF as [|c u cs us Hcu _ IH]; intros idx n [|s gs] Hn;
    try (destruct n; reflexivity).
  destruct n as [|n]; [simpl in Hn; lia|]. simpl.
  rewrite guided_level_unit_weight by exact Hcu.
  destruct (level_size original_size idx) as [[h w']|e]; [|reflexivity].
  cbn [bind]. destruct (crop_hw h w' c); [|reflexivity].
  cbn [bind]. destruct (crop_hw h w' u); [|reflexivity].
  cbn [bind]. rewrite IH by (simpl in Hn; lia). reflexivity.
Qed.

(** X11: with the default parallel weights (all 1) the projection cancels
    out: every guided level is plain classifier-free guidance of the
    cropped levels at the scale of the level,
    [uncond + scale * (cond - uncond)], and the output is the
    reconstruction of those levels.  The hypothesis is the one of C1 on
    kornia's pyramids. *)
Theorem unit_weights_are_cfg
        (pyrup : tensor -> result tensor)
        (build_laplacian_pyramid : tensor -> nat -> result (list tensor))
        (pred_cond pred_uncond : tensor) (guidance_scale : list R) :
  (forall cp up,
      build_laplacian_pyramid pred_cond (length guidance_scale) = Ok cp ->
      build_laplacian_pyramid pred_uncond (length guidance_scale) = Ok up ->
      Forall2 paired_level cp up) ->
  laplacian_guidance pyrup build_laplacian_pyramid pred_cond pred_uncond
                     guidance_scale None
  = (cp <- build_laplacian_pyramid pred_cond (length guidance_scale) ;;
     up <- build_laplacian_pyramid pred_uncond (length guidance_scale) ;;
     guided <- cfg_pyramid (last_axes 2 (shape pred_cond)) 0 cp up
                           guidance_scale ;;
     img <- build_image_from_pyramid pyrup guided ;;
     Ok (to_dtype (dtype pred_cond) img)).
Proof.
  intros Hlevels. unfold laplacian_guidance.
  destruct (build_laplacian_pyramid pred_cond _) as [cp|e] eqn:Hc;
    [|reflexivity].
  destruct (build_laplacian_pyramid pred_uncond _) as [up|e] eqn:Hu;
    [|reflexivity].
  cbn [bind].
  now rewrite guided_pyramid_unit_weights by (auto; lia).
Qed.

Lemma unit_weights_are_cfg_witness :
  laplacian_guidance ref_pyrup ref_build_laplacian_pyramid
                     demo_cond demo_uncond [3; 2] None
  = (cp <- ref_build_laplacian_pyramid demo_cond (length [3; 2]) ;;
     up <- ref_build_laplacian_pyramid demo_uncond (length [3; 2]) ;;
     guided <- cfg_pyramid (last_axes 2 (shape demo_cond)) 0 cp up [3; 2] ;;
     img <- build_image_from_pyramid ref_pyrup guided ;;
     Ok (to_dtype (dtype demo_cond) img)).
Proof.
  apply (unit_weights_are_cfg ref_pyrup ref_build_laplacian_pyramid
                              demo_cond demo_uncond [3; 2]).
  exact demo_levels.
Defined.

(** ** Equal predictions *)

Lemma dot_zeros_l (n : nat) (x : list R) : dot (repeat 0 n) x = 0.
Proof.
  unfold dot. revert x; induction n as [|n IH]; intros [|y x]; simpl;
    try reflexivity.
  rewrite IH. ring.
Qed.

Lemma entry_parallel_zero_input (n : nat) (e1 : list R) :
  entry_parallel (repeat 0 n) e1 = repeat 0 (length e1).
Proof.
  unfold entry_parallel.
  now rewrite dot_zeros_l, map_mult_zero, normalized_length.
Qed.

Lemma zero_input_blocks (n : nat) (ys : list (list R)) :
  Forall (fun b => length b = n) ys ->
  concat (map2 entry_parallel (repeat (repeat 0 n) (length ys)) ys)
  = repeat 0 (length ys * n)
  /\ concat (map2 entry_orthogonal (repeat (repeat 0 n) (length ys)) ys)
     = repeat 0 (length ys * n).
Proof.
  induction 1 as [|b ys Hb _ [IH1 IH2]]; simpl; [split; reflexivity|].
  rewrite IH1, IH2. unfold entry_orthogonal.
  rewrite entry_parallel_zero_input, Hb, repeat_app.
  split; [reflexivity|]. f_equal.
  now rewrite map2_minus_self, repeat_length.
Qed.

Lemma zeros_like_wf (t : tensor) : wf (zeros_like t).
Proof. unfold wf. simpl. apply repeat_length. Qed.

Lemma project_zero_input (t v1 : tensor) :
  shape t = shape v1 -> (3 <= length (shape t))%nat -> wf v1 ->
  project (zeros_like t) v1 = Ok (zeros_like t, zeros_like t).
Proof.
  intros Hs Hrank Hwf1.
  rewrite project_same_shape;
    [|exact Hs|exact Hrank|apply zeros_like_wf|exact Hwf1].
  assert (HE : entries (zeros_like t)
               = repeat (repeat 0 (numel (last_axes 3 (shape t))))
                        (length (entries v1))).
  { unfold entries at 1. simpl. rewrite (numel_split 3 (shape t)).
    rewrite chunks_repeat, entries_length. now rewrite Hs. }
  pose proof (entries_Forall_length _ Hwf1) as HF1. rewrite <- Hs in HF1.
  destruct (zero_input_blocks _ _ HF1) as [H1 H2].
  rewrite HE, H1, H2, entries_length, <- Hs, <- numel_split.
  reflexivity.
Qed.

Lemma map2_plus_scaled_zeros (k : R) (a : list R) :
  map2 Rplus a (map (Rmult k) (repeat 0 (length a))) = a.
Proof.
  induction a as [|x a IH]; simpl; [reflexivity|].
  rewrite IH. f_equal. ring.
Qed.

Lemma map2_scaled_zeros_plus (k : R) (n : nat) :
  map2 Rplus (map (Rmult k) (repeat 0 n)) (repeat 0 n) = repeat 0 n.
Proof.
  induction n as [|n IH]; simpl; [reflexivity|].
  rewrite IH. f_equal. ring.
Qed.

Lemma guided_level_same (original_size : list nat) (idx : nat)
      (c : tensor) (s w : R) :
  wf c -> (3 <= length (shape c))%nat ->
  guided_level original_size idx c c s w
  = (' (h, w) <- level_size original_size idx ;; crop_hw h w c).
Proof.
  intros Hwc Hrank. unfold guided_level.
  destruct (level_size original_size idx) as [[h w']|e]; [|reflexivity].
  cbn [bind].
  destruct (crop_hw_ok h w' c ltac:(lia)) as [c' Hc]. rewrite Hc.
  cbn [bind].
  pose proof (crop_hw_wf _ _ _ _ Hwc Hc) as Hwc'.
  destruct (crop_hw_shape _ _ _ _ Hc) as (lead & H & W & Hsc & Hsc' & Hdc).
  assert (Hrank' : (3 <= length (shape c'))%nat).
  { rewrite Hsc'. rewrite Hsc in Hrank. rewrite length_app in *. exact Hrank. }
  assert (Hdiff : tsub c' c' = Ok (zeros_like c')).
  { unfold tsub. rewrite binop_same_shape by auto.
    rewrite promote_same, map2_minus_self. unfold zeros_like.
    now rewrite Hwc'. }
  rewrite Hdiff. cbn [bind].
  rewrite project_zero_input by auto. cbn [bind].
  assert (Hd2 : tadd (smul w (zeros_like c')) (zeros_like c')
                = Ok (zeros_like c')).
  { unfold tadd. rewrite binop_same_shape;
      [|reflexivity|apply smul_wf, zeros_like_wf|apply zeros_like_wf].
    simpl. rewrite promote_same, map2_scaled_zeros_plus. reflexivity. }
  rewrite Hd2. cbn [bind]. unfold tadd.
  rewrite binop_same_shape;
    [|reflexivity|exact Hwc'|apply smul_wf, zeros_like_wf].
  simpl. rewrite promote_same, <- Hwc', map2_plus_scaled_zeros.
  now rewrite tensor_eta.
Qed.

Lemma guided_pyramid_same (original_size : list nat) (idx : nat)
      (cs : list tensor) (gs ws : list R) :
  Forall (fun c => wf c /\ (3 <= length (shape c))%nat) cs ->
  guided_pyramid original_size idx cs cs gs ws
  = cropped_pyramid original_size idx cs
                    (Nat.min (length gs) (length ws)).
Proof.
  intros HF. revert idx gs ws.
  induction HF as [|c cs [Hw Hr] _ IH]; intros idx [|s gs] [|w ws]; simpl;
    try reflexivity.
  rewrite guided_level_same by assumption.
  destruct (level_size original_size idx) as [[h w']|e]; [|reflexivity].
  cbn [bind]. destruct (crop_hw h w' c); [|reflexivity].
  cbn [bind]. now rewrite IH.
Qed.

(** X12: when the conditional and the unconditional prediction are the
    same tensor, guidance changes nothing, whatever the scales and the
    weights: every guided level is the cropped level of the pyramid, and
    the output is the reconstruction of the cropped pyramid.  The
    hypothesis is that the levels kornia returns are well-formed tensors
    with at least three axes. *)
Theorem same_predictions_unchanged
        (pyrup : tensor -> result tensor)
        (build_laplacian_pyramid : tensor -> nat -> result (list tensor))
        (pred : tensor) (guidance_scale parallel_weights : list R) :
  (forall cp,
      build_laplacian_pyramid pred (length guidance_scale) = Ok cp ->
      Forall (fun c => wf c /\ (3 <= length (shape c))%nat) cp) ->
  laplacian_guidance pyrup build_laplacian_pyramid pred pred
                     guidance_scale (Some parallel_weights)
  = (cp <- build_laplacian_pyramid pred (length guidance_scale) ;;
     cropped <- cropped_pyramid (last_axes 2 (shape pred)) 0 cp
                  (Nat.min (length guidance_scale)
                           (length parallel_weights)) ;;
     img <- build_image_from_pyramid pyrup cropped ;;
     Ok (to_dtype (dtype pred) img)).
Proof.
  intros Hlevels. unfold laplacian_guidance.
  destruct (build_laplacian_pyramid pred _) as [cp|e] eqn:Hc;
    [|reflexivity].
  cbn [bind]. now rewrite guided_pyramid_same by (now apply Hlevels).
Qed.

Lemma demo_cond_levels (cp : list tensor) :
  ref_build_laplacian_pyramid demo_cond 2 = Ok cp ->
  Forall (fun c => wf c /\ (3 <= length (shape c))%nat) cp.
Proof.
  intros E. inversion E; subst cp.
  repeat constructor.
Qed.

Lemma same_predictions_unchanged_witness :
  laplacian_guidance ref_pyrup ref_build_laplacian_pyramid
                     demo_cond demo_cond [3; 2] (Some [7; 5 / 10])
  = (cp <- ref_build_laplacian_pyramid demo_cond (length [3; 2]) ;;
     cropped <- cropped_pyramid (last_axes 2 (shape demo_cond)) 0 cp
                  (Nat.min (length [3; 2]) (length [7; 5 / 10])) ;;
     img <- build_image_from_pyramid ref_pyrup cropped ;;
     Ok (to_dtype (dtype demo_cond) img)).
Proof.
  apply (same_predictions_unchanged
           ref_pyrup ref_build_laplacian_pyramid demo_cond
           [3; 2] [7; 5 / 10]).
  exact demo_cond_levels.
Defined.

(** ** Empty and single-level pyramids *)

Lemma guided_pyramid_no_weights (original_size : list nat) (idx : nat)
      (cs us : list tensor) (gs : list R) :
  guided_pyramid original_size idx cs us gs [] = Ok [].
Proof. destruct cs, us, gs; reflexivity. Qed.

Lemma guided_pyramid_no_scales (original_size : list nat) (idx : nat)
      (cs us : list tensor) (ws : list R) :
  guided_pyramid original_size idx cs us [] ws = Ok [].
Proof. destruct cs, us; reflexivity. Qed.

(** X13: with an empty list of guidance scales, or an empty list of
    parallel weights, [laplacian_guidance] never returns a tensor: no
    level is guided and the reconstruction reads the last level of an
    empty pyramid, which raises [IndexError] once kornia has returned. *)
Theorem laplacian_guidance_empty
        (pyrup : tensor -> result tensor)
        (build_laplacian_pyramid : tensor -> nat -> result (list tensor))
        (pred_cond pred_uncond : tensor) :
  (forall parallel_weights,
      laplacian_guidance pyrup build_laplacian_pyramid pred_cond pred_uncond
                         [] parallel_weights
      = (_ <- build_laplacian_pyramid pred_cond 0%nat ;;
         _ <- build_laplacian_pyramid pred_uncond 0%nat ;;
         Err IndexError))
  /\ (forall guidance_scale,
         laplacian_guidance pyrup build_laplacian_pyramid
                            pred_cond pred_uncond guidance_scale (Some [])
         = (_ <- build_laplacian_pyramid pred_cond (length guidance_scale) ;;
            _ <- build_laplacian_pyramid pred_uncond
                   (length guidance_scale) ;;
            Err IndexError))
  /\ (forall guidance_scale parallel_weights t,
         guidance_scale = [] \/ parallel_weights = Some [] ->
         laplacian_guidance pyrup build_laplacian_pyramid
                            pred_cond pred_uncond
                            guidance_scale parallel_weights <> Ok t).
Proof.
  assert (H1 : forall parallel_weights,
             laplacian_guidance pyrup build_laplacian_pyramid
                                pred_cond pred_uncond [] parallel_weights
             = (_ <- build_laplacian_pyramid pred_cond 0%nat ;;
                _ <- build_laplacian_pyramid pred_uncond 0%nat ;;
                Err IndexError)).
  { intros pw. unfold laplacian_guidance. simpl length.
    destruct (build_laplacian_pyramid pred_cond 0%nat); [|reflexivity].
    destruct (build_laplacian_pyramid pred_uncond 0%nat); [|reflexivity].
    cbn [bind]. now rewrite guided_pyramid_no_scales. }
  assert (H2 : forall guidance_scale,
             laplacian_guidance pyrup build_laplacian_pyramid
                                pred_cond pred_uncond guidance_scale (Some [])
             = (_ <- build_laplacian_pyramid pred_cond
                       (length guidance_scale) ;;
                _ <- build_laplacian_pyramid pred_uncond
                       (length guidance_scale) ;;
                Err IndexError)).
  { intros gs. clear H1. unfold laplacian_guidance.
    destruct (build_laplacian_pyramid pred_cond (length gs)); [|reflexivity].
    destruct (build_laplacian_pyramid pred_uncond (length gs));
      [|reflexivity].
    cbn [bind]. now rewrite guided_pyramid_no_weights. }
  split; [exact H1|]. split; [exact H2|].
  intros gs pw t [->| ->].
  - rewrite H1. clear H1 H2.
    destruct (build_laplacian_pyramid pred_cond 0%nat); [|discriminate].
    destruct (build_laplacian_pyramid pred_uncond 0%nat); discriminate.
  - rewrite H2. clear H1 H2.
    destruct (build_laplacian_pyramid pred_cond (length gs));
      [|discriminate].
    destruct (build_laplacian_pyramid pred_uncond (length gs)); discriminate.
Qed.

Lemma build_image_short (pyrup pyrup' : tensor -> result tensor)
      (g : list tensor) :
  (length g <= 1)%nat ->
  build_image_from_pyramid pyrup g = build_image_from_pyramid pyrup' g.
Proof.
  destruct g as [|g0 [|g1 g]]; simpl; intros H; try reflexivity. lia.
Qed.

(** X14: with at most one guidance scale the upsampling is never used:
    the result of [laplacian_guidance] is the same whatever [pyrup] is. *)
Theorem single_level_ignores_pyrup
        (pyrup pyrup' : tensor -> result tensor)
        (build_laplacian_pyramid : tensor -> nat -> result (list tensor))
        (pred_cond pred_uncond : tensor)
        (guidance_scale : list R) (parallel_weights : option (list R)) :
  (length guidance_scale <= 1)%nat ->
  laplacian_guidance pyrup build_laplacian_pyramid pred_cond pred_uncond
                     guidance_scale parallel_weights
  = laplacian_guidance pyrup' build_laplacian_pyramid pred_cond pred_uncond
                       guidance_scale parallel_weights.
Proof.
  intros HL. unfold laplacian_guidance.
  destruct (build_laplacian_pyramid pred_cond _) as [cp|]; [|reflexivity].
  destruct (build_laplacian_pyramid pred_uncond _) as [up|]; [|reflexivity].
  cbn [bind].
  destruct (guided_pyramid _ _ _ _ _ _) as [g|] eqn:Eg; [|reflexivity].
  cbn [bind]. apply guided_pyramid_length in Eg.
  now rewrite (build_image_short pyrup pyrup' g) by lia.
Qed.

Lemma single_level_ignores_pyrup_witness :
  laplacian_guidance ref_pyrup ref_build_laplacian_pyramid
                     demo_cond demo_uncond [3] None
  = laplacian_guidance (fun _ => Err LibraryError)
                       ref_build_laplacian_pyramid
                       demo_cond demo_uncond [3] None.
Proof.
  apply (single_level_ignores_pyrup
           ref_pyrup (fun _ => Err LibraryError)
           ref_build_laplacian_pyramid demo_cond demo_uncond [3] None).
  simpl. lia.
Defined.

(** ** Exact reconstruction *)

Lemma laplacian_of_nonempty (pyrup : tensor -> result tensor)
      (gaussian pyramid : list tensor) :
  laplacian_of pyrup gaussian pyramid -> pyramid <> [] /\ gaussian <> [].
Proof.
  destruct gaussian as [|g [|g' gs]], pyramid as [|l ls]; simpl;
    intros H; try contradiction; split; discriminate.
Qed.

(** X15: [build_image_from_pyramid] inverts the Laplacian decomposition
    exactly, whatever the upsampling kernel: on a pyramid whose every level
    but the last is a Gaussian level minus [pyrup] of the next one, and
    whose last level is the coarsest Gaussian level, it returns the finest
    Gaussian level. *)
Theorem build_image_from_pyramid_exact
        (pyrup : tensor -> result tensor)
        (g0 : tensor) (coarser pyramid : list tensor) :
  laplacian_of pyrup (g0 :: coarser) pyramid ->
  build_image_from_pyramid pyrup pyramid = Ok g0.
Proof.
  revert g0 pyramid.
  induction coarser as [|g1 gs IH]; intros g0 pyramid H.
  - destruct pyramid as [|l [|l' ls]]; simpl in H; try contradiction.
    now subst l.
  - destruct pyramid as [|l ls]; [contradiction|].
    cbn [laplacian_of] in H.
    destruct H as [(up & Hup & Hsu & Hdu & Hwu & Hwg & Hl) Hrest].
    change (laplacian_of pyrup (g1 :: gs) ls) in Hrest.
    pose proof (laplacian_of_nonempty _ _ _ Hrest) as [Hne _].
    rewrite build_image_cons by exact Hne.
    rewrite (IH g1 ls Hrest). unfold pyramid_step. cbn [bind].
    rewrite Hup. cbn [bind].
    unfold tsub in Hl.
    rewrite binop_same_shape in Hl by (auto; congruence).
    inversion Hl; subst l. clear Hl.
    unfold tadd. rewrite binop_same_shape.
    + simpl. rewrite map2_plus_minus
        by (unfold wf in *; congruence).
      rewrite Hdu, !promote_same, Hsu. now rewrite tensor_eta.
    + simpl. congruence.
    + exact Hwu.
    + unfold wf in *. simpl. rewrite map2_length. rewrite Hwu, Hwg, Hsu. lia.
Qed.

Lemma build_image_from_pyramid_exact_witness :
  build_image_from_pyramid ref_pyrup
    [mkTensor Float32 [1; 1; 2; 2]%nat [1 - 1; 2 - 1; 3 - 1; 4 - 1];
     mkTensor Float32 [1; 1; 1; 1]%nat [1]]
  = Ok demo_cond.
Proof.
  apply (build_image_from_pyramid_exact
           ref_pyrup demo_cond [mkTensor Float32 [1; 1; 1; 1]%nat [1]]).
  simpl. split; [|reflexivity].
  eexists. repeat split; reflexivity.
Defined.

(** ** The step gate along the schedule *)

Section GateAlongSchedule.

Variable pyrup : tensor -> result tensor.
Variable build_laplacian_pyramid : tensor -> nat -> result (list tensor).
Variable guidance_scale_high : R.
Variables guidance_scale parallel_weights_list : list R.

Lemma fdg_function_threshold (fdg_steps : Z) (args : fdg_args) (u : tensor) :
  uncond args = Some u -> (0 <= fdg_steps)%Z -> sample_sigmas args <> [] ->
  exists limit,
    nth_error (sample_sigmas args)
              (Z.to_nat (Z.min fdg_steps
                               (Z.of_nat (length (sample_sigmas args)) - 1)))
    = Some limit
    /\ fdg_function pyrup build_laplacian_pyramid guidance_scale_high
                    fdg_steps guidance_scale parallel_weights_list args
       = if Rgt_dec (sigma args) limit then
           laplacian_guidance pyrup build_laplacian_pyramid (cond args) u
                              guidance_scale (Some parallel_weights_list)
         else
           fallback_blend (cond args) u
                          (blend_scale guidance_scale_high (cond_scale args)).
Proof.
  intros Hu Hs Hne. unfold fdg_function. rewrite Hu, clamp_min.
  assert (Hlen : (0 < Z.of_nat (length (sample_sigmas args)))%Z)
    by (destruct (sample_sigmas args); [contradiction|simpl; lia]).
  destruct (py_index_nth_error (sample_sigmas args)
              (Z.min fdg_steps (Z.of_nat (length (sample_sigmas args)) - 1))
              ltac:(lia)) as (limit & Hn & Hi).
  exists limit. split; [exact Hn|].
  cbv zeta. rewrite Hi. cbn [bind]. reflexivity.
Qed.

(** X16: on a schedule that never increases, every step whose index is at
    least the step limit clamped to [S - 1] gets the fallback blend: full
    guidance is confined to the first [fdg_steps] steps, and the step of
    the last sigma never gets it. *)
Theorem fdg_function_after_limit
        (fdg_steps : Z) (args : fdg_args) (u : tensor) (i : nat) :
  uncond args = Some u -> (0 <= fdg_steps)%Z ->
  non_increasing (sample_sigmas args) ->
  nth_error (sample_sigmas args) i = Some (sigma args) ->
  (Z.min fdg_steps (Z.of_nat (length (sample_sigmas args)) - 1)
   <= Z.of_nat i)%Z ->
  fdg_function pyrup build_laplacian_pyramid guidance_scale_high fdg_steps
               guidance_scale parallel_weights_list args
  = fallback_blend (cond args) u
                   (blend_scale guidance_scale_high (cond_scale args)).
Proof.
  intros Hu Hs Hmono Hi Hge.
  assert (Hne : sample_sigmas args <> [])
    by (intros E; rewrite E in Hi; destruct i; discriminate).
  destruct (fdg_function_threshold fdg_steps args u Hu Hs Hne)
    as (limit & Hn & ->).
  destruct (Rgt_dec (sigma args) limit) as [Hgt|_]; [|reflexivity].
  exfalso.
  assert (Hij : (Z.to_nat (Z.min fdg_steps
                   (Z.of_nat (length (sample_sigmas args)) - 1)) <= i)%nat)
    by lia.
  pose proof (Hmono _ _ _ _ Hij Hn Hi) as Hle. lra.
Qed.

(** X17: on a schedule that always decreases, every step whose index is
    below the step limit clamped to [S - 1] gets the Laplacian mixer. *)
Theorem fdg_function_before_limit
        (fdg_steps : Z) (args : fdg_args) (u : tensor) (i : nat) :
  uncond args = Some u -> (0 <= fdg_steps)%Z ->
  strictly_decreasing (sample_sigmas args) ->
  nth_error (sample_sigmas args) i = Some (sigma args) ->
  (Z.of_nat i
   < Z.min fdg_steps (Z.of_nat (length (sample_sigmas args)) - 1))%Z ->
  fdg_function pyrup build_laplacian_pyramid guidance_scale_high fdg_steps
               guidance_scale parallel_weights_list args
  = laplacian_guidance pyrup build_laplacian_pyramid (cond args) u
                       guidance_scale (Some parallel_weights_list).
Proof.
  intros Hu Hs Hmono Hi Hlt.
  assert (Hne : sample_sigmas args <> [])
    by (intros E; rewrite E in Hi; destruct i; discriminate).
  destruct (fdg_function_threshold fdg_steps args u Hu Hs Hne)
    as (limit & Hn & ->).
  destruct (Rgt_dec (sigma args) limit) as [_|Hngt]; [reflexivity|].
  exfalso. apply Hngt.
  assert (Hij : (i < Z.to_nat (Z.min fdg_steps
                   (Z.of_nat (length (sample_sigmas args)) - 1)))%nat)
    by lia.
  exact (Hmono _ _ _ _ Hij Hi Hn).
Qed.

(** X18: with an unconditional prediction and an empty sigma schedule the
    callback raises [IndexError] whatever the step limit; and a step limit
    of [S - 1] or more acts as [S - 1]. *)
Theorem fdg_function_schedule_bounds :
  (forall fdg_steps args u,
      uncond args = Some u -> sample_sigmas args = [] ->
      fdg_function pyrup build_laplacian_pyramid guidance_scale_high
                   fdg_steps guidance_scale parallel_weights_list args
      = Err IndexError)
  /\ (forall fdg_steps args,
         (Z.of_nat (length (sample_sigmas args)) - 1 <= fdg_steps)%Z ->
         fdg_function pyrup build_laplacian_pyramid guidance_scale_high
                      fdg_steps guidance_scale parallel_weights_list args
         = fdg_function pyrup build_laplacian_pyramid guidance_scale_high
                        (Z.of_nat (length (sample_sigmas args)) - 1)
                        guidance_scale parallel_weights_list args).
Proof.
  split.
  - intros fdg_steps args u Hu He. unfold fdg_function.
    rewrite Hu, He. simpl length. cbv zeta.
    assert (Hidx : forall k : Z, py_index (@nil R) k = Err IndexError).
    { intros k. unfold py_index. simpl length.
      destruct (k <? 0)%Z;
        [destruct (Z.leb_spec 0 (Z.of_nat 0 + k));
         [destruct (Z.ltb_spec (Z.of_nat 0 + k) (Z.of_nat 0)); [lia|]|]
        |destruct (Z.leb_spec 0 k);
         [destruct (Z.ltb_spec k (Z.of_nat 0)); [lia|]|]];
        reflexivity. }
    now rewrite Hidx.
  - intros fdg_steps args Hge. unfold fdg_function.
    destruct (uncond args); [|reflexivity].
    rewrite !clamp_min. now rewrite Z.min_r, Z.min_id by lia.
Qed.

End GateAlongSchedule.

Lemma fdg_function_after_limit_witness :
  fdg_function ref_pyrup ref_build_laplacian_pyramid 10 1 [10; 1] [1; 1]
               (mkArgs demo_cond (Some demo_uncond) 7 [3; 2; 1] 1)
  = fallback_blend demo_cond demo_uncond (blend_scale 10 7).
Proof.
  apply (fdg_function_after_limit
           ref_pyrup ref_build_laplacian_pyramid 10 [10; 1] [1; 1] 1%Z
           (mkArgs demo_cond (Some demo_uncond) 7 [3; 2; 1] 1)
           demo_uncond 2%nat).
  - reflexivity.
  - lia.
  - intros i j x y Hij Hi Hj. simpl in Hi, Hj.
    assert (Hj3 : (j < 3)%nat)
      by (apply (proj1 (nth_error_Some [3; 2; 1] j)); rewrite Hj;
          discriminate).
    destruct i as [|[|[|i]]]; destruct j as [|[|[|j]]]; try lia;
      simpl in Hi, Hj; injection Hi as <-; injection Hj as <-; lra.
  - reflexivity.
  - simpl. lia.
Defined.

Lemma fdg_function_before_limit_witness :
  fdg_function ref_pyrup ref_build_laplacian_pyramid 10 1 [10; 1] [1; 1]
               (mkArgs demo_cond (Some demo_uncond) 7 [3; 2; 1] 3)
  = laplacian_guidance ref_pyrup ref_build_laplacian_pyramid
                       demo_cond demo_uncond [10; 1] (Some [1; 1]).
Proof.
  apply (fdg_function_before_limit
           ref_pyrup ref_build_laplacian_pyramid 10 [10; 1] [1; 1] 1%Z
           (mkArgs demo_cond (Some demo_uncond) 7 [3; 2; 1] 3)
           demo_uncond 0%nat).
  - reflexivity.
  - lia.
  - intros i j x y Hij Hi Hj. simpl in Hi, Hj.
    assert (Hj3 : (j < 3)%nat)
      by (apply (proj1 (nth_error_Some [3; 2; 1] j)); rewrite Hj;
          discriminate).
    destruct i as [|[|[|i]]]; destruct j as [|[|[|j]]]; try lia;
      simpl in Hi, Hj; injection Hi as <-; injection Hj as <-; lra.
  - reflexivity.
  - simpl. lia.
Defined.

(** ** The fallback blend *)

Lemma map2_blend (s : R) (c u : list R) :
  map2 Rplus u (map (fun x => x * s) (map2 Rminus c u))
  = map2 (fun x y => y + (x - y) * s) c u.
Proof.
  revert u; induction c as [|x c IH]; intros [|y u]; simpl;
    try reflexivity.
  now rewrite IH.
Qed.

Lemma fallback_blend_same_shape (c u : tensor) (s : R) :
  shape c = shape u -> wf c -> wf u ->
  fallback_blend c u s
  = Ok (mkTensor (promote (dtype u) (promote (dtype c) (dtype u)))
                 (shape u)
                 (map2 (fun x y => y + (x - y) * s) (data c) (data u))).
Proof.
  intros Hs Hc Hu. unfold fallback_blend, tsub.
  rewrite binop_same_shape by auto. cbn [bind].
  unfold tadd. rewrite binop_same_shape.
  - simpl. now rewrite map2_blend.
  - simpl. congruence.
  - exact Hu.
  - unfold wf, muls in *. simpl.
    rewrite length_map, map2_length. rewrite Hc, Hu, Hs. lia.
Qed.

(** X19: whenever the current sigma does not exceed the sigma at the
    clamped step limit, the callback returns the classic blend
    [uncond + (cond - uncond) * s] element by element on predictions of
    one shape, where [s] is the nominal [cond_scale], replaced by
    [guidance_scale_high] when it is close to 1; the pyramid schedule and
    the parallel weights play no part. *)
Theorem fdg_function_fallback_cfg
        (pyrup : tensor -> result tensor)
        (build_laplacian_pyramid : tensor -> nat -> result (list tensor))
        (guidance_scale_high : R) (fdg_steps : Z)
        (guidance_scale parallel_weights_list : list R)
        (args : fdg_args) (u : tensor) (limit : R) :
  uncond args = Some u -> (0 <= fdg_steps)%Z ->
  nth_error (sample_sigmas args)
            (Z.to_nat (Z.min fdg_steps
                             (Z.of_nat (length (sample_sigmas args)) - 1)))
  = Some limit ->
  sigma args <= limit ->
  shape (cond args) = shape u -> wf (cond args) -> wf u ->
  fdg_function pyrup build_laplacian_pyramid guidance_scale_high fdg_steps
               guidance_scale parallel_weights_list args
  = Ok (mkTensor (promote (dtype u) (promote (dtype (cond args)) (dtype u)))
                 (shape u)
                 (map2 (fun x y =>
                          y + (x - y)
                              * blend_scale guidance_scale_high
                                            (cond_scale args))
                       (data (cond args)) (data u)))
  /\ (cond_scale args = 1 ->
      blend_scale guidance_scale_high (cond_scale args)
      = guidance_scale_high).
Proof.
  intros Hu Hs Hn Hle Hsh Hc Hwu. split.
  - assert (Hne : sample_sigmas args <> [])
      by (intros E; rewrite E in Hn; simpl in Hn;
          destruct (Z.to_nat _); discriminate).
    destruct (fdg_function_threshold pyrup build_laplacian_pyramid
                guidance_scale_high guidance_scale parallel_weights_list
                fdg_steps args u Hu Hs Hne) as (limit' & Hn' & ->).
    rewrite Hn in Hn'. injection Hn' as <-.
    destruct (Rgt_dec (sigma args) limit) as [Hgt|_]; [lra|].
    now apply fallback_blend_same_shape.
  - intros H1. unfold blend_scale. now rewrite H1, isclose_one.
Qed.

Lemma fdg_function_fallback_cfg_witness :
  fdg_function ref_pyrup ref_build_laplacian_pyramid 10 1 [10; 1] [1; 1]
               (mkArgs demo_cond (Some demo_uncond) 1 [3; 2; 1] 2)
  = Ok (mkTensor Float32 [1; 1; 2; 2]%nat
                 (map2 (fun x y => y + (x - y) * blend_scale 10 1)
                       [1; 2; 3; 4] [0; 1; 0; 1]))
  /\ (1 = 1 -> blend_scale 10 1 = 10).
Proof.
  apply (fdg_function_fallback_cfg
           ref_pyrup ref_build_laplacian_pyramid 10 1%Z [10; 1] [1; 1]
           (mkArgs demo_cond (Some demo_uncond) 1 [3; 2; 1] 2)
           demo_uncond 2).
  - reflexivity.
  - lia.
  - reflexivity.
  - simpl. lra.
  - reflexivity.
  - reflexivity.
  - reflexivity.
Defined.

(** ** What [patch] installs *)

Section PatchInstalls.

Variable torch_cos : R -> R.
Variable pyrup : tensor -> result tensor.
Variable build_laplacian_pyramid : tensor -> nat -> result (list tensor).
Variable py_float : string -> option R.

Lemma parse_parallel_weights_length (text : string) (levels : Z) :
  (0 <= levels)%Z ->
  Z.of_nat (length (parse_parallel_weights py_float text levels)) = levels.
Proof.
  intros Hl. unfold parse_parallel_weights.
  set (l := match parse_floats py_float text with
            | Some ws => ws
            | None => py_repeat 1 levels
            end).
  cbv zeta.
  destruct (Z.ltb_spec (Z.of_nat (length l)) levels).
  - unfold py_repeat. rewrite length_app, repeat_length. lia.
  - destruct (Z.gtb_spec (Z.of_nat (length l)) levels).
    + rewrite py_slice_to_length by lia. lia.
    + lia.
Qed.

Lemma create_guidance_scales_ok (high_scale low_scale : R) (levels : Z)
      (method : string) :
  levels = 1%Z \/ ((0 <= levels)%Z /\ known_method method) ->
  exists gs,
    create_guidance_scales torch_cos high_scale low_scale levels method
    = Ok gs
    /\ Z.of_nat (length gs) = levels.
Proof.
  intros [->|[Hl Hm]].
  - exists [high_scale]. split; reflexivity.
  - destruct (Z.eq_dec levels 1) as [->|Hn].
    + exists [high_scale]. split; reflexivity.
    + destruct Hm as [->| ->].
      * rewrite linear_schedule by auto. eexists. split; [reflexivity|].
        rewrite length_map, length_seq. lia.
      * rewrite cosine_schedule by auto.
        eexists. split; [reflexivity|].
        rewrite length_map, length_seq. lia.
Qed.

(** X20: for one level, or a non-negative number of levels with a known
    interpolation method, [patch] succeeds whatever the weights text is,
    and the callback it installs is [fdg_function] closed over a schedule
    and a weights list that both have exactly [levels] entries, so the
    [zip] in [laplacian_guidance] drops neither a scale nor a weight. *)
Theorem patch_installs
        (high_scale low_scale : R) (levels fdg_steps : Z)
        (method parallel_weights : string) :
  levels = 1%Z \/ ((0 <= levels)%Z /\ known_method method) ->
  exists gs ws,
    create_guidance_scales torch_cos high_scale low_scale levels method
    = Ok gs
    /\ ws = parse_parallel_weights py_float parallel_weights levels
    /\ patch torch_cos pyrup build_laplacian_pyramid py_float
             high_scale low_scale levels fdg_steps method parallel_weights
       = Ok (fdg_function pyrup build_laplacian_pyramid high_scale
                          fdg_steps gs ws)
    /\ Z.of_nat (length gs) = levels
    /\ length ws = length gs.
Proof.
  intros H.
  destruct (create_guidance_scales_ok high_scale low_scale levels method H)
    as (gs & Hgs & Hlen).
  exists gs, (parse_parallel_weights py_float parallel_weights levels).
  repeat split; auto.
  - unfold patch. rewrite Hgs. reflexivity.
  - pose proof (parse_parallel_weights_length parallel_weights levels)
      as Hp.
    assert (H0 : (0 <= levels)%Z) by lia. specialize (Hp H0). lia.
Qed.

(** ** Weights texts that do not parse *)

Lemma traverse_none {A B : Type} (f : A -> option B) (l : list A) (a : A) :
  In a l -> f a = None -> traverse f l = None.
Proof.
  intros Hin Hf. induction l as [|x l IH]; [contradiction|].
  simpl. destruct Hin as [->|Hin].
  - now rewrite Hf.
  - destruct (f x); [|reflexivity]. now rewrite IH.
Qed.

Lemma split_on_trailing (sep : ascii) (text : string) :
  exists ws,
    ws <> []
    /\ split_on sep (text ++ String sep EmptyString)%string
       = ws ++ [EmptyString].
Proof.
  induction text as [|c text (ws & Hne & IH)].
  - exists [EmptyString]. split; [discriminate|].
    simpl. now rewrite Ascii.eqb_refl.
  - simpl. destruct (Ascii.eqb c sep).
    + exists (EmptyString :: ws). split; [discriminate|].
      now rewrite IH.
    + rewrite IH. destruct ws as [|w ws]; [contradiction|].
      exists (String c w :: ws). split; [discriminate|reflexivity].
Qed.

Lemma parse_fallback (text : string) (levels : Z) :
  parse_floats py_float text = None ->
  parse_parallel_weights py_float text levels = py_repeat 1 levels.
Proof.
  intros E. unfold parse_parallel_weights. rewrite E. cbv zeta.
  unfold py_repeat. rewrite repeat_length.
  destruct (Z.ltb_spec (Z.of_nat (Z.to_nat levels)) levels); [lia|].
  destruct (Z.gtb_spec (Z.of_nat (Z.to_nat levels)) levels);
    [|reflexivity].
  replace (Z.to_nat levels) with 0%nat by lia.
  unfold py_slice_to. simpl. destruct (levels <? 0)%Z; apply firstn_nil.
Qed.

(** X21: with a [float] that refuses the empty string, as Python's does,
    one blank entry anywhere in the weights text discards every weight of
    the text: the list is [levels] ones.  This is so for the empty text,
    for a text that ends in a comma, and for a doubled comma. *)
Theorem parse_parallel_weights_blank_entry (levels : Z) :
  py_float "" = None ->
  (forall text w,
      In w (split_on "," text) -> strip w = ""%string ->
      parse_parallel_weights py_float text levels = py_repeat 1 levels)
  /\ parse_parallel_weights py_float "" levels = py_repeat 1 levels
  /\ (forall text,
         parse_parallel_weights py_float (text ++ ",") levels
         = py_repeat 1 levels)
  /\ parse_parallel_weights py_float "1.0,,2.0" levels
     = py_repeat 1 levels.
Proof.
  intros Hf.
  assert (Hblank : forall text w,
             In w (split_on "," text) -> strip w = ""%string ->
             parse_parallel_weights py_float text levels
             = py_repeat 1 levels).
  { intros text w Hin Hw. apply parse_fallback. unfold parse_floats.
    apply (traverse_none _ _ w Hin). now rewrite Hw. }
  split; [exact Hblank|split; [|split]].
  - apply (Hblank _ ""%string); [left|]; reflexivity.
  - intros text.
    destruct (split_on_trailing "," text) as (ws & _ & E).
    apply (Hblank _ ""%string); [|reflexivity].
    rewrite E. apply in_or_app. right. now left.
  - apply (Hblank _ ""%string); [|reflexivity].
    simpl. right. now left.
Qed.

End PatchInstalls.

Lemma patch_installs_witness :
  exists gs ws,
    create_guidance_scales rounded_cos 10 1 4 "cosine" = Ok gs
    /\ ws = parse_parallel_weights decimal_float "1.0,2.0" 4
    /\ patch rounded_cos ref_pyrup ref_build_laplacian_pyramid decimal_float
             10 1 4 2 "cosine" "1.0,2.0"
       = Ok (fdg_function ref_pyrup ref_build_laplacian_pyramid 10 2 gs ws)
    /\ Z.of_nat (length gs) = 4%Z
    /\ length ws = length gs.
Proof.
  apply (patch_installs rounded_cos ref_pyrup ref_build_laplacian_pyramid
                        decimal_float
                        10 1 4 2 "cosine" "1.0,2.0").
  right. split; [lia|]. right. reflexivity.
Defined.

Lemma parse_parallel_weights_blank_entry_witness :
  (forall text w,
      In w (split_on "," text) -> strip w = ""%string ->
      parse_parallel_weights decimal_float text 3 = py_repeat 1 3)
  /\ parse_parallel_weights decimal_float "" 3 = py_repeat 1 3
  /\ (forall text,
         parse_parallel_weights decimal_float (text ++ ",") 3
         = py_repeat 1 3)
  /\ parse_parallel_weights decimal_float "1.0,,2.0" 3 = py_repeat 1 3.
Proof.
  apply (parse_parallel_weights_blank_entry decimal_float 3).
  reflexivity.
Defined.

(** ** Cropping a level that already fits *)

Lemma crop_rows_fit (h w H W : nat) (m : list R) :
  length m = (H * W)%nat -> (H <= h)%nat -> (W <= w)%nat ->
  concat (map (firstn w) (firstn h (chunks H W m))) = m.
Proof.
  intros Hm Hh Hw.
  rewrite firstn_all2 by (rewrite chunks_length; lia).
  rewrite (map_ext_in _ (fun r => r)).
  - rewrite map_id. now apply concat_chunks.
  - intros r Hr.
    pose proof (chunks_Forall_length H W m Hm) as Hall.
    rewrite Forall_forall in Hall. apply firstn_all2.
    rewrite (Hall r Hr). exact Hw.
Qed.

Lemma crop_blocks_fit (h w K H W : nat) (d : list R) :
  length d = (K * (H * W))%nat -> (H <= h)%nat -> (W <= w)%nat ->
  concat (map (fun m => concat (map (firstn w) (firstn h (chunks H W m))))
              (chunks K (H * W) d))
  = d.
Proof.
  intros Hd Hh Hw.
  rewrite (map_ext_in _ (fun m => m)).
  - rewrite map_id. now apply concat_chunks.
  - intros m Hm.
    pose proof (chunks_Forall_length K (H * W) d Hd) as Hall.
    rewrite Forall_forall in Hall.
    apply crop_rows_fit; auto.
Qed.

Lemma crop_hw_fits (h w : nat) (t : tensor) (lead : list nat) (H W : nat) :
  wf t -> shape t = lead ++ [H; W] -> (H <= h)%nat -> (W <= w)%nat ->
  crop_hw h w t = Ok t.
Proof.
  intros Hwf Hs Hh Hw. unfold crop_hw.
  rewrite Hs, rev_app_distr. simpl rev. cbn [app].
  rewrite rev_involutive.
  unfold wf in Hwf. rewrite Hs, numel_app in Hwf. simpl in Hwf.
  rewrite crop_blocks_fit by (auto; rewrite Hwf; lia).
  rewrite (Nat.min_r h H), (Nat.min_r w W) by lia.
  destruct t as [dt sh d]. simpl in *. now rewrite Hs.
Qed.

(** X22: cropping to a size a well-formed tensor already fits in returns
    the tensor itself, so on a pyramid whose levels have exactly the level
    sizes the two crops of the loop change nothing; and cropping the
    result of a crop again to the same size changes nothing. *)
Theorem crop_hw_fixed (h w : nat) (t : tensor) :
  wf t ->
  (forall lead H W,
      shape t = lead ++ [H; W] -> (H <= h)%nat -> (W <= w)%nat ->
      crop_hw h w t = Ok t)
  /\ (forall t', crop_hw h w t = Ok t' -> crop_hw h w t' = Ok t').
Proof.
  intros Hwf. split.
  - intros lead H W. now apply crop_hw_fits.
  - intros t' E.
    destruct (crop_hw_shape h w t t' E) as (lead & H & W & _ & Hs' & _).
    apply (crop_hw_fits h w t' lead (Nat.min h H) (Nat.min w W));
      [now apply (crop_hw_wf h w t)|exact Hs'|lia|lia].
Qed.

Lemma crop_hw_fixed_witness :
  (forall lead H W,
      shape demo_cond = lead ++ [H; W] -> (H <= 2)%nat -> (W <= 3)%nat ->
      crop_hw 2 3 demo_cond = Ok demo_cond)
  /\ (forall t', crop_hw 2 3 demo_cond = Ok t' -> crop_hw 2 3 t' = Ok t').
Proof.
  apply (crop_hw_fixed 2 3 demo_cond). reflexivity.
Defined.
